(** * Quickshear: a shallow embedding of quickshear.py

    The module defaces an anatomical volume with a shearing plane derived
    from the convex hull of the sagittal profile of a brain mask.  The
    embedding follows the source function by function:
    [edge_mask], [convex_hull], [flip_axes], [orient_xPS], [quickshear],
    [deface] and the command-line entry point [main].

    numpy arrays are nested lists together with their shape; numpy's
    float64 arithmetic is the IEEE 754 binary64 arithmetic of the standard
    library's [SpecFloat]; Python exceptions and [sys.exit] are values of
    an error type threaded through a small monad. *)

From Stdlib Require Import ZArith Lia.
From Stdlib Require Import Floats.SpecFloat.
From stdpp Require Import gmap strings list sorting.

Local Open Scope Z_scope.

(** ** Exceptions *)

Inductive exn : Type :=
  | ValueError
  | IndexError
  | AxisError
  | OverflowError
  | FileNotFoundError
  | ImageFileError
  | SystemExit (status : Z).

Inductive result (A : Type) : Type :=
  | Ok (a : A)
  | Raise (e : exn).
Arguments Ok {A} a.
Arguments Raise {A} e.

(** An exception aborts what follows; [x ← r; k] is stdpp's bind notation. *)
#[global] Instance result_bind : MBind result := fun A B k r =>
  match r with
  | Ok a => k a
  | Raise e => Raise e
  end.
#[global] Instance result_ret : MRet result := fun A a => Ok a.

(** ** Arrays *)

(** A 2-D array is the list of its rows. *)
Abbreviation array2 A := (list (list A)).

(** A 3-D array carries its shape, as a numpy array does, so that arrays with
    an empty axis keep the extent of the others. *)
Record ndarray (A : Type) : Type := NdArray {
  shape : nat * nat * nat;
  elems : list (list (list A))
}.
Arguments NdArray {A} shape elems.
Arguments shape {A} n.
Arguments elems {A} n.

Definition dim0 (s : nat * nat * nat) : nat := s.1.1.
Definition dim1 (s : nat * nat * nat) : nat := s.1.2.
Definition dim2 (s : nat * nat * nat) : nat := s.2.

(** A 2-D array of shape [(n1, n2)]. *)
Definition rect {A} (n1 n2 : nat) (a : array2 A) : Prop :=
  length a = n1 ∧ Forall (fun row => length row = n2) a.

(** Nested lists of shape [s]. *)
Definition shaped {A} (s : nat * nat * nat) (e : list (list (list A))) : Prop :=
  length e = dim0 s ∧ Forall (rect (dim1 s) (dim2 s)) e.

(** [elems] agrees with [shape]. *)
Definition wf_array {A} (a : ndarray A) : Prop := shaped (shape a) (elems a).

(** [a[i, j, k]] *)
Definition get3 {A} (a : ndarray A) (i j k : nat) : option A :=
  plane ← elems a !! i; row ← plane !! j; row !! k.

(** [np.ones(shape, dtype='bool')] *)
Definition np_ones (s : nat * nat * nat) : ndarray bool :=
  NdArray s (replicate (dim0 s) (replicate (dim1 s) (replicate (dim2 s) true))).

(** [np.roll(l, shift)] on one axis: the element at [i] moves to
    [(i + shift) mod n]. *)
Definition np_roll {A} (shift : Z) (l : list A) : list A :=
  rotate (Z.to_nat ((- shift) `mod` Z.of_nat (length l))) l.

(** [np.roll(a, shift, 0)] and [np.roll(a, shift, 1)] on a 2-D array. *)
Definition np_roll0 {A} (shift : Z) (a : array2 A) : array2 A := np_roll shift a.
Definition np_roll1 {A} (shift : Z) (a : array2 A) : array2 A := fmap (M:=list) (np_roll shift) a.

(** Elementwise operations on 2-D arrays of equal shape. *)
Definition map2d {A B} (f : A → B) (a : array2 A) : array2 B := fmap (M:=list) (fmap (M:=list) f) a.
Definition zip2d {A B C} (f : A → B → C) (a : array2 A) (b : array2 B) : array2 C :=
  zip_with (zip_with f) a b.

(** ** edge_mask *)

(** [mask.any(axis=0)]: the OR over the first axis, starting from an
    all-False array of shape [(n1, n2)]. *)
Definition any_axis0 (mask : ndarray Z) : array2 bool :=
  foldr (fun plane acc => zip2d orb (map2d (fun v => negb (v =? 0)) plane) acc)
        (replicate (dim1 (shape mask)) (replicate (dim2 (shape mask)) false))
        (elems mask).

(** [4 * brain - np.roll(brain, 1, 0) - np.roll(brain, -1, 0)
               - np.roll(brain, 1, 1) - np.roll(brain, -1, 1) != 0],
    then [.astype('uint8')]. *)
Definition edge_values (brain : array2 bool) : array2 Z :=
  let b := map2d Z.b2z brain in
  zip2d Z.sub
    (zip2d Z.sub
       (zip2d Z.sub
          (zip2d Z.sub (map2d (Z.mul 4) b) (np_roll0 1 b))
          (np_roll0 (-1) b))
       (np_roll1 1 b))
    (np_roll1 (-1) b).

Definition edges (brain : array2 bool) : array2 bool :=
  map2d (fun v => negb (v =? 0)) (edge_values brain).

Definition edge_mask (mask : ndarray Z) : array2 Z :=
  let brain := any_axis0 mask in
  map2d Z.b2z (edges brain).

(** ** convex_hull *)

Definition point : Type := Z * Z.

(** [np.nonzero(brain)] stacked and transposed: the indices of the non-zero
    entries, in the row-major order in which numpy enumerates them. *)
Fixpoint nonzero_row (i j : Z) (row : list Z) : list point :=
  match row with
  | [] => []
  | v :: row' =>
      if v =? 0 then nonzero_row i (j + 1) row'
      else (i, j) :: nonzero_row i (j + 1) row'
  end.

Fixpoint nonzero_from (i : Z) (a : array2 Z) : list point :=
  match a with
  | [] => []
  | row :: a' => nonzero_row i 0 row ++ nonzero_from (i + 1) a'
  end.

Definition nonzero_points (brain : array2 Z) : list point := nonzero_from 0 brain.

(** [np.cross(a - o, b - o)] for 2-vectors. *)
Definition cross (o a b : point) : Z :=
  (a.1 - o.1) * (b.2 - o.2) - (a.2 - o.2) * (b.1 - o.1).

(** The list [lower] is used as a stack through [lower[-2]], [lower[-1]],
    [pop()] and [append()]; it is kept here with its last element first.

    [while len(lower) >= 2 and cross(lower[-2], lower[-1], p) <= 0:
         lower.pop()] *)
Fixpoint pop_while (lower : list point) (p : point) : list point :=
  match lower with
  | b :: ((a :: _) as lower') =>
      if cross a b p <=? 0 then pop_while lower' p else lower
  | _ => lower
  end.

(** The body of [for p in pts]. *)
Definition hull_step (lower : list point) (p : point) : list point :=
  p :: pop_while lower p.

(** The loop, and [lower] read back in Python's order. *)
Definition lower_hull (pts : list point) : list point :=
  reverse (foldl hull_step [] pts).

(** [np.array(lower).T]: a [(2, N)] array for [N >= 1]; for an empty list
    [np.array([])] has shape [(0,)] and so has its transpose. *)
Definition np_array_T (lower : list point) : array2 Z :=
  match lower with
  | [] => []
  | _ => [fst <$> lower; snd <$> lower]
  end.

Definition convex_hull (brain : array2 Z) : array2 Z :=
  let pts := nonzero_points brain in
  np_array_T (lower_hull pts).

(** ** flip_axes *)

(** [nb.orientations.flip_axis(data, axis)], i.e. [np.flip]; an axis that the
    array does not have raises. *)
Definition flip_axis {A} (data : ndarray A) (axis : nat) : result (ndarray A) :=
  match axis with
  | 0%nat => Ok (NdArray (shape data) (reverse (elems data)))
  | 1%nat => Ok (NdArray (shape data) (reverse <$> elems data))
  | 2%nat => Ok (NdArray (shape data) (fmap (M:=list) reverse <$> elems data))
  | _ => Raise AxisError
  end.

(** [np.nonzero(v)[0]] for a 1-D boolean array. *)
Fixpoint nonzero_from1 (i : nat) (v : list bool) : list nat :=
  match v with
  | [] => []
  | b :: v' => if b then i :: nonzero_from1 (S i) v' else nonzero_from1 (S i) v'
  end.

Definition nonzero1 (v : list bool) : list nat := nonzero_from1 0 v.

(** [for axis in np.nonzero(flips)[0]: data = flip_axis(data, axis)] *)
Definition flip_axes {A} (data : ndarray A) (flips : list bool) : result (ndarray A) :=
  foldl (fun acc axis => d ← acc; flip_axis d axis) (Ok data) (nonzero1 flips).

(** ** float64 *)

(** numpy's float64 is IEEE 754 binary64: [SpecFloat] at precision 53 and
    maximal exponent 1024, rounding to nearest even. *)
Definition float64 : Type := spec_float.
Definition prec : Z := 53.
Definition emax : Z := 1024.

(** Conversion of an integer to the nearest float64, as numpy does before
    it mixes an int64 with a float64. *)
Definition f64_of_int (z : Z) : float64 := binary_normalize prec emax z 0 false.

(** A Python int as the operand of a float64: the int is unbounded, and one
    that rounds beyond the largest float64 is not turned into an infinity
    but raises ([int too large to convert to float]). *)
Definition f64_of_pyint (z : Z) : result float64 :=
  match f64_of_int z with
  | S754_infinity _ => Raise OverflowError
  | y => Ok y
  end.
Definition f64_add : float64 → float64 → float64 := SFadd prec emax.
Definition f64_sub : float64 → float64 → float64 := SFsub prec emax.
Definition f64_mul : float64 → float64 → float64 := SFmul prec emax.
Definition f64_div : float64 → float64 → float64 := SFdiv prec emax.

(** [y > 0]; false on NaN. *)
Definition f64_gt0 (y : float64) : bool := SFltb (S754_zero false) y.

(** [y.astype(int)]: truncation toward zero.  What the cast gives on NaN, on
    an infinity and outside the int64 range is left open by C; x86-64 gives
    the smallest int64, which is what is modelled. *)
Definition INT64_MIN : Z := - 2 ^ 63.

Definition astype_int (y : float64) : Z :=
  match y with
  | S754_zero _ => 0
  | S754_finite s m e =>
      let mag := if 0 <=? e then Z.pos m * 2 ^ e else Z.pos m / 2 ^ (- e) in
      let t := if s then - mag else mag in
      if (INT64_MIN <=? t) && (t <? 2 ^ 63) then t else INT64_MIN
  | _ => INT64_MIN
  end.

(** ** The shearing line *)

(** [np.diff(low)]: differences along the last axis. *)
Definition diff1 (l : list Z) : list Z := zip_with Z.sub (tail l) l.
Definition np_diff (low : array2 Z) : array2 Z := diff1 <$> low.

(** [a, b = v]: unpacking into two names. *)
Definition unpack2 {A} (v : list A) : result (A * A) :=
  match v with
  | [a; b] => Ok (a, b)
  | _ => Raise ValueError
  end.

(** [v[i]] on a numpy array. *)
Definition index {A} (v : list A) (i : nat) : result A :=
  match v !! i with
  | Some a => Ok a
  | None => Raise IndexError
  end.

(** [[
    xdiffs, ydiffs = np.diff(low)
    slope = ydiffs[0] / xdiffs[0]
    yint = low[1][0] - (low[0][0] * slope) - buff
    ]]
    The entries of [low] are int64 indices; [buff] is a Python int, the last
    operand to be converted. *)
Definition shear_line (low : array2 Z) (buff : Z) : result (float64 * float64) :=
  '(xdiffs, ydiffs) ← unpack2 (np_diff low);
  yd ← index ydiffs 0;
  xd ← index xdiffs 0;
  let slope := f64_div (f64_of_int yd) (f64_of_int xd) in
  low1 ← index low 1;
  low10 ← index low1 0;
  low0 ← index low 0;
  low00 ← index low0 0;
  let above := f64_sub (f64_of_int low10) (f64_mul (f64_of_int low00) slope) in
  b ← f64_of_pyint buff;
  Ok (slope, f64_sub above b).

(** [ys = np.arange(0, n) * slope + yint] *)
Definition line_values (n : nat) (slope yint : float64) : list float64 :=
  (fun k => f64_add (f64_mul (f64_of_int k) slope) yint) <$> seqZ 0 (Z.of_nat n).

(** ** The keep-mask *)

(** Where the slice [:y] stops on an axis of length [n]. *)
Definition py_slice_stop (n : nat) (y : Z) : nat :=
  if y <? 0 then Z.to_nat (Z.of_nat n + y) else Z.to_nat (Z.min y (Z.of_nat n)).

Definition zero_prefix (stop : nat) (row : list bool) : list bool :=
  replicate (stop `min` length row) false ++ drop stop row.

(** [defaced_mask[:, x, :y] = 0]; an [x] outside the second axis raises. *)
Definition setitem_zero (dm : ndarray bool) (x : nat) (y : Z) : result (ndarray bool) :=
  if decide (x < dim1 (shape dm))%nat then
    Ok (NdArray (shape dm)
          (alter (zero_prefix (py_slice_stop (dim2 (shape dm)) y)) x <$> elems dm))
  else Raise IndexError.

(** [for x, y in pairs: defaced_mask[:, x, :y] = 0] *)
Fixpoint shear_loop (pairs : list (nat * Z)) (dm : ndarray bool) : result (ndarray bool) :=
  match pairs with
  | [] => Ok dm
  | (x, y) :: pairs' => dm' ← setitem_zero dm x y; shear_loop pairs' dm'
  end.

(** [zip(np.nonzero(ys > 0)[0], ys.astype(int))]: the positions where the
    line is positive, paired with the truncated line values read from the
    start of [ys]. *)
Definition shear_pairs (ys : list float64) : list (nat * Z) :=
  zip (nonzero1 (f64_gt0 <$> ys)) (astype_int <$> ys).

(** The rasterisation of a line into a keep-mask of the given shape. *)
Definition rasterize (s : nat * nat * nat) (ys : list float64) : result (ndarray bool) :=
  shear_loop (shear_pairs ys) (np_ones s).

(** The part of [quickshear] between the re-oriented mask and the keep-mask. *)
Definition defaced_mask (mask : ndarray Z) (buff : Z) : result (ndarray bool) :=
  let edgemask := edge_mask mask in
  let low := convex_hull edgemask in
  '(slope, yint) ← shear_line low buff;
  let ys := line_values (dim2 (shape mask)) slope yint in
  rasterize (shape mask) ys.

(** ** Broadcasting product *)

(** numpy's broadcasting rule for one axis. *)
Definition broadcast_dim (a b : nat) : option nat :=
  if decide (a = b) then Some a
  else if decide (a = 1%nat) then Some b
  else if decide (b = 1%nat) then Some a
  else None.

Definition broadcast_shape (s t : nat * nat * nat) : option (nat * nat * nat) :=
  r0 ← broadcast_dim (dim0 s) (dim0 t);
  r1 ← broadcast_dim (dim1 s) (dim1 t);
  r2 ← broadcast_dim (dim2 s) (dim2 t);
  Some (r0, r1, r2).

(** An axis of length one is stretched to length [n]. *)
Definition stretch {A} (n : nat) (l : list A) : list A :=
  match l with
  | [x] => replicate n x
  | _ => l
  end.

Definition broadcast_to {A} (s : nat * nat * nat) (l : list (list (list A))) :
    list (list (list A)) :=
  stretch (dim0 s) ((fun plane => stretch (dim1 s) (stretch (dim2 s) <$> plane)) <$> l).

(** [defaced_mask * anat]: a boolean times a number. *)
Definition mask_mul (keep : bool) (v : Z) : Z := if keep then v else 0.

Definition np_mul (dm : ndarray bool) (anat : ndarray Z) : result (ndarray Z) :=
  match broadcast_shape (shape dm) (shape anat) with
  | None => Raise ValueError
  | Some s =>
      Ok (NdArray s (zip_with (zip_with (zip_with mask_mul))
                       (broadcast_to s (elems dm)) (broadcast_to s (elems anat))))
  end.

(** ** Images, orientation, and the pipeline *)

Inductive level : Type := DEBUG | INFO | WARNING.

Section Quickshear.

(** nibabel's affine and header are opaque here; [aff2axcodes] is
    nibabel's, and [py_int] is Python's [int] on a string. *)
Variables affine_t header_t : Type.
Variable aff2axcodes : affine_t → string * string * string.
Variable py_int : string → option Z.

Record image : Type := Image {
  dataobj : ndarray Z;
  affine : affine_t;
  header : header_t
}.

Definition img_shape (img : image) : nat * nat * nat := shape (dataobj img).

(** [[
    axes = nb.orientations.aff2axcodes(img.affine)
    data = img.get_data()
    flips = np.array(axes) != np.array((hemi, 'P', 'S'))
    return flip_axes(data, flips), flips
    ]] *)
Definition orient_xPS (img : image) (hemi : string) : result (ndarray Z * list bool) :=
  let '(a0, a1, a2) := aff2axcodes (affine img) in
  let data := dataobj img in
  let flips := [bool_decide (a0 ≠ hemi); bool_decide (a1 ≠ "P"); bool_decide (a2 ≠ "S")] in
  data' ← flip_axes data flips;
  Ok (data', flips).

Definition quickshear (anat_img mask_img : image) (buff : Z) : result image :=
  '(anat, anat_flip) ← orient_xPS anat_img "R";
  '(mask, mask_flip) ← orient_xPS mask_img "R";
  dm ← defaced_mask mask buff;
  prod ← np_mul dm anat;
  out ← flip_axes prod anat_flip;
  Ok (Image out (affine anat_img) (header anat_img)).

(** The files on disk and what the logger has emitted. *)
Record world : Type := World {
  files : gmap string image;
  logged : list (level * string)
}.

Definition nb_load (filename : string) (w : world) : result image :=
  match files w !! filename with
  | Some img => Ok img
  | None => Raise FileNotFoundError
  end.

(** nibabel's mapping of a file name to the files of an image of a given
    class ([filespec_to_file_map]): the name itself for a single-file
    NIfTI, the header and the image file for a pair, and so on; [None]
    when the name does not suit the class. *)
Variable file_names : image → string → option (list string).

Definition write_files (names : list string) (img : image)
    (fs : gmap string image) : gmap string image :=
  foldr (fun name acc => <[name := img]> acc) fs names.

(** [img.to_filename(filename)]: a name that cannot be mapped raises before
    anything is written; otherwise every file of the image is written. *)
Definition to_filename (img : image) (filename : string) (w : world) : result world :=
  match file_names img filename with
  | None => Raise ImageFileError
  | Some names => Ok (World (write_files names img (files w)) (logged w))
  end.

Definition log (l : level) (msg : string) (w : world) : world :=
  World (files w) (logged w ++ [(l, msg)]).

Definition default_buff : Z := 10.

(** [deface] as the script runs it: [logger] is the module-level name that
    the main block binds before it calls [deface]. *)
Definition deface (anat_filename mask_filename defaced_filename : string)
    (buff : Z) (w : world) : result unit * world :=
  match nb_load anat_filename w with
  | Raise e => (Raise e, w)
  | Ok anat_img =>
    match nb_load mask_filename w with
    | Raise e => (Raise e, w)
    | Ok mask_img =>
      if decide (img_shape anat_img ≠ img_shape mask_img) then
        (Raise (SystemExit (-1)),
         log WARNING "Anatomical and mask images do not have the same dimensions." w)
      else
        match quickshear anat_img mask_img buff with
        | Raise e => (Raise e, w)
        | Ok new_anat =>
            match to_filename new_anat defaced_filename w with
            | Raise e => (Raise e, w)
            | Ok w' => (Ok (), log INFO ("Defaced file: " +:+ defaced_filename) w')
            end
        end
    end
  end.

Definition arg (argv : list string) (i : nat) : string := default "" (argv !! i).

Definition main (argv : list string) (w : world) : result unit * world :=
  if decide (length argv < 4)%nat then
    (Raise (SystemExit (-1)),
     log DEBUG "Usage: quickshear.py anat_file strip_file defaced_file [buffer]" w)
  else
    let anatfile := arg argv 1 in
    let stripfile := arg argv 2 in
    let newfile := arg argv 3 in
    if decide (5 ≤ length argv)%nat then
      match py_int (arg argv 4) with
      | None => (Raise ValueError, w)
      | Some buff =>
          match deface anatfile stripfile newfile buff w with
          | (Raise e, w') => (Raise e, w')
          | (Ok _, w') => deface anatfile stripfile newfile default_buff w'
          end
      end
    else deface anatfile stripfile newfile default_buff w.

(** The status the process ends with. *)
Definition exit_status (r : result unit) : Z :=
  match r with
  | Ok _ => 0
  | Raise (SystemExit c) => c `mod` 256
  | Raise _ => 1
  end.

End Quickshear.

Arguments Image {affine_t header_t} dataobj affine header.
Arguments dataobj {affine_t header_t} i.
Arguments affine {affine_t header_t} i.
Arguments header {affine_t header_t} i.
Arguments img_shape {affine_t header_t} img.
Arguments orient_xPS {affine_t header_t} aff2axcodes img hemi.
Arguments quickshear {affine_t header_t} aff2axcodes anat_img mask_img buff.
Arguments World {affine_t header_t} files logged.
Arguments files {affine_t header_t} w.
Arguments logged {affine_t header_t} w.
Arguments nb_load {affine_t header_t} filename w.
Arguments write_files {affine_t header_t} names img fs.
Arguments to_filename {affine_t header_t} file_names img filename w.
Arguments log {affine_t header_t} l msg w.
Arguments deface {affine_t header_t} aff2axcodes file_names
  anat_filename mask_filename defaced_filename buff w.
Arguments main {affine_t header_t} aff2axcodes py_int file_names argv w.

(** ** Specification vocabulary *)

(** *** Planar geometry *)

(** Lexicographic order on points: first coordinate, then second. *)
Definition lex_lt (p q : point) : Prop := p.1 < q.1 ∨ (p.1 = q.1 ∧ p.2 < q.2).
Definition lex_le (p q : point) : Prop := lex_lt p q ∨ p = q.

Definition vsub (a b : point) : point := (a.1 - b.1, a.2 - b.2).
Definition vcross (u v : point) : Z := u.1 * v.2 - u.2 * v.1.

(** Directions pointing rightwards, or straight up. *)
Definition lexpos (u : point) : Prop := 0 < u.1 ∨ (u.1 = 0 ∧ 0 < u.2).

(** The stack of [convex_hull] turns strictly left at every vertex. *)
Fixpoint convex_chain (s : list point) : Prop :=
  match s with
  | [] => True
  | c :: s' =>
      match s' with
      | b :: a :: _ => 0 < cross a b c
      | _ => True
      end ∧ convex_chain s'
  end.

(** The stack decreases from its top. *)
Definition desc (s : list point) : Prop := StronglySorted (flip lex_lt) s.

(** [q] lies between [a] and [b] in the sweep order, on or to the left of
    the edge from [a] to [b]. *)
Definition in_slab (a b q : point) : Prop :=
  lex_le a q ∧ lex_le q b ∧ 0 ≤ cross a b q.

(** Every point swept so far is a vertex of the stack or sits in the slab of
    one of its edges. *)
Definition covered (s : list point) (q : point) : Prop :=
  q ∈ s ∨ ∃ l1 b a l2, s = l1 ++ b :: a :: l2 ∧ in_slab a b q.

(** The same while the stack is being popped for the incoming point [p]. *)
Definition covered_below (s : list point) (p q : point) : Prop :=
  covered s q ∨ ∃ t s', s = t :: s' ∧ in_slab t p q.

Record hull_inv (Q s : list point) : Prop := HullInv {
  inv_desc : desc s;
  inv_convex : convex_chain s;
  inv_covered : ∀ q, q ∈ Q → covered s q;
  inv_sublist : reverse s `sublist_of` Q;
  inv_top : head s = last Q;
  inv_bottom : last s = head Q
}.

(** [h] is the lower hull of the points [pts], read from left to right. *)
Record is_lower_hull (pts h : list point) : Prop := IsLowerHull {
  (** the vertices are points of the set, in their order *)
  hull_sublist : h `sublist_of` pts;
  (** left to right, ties by the second coordinate *)
  hull_sorted : StronglySorted lex_lt h;
  (** from the least to the greatest point of the set *)
  hull_first : head h = head pts;
  hull_last : last h = last pts;
  (** every vertex is a strict left turn *)
  hull_strict : ∀ l1 a b c l2, h = l1 ++ a :: b :: c :: l2 → 0 < cross a b c;
  (** no point of the set lies to the right of an edge *)
  hull_below : ∀ l1 a b l2 q, h = l1 ++ a :: b :: l2 → q ∈ pts → 0 ≤ cross a b q;
  (** an edge carries no vertex besides its two ends *)
  hull_no_collinear : ∀ l1 a b l2 v,
    h = l1 ++ a :: b :: l2 → v ∈ h → v ≠ a → v ≠ b → 0 < cross a b v
}.

(** *** Arrays *)

(** [a[i, j]] *)
Definition get2 {A} (a : array2 A) (i j : nat) : option A :=
  row ← a !! i; row !! j.

(** The nested lists after the flips [b0], [b1], [b2] of the three axes. *)
Definition flip_elems {A} (b0 b1 b2 : bool) (e : list (list (list A))) :
    list (list (list A)) :=
  (if b2 then fmap (fmap (M:=list) reverse) else id)
    ((if b1 then fmap reverse else id) ((if b0 then reverse else id) e)).

(** Elementwise combination of 3-D nested lists. *)
Definition zip3d {A B C} (f : A → B → C) (a : list (list (list A)))
    (b : list (list (list B))) : list (list (list C)) :=
  zip_with (zip_with (zip_with f)) a b.

(** The silhouette read as a number at integer indices. *)
Definition pixel (brain : array2 bool) (i j : Z) : Z :=
  Z.b2z (default false (get2 brain (Z.to_nat i) (Z.to_nat j))).

(** *** The keep-mask *)

(** The pair [(x, y)] of the loop zeroes the voxel [(_, j, k)]. *)
Definition hit (n2 : nat) (xy : nat * Z) (j k : nat) : bool :=
  bool_decide (j = xy.1) && bool_decide (k < py_slice_stop n2 xy.2)%nat.

(** The line value at second-axis index [j] is positive and the third-axis
    index [k] lies before its truncation. *)
Definition zeroed_at (n2 : nat) (ys : list float64) (j k : nat) : bool :=
  match ys !! j with
  | Some y => f64_gt0 y && bool_decide (k < py_slice_stop n2 (astype_int y))%nat
  | None => false
  end.

(** The positions where the line is positive are [0, 1, ..., m - 1]. *)
Definition positive_prefix (ys : list float64) : Prop :=
  ∀ j j' y y', (j ≤ j')%nat → ys !! j = Some y → ys !! j' = Some y' →
               f64_gt0 y' = true → f64_gt0 y = true.

(** The positions where the line is positive index the second axis. *)
Definition positive_in_axis (n1 : nat) (ys : list float64) : Prop :=
  ∀ j y, ys !! j = Some y → f64_gt0 y = true → (j < n1)%nat.

(** The line value at position [p]: [p * slope + yint]. *)
Definition line_at (slope yint : float64) (p : nat) : float64 :=
  f64_add (f64_mul (f64_of_int (Z.of_nat p)) slope) yint.

(** Number of voxels set to False in a keep-mask. *)
Definition count_false (row : list bool) : nat := length (filter (fun b => b = false) row).
Definition count_zeroed (km : ndarray bool) : nat :=
  sum_list ((fun plane => sum_list (count_false <$> plane)) <$> elems km).

(** *** float64 *)

(** NaN, or the infinity of sign [s]. *)
Definition nan_or_inf (s : bool) (y : float64) : Prop :=
  y = S754_nan ∨ y = S754_infinity s.

(** Any value whose sign, when it has one, is [s]. *)
Definition signed (s : bool) (y : float64) : Prop :=
  y = S754_zero s ∨ (∃ m e, y = S754_finite s m e) ∨ y = S754_infinity s ∨ y = S754_nan.

(** The slope and intercept of the leading hull segment, from the hull
    points themselves. *)
Definition segment_slope (p0 p1 : point) : float64 :=
  f64_div (f64_of_int (p1.2 - p0.2)) (f64_of_int (p1.1 - p0.1)).

Definition segment_intercept (p0 p1 : point) (buff : Z) : float64 :=
  f64_sub (f64_sub (f64_of_int p0.2) (f64_mul (f64_of_int p0.1) (segment_slope p0 p1)))
          (f64_of_int buff).

(** The least magnitude of a Python int that no float64 is near enough to:
    halfway between the largest float64 and [2 ^ emax]. *)
Definition pyint_limit : Z := 2 ^ emax - 2 ^ (emax - prec - 1).

(** The intercept as the specification words it, from the second hull
    point's second coordinate. *)
Definition spec_intercept (p0 p1 : point) (buff : Z) : float64 :=
  f64_sub (f64_sub (f64_of_int p1.2) (f64_mul (f64_of_int p0.1) (segment_slope p0 p1)))
          (f64_of_int buff).

(** *** The values of float64 numbers

    A finite binary64 number is a whole number of units of [2 ^ f_emin],
    the spacing of the subnormals; rounding and the four results of an
    operation (NaN, the two infinities, a finite value) are described on
    whole numbers of units. *)

Definition f_emin : Z := 3 - emax - prec.
Definition f_fexp (e : Z) : Z := Z.max (e - prec) f_emin.

(** Floats that are values of the format: a finite one has at most [prec]
    bits over an exponent between [f_emin] and [emax - prec]. *)
Definition repr (f : spec_float) : Prop :=
  match f with
  | S754_finite _ m e => Zdigits2 (Z.pos m) ≤ prec ∧ f_emin ≤ e ≤ emax - prec
  | _ => True
  end.

(** [x / 2 ^ n] rounded to the nearest integer, ties to even. *)
Definition rne (n x : Z) : Z :=
  let h := x / 2 ^ (n - 1) in
  let q := h / 2 in
  if Z.odd h then
    if x mod 2 ^ (n - 1) =? 0 then (if Z.even q then q else q + 1) else q + 1
  else q.

(** The number of low bits a positive number of units loses to fit in
    [prec] bits, and the number of units it is rounded to. *)
Definition nsh (X : Z) : Z := Z.max (Zdigits2 X - prec) 0.
Definition round_units (X : Z) : Z :=
  if nsh X =? 0 then X else rne (nsh X) X * 2 ^ nsh X.

(** [2 ^ emax], in units: a rounded value this large is an infinity. *)
Definition overflow_units : Z := 2 ^ (emax - f_emin).

(** [f] is the float of sign [s] for the rounded magnitude [V]. *)
Definition rounds_to (s : bool) (V : Z) (f : spec_float) : Prop :=
  (V < overflow_units ∧
   ∃ m e, f = S754_finite s m e ∧ f_emin ≤ e ≤ emax - prec ∧
          Zdigits2 (Z.pos m) ≤ prec ∧ Z.pos m * 2 ^ (e - f_emin) = V) ∨
  (overflow_units ≤ V ∧ f = S754_infinity s).

(** NaN, minus infinity, a finite number of units, plus infinity. *)
Inductive xval := XNaN | XNeg | XFin (v : Z) | XPos.

Definition units (s : bool) (m : positive) (e : Z) : Z :=
  cond_Zopp s (Z.pos m * 2 ^ (e - f_emin)).

Definition sem (f : spec_float) : xval :=
  match f with
  | S754_nan => XNaN
  | S754_infinity s => if s then XNeg else XPos
  | S754_zero _ => XFin 0
  | S754_finite s m e => XFin (units s m e)
  end.

Definition round_signed (v : Z) : Z := Z.sgn v * round_units (Z.abs v).

Definition clamp (V : Z) : xval :=
  if overflow_units <=? V then XPos
  else if V <=? - overflow_units then XNeg
  else XFin V.

Definition xneg (u : xval) : xval :=
  match u with
  | XNaN => XNaN
  | XNeg => XPos
  | XPos => XNeg
  | XFin v => XFin (- v)
  end.

Definition xadd (a b : xval) : xval :=
  match a, b with
  | XNaN, _ | _, XNaN => XNaN
  | XPos, XNeg | XNeg, XPos => XNaN
  | XPos, _ | _, XPos => XPos
  | XNeg, _ | _, XNeg => XNeg
  | XFin v, XFin w => clamp (round_signed (v + w))
  end.

(** [u'] is no larger than [u], as far as the tests on a line value see. *)
Definition xle (u' u : xval) : Prop :=
  u' = XNaN ∨ u' = XNeg ∨ u = XPos ∨ ∃ v' v, u' = XFin v' ∧ u = XFin v ∧ v' ≤ v.

Definition xpos (u : xval) : Prop := u = XPos ∨ ∃ v, u = XFin v ∧ 0 < v.

(** *** Sample volumes *)

(** A mask of shape [(1, 4, 6)] whose sagittal profile has its lower hull
    start with the segment from [(0, 4)] to [(1, 2)]. *)
Definition sample_mask : ndarray Z :=
  NdArray (1, 4, 6)%nat
    [[[0; 0; 0; 0; 0; 0];
      [0; 0; 0; 0; 1; 0];
      [0; 0; 1; 1; 1; 0];
      [0; 0; 0; 0; 0; 0]]].

Definition sample_anat : ndarray Z :=
  NdArray (1, 4, 6)%nat
    [[[11; 12; 13; 14; 15; 16];
      [21; 22; 23; 24; 25; 26];
      [31; 32; 33; 34; 35; 36];
      [41; 42; 43; 44; 45; 46]]].

(** A mask of shape [(1, 6, 4)], whose second axis is the longer one. *)
Definition wide_mask : ndarray Z :=
  NdArray (1, 6, 4)%nat
    [[[0; 0; 0; 0];
      [0; 0; 0; 1];
      [0; 1; 1; 1];
      [0; 0; 0; 0];
      [0; 0; 0; 0];
      [0; 0; 0; 0]]].

(** A single coronal slice: all edge points share their first coordinate. *)
Definition slice_mask : ndarray Z := NdArray (1, 1, 4)%nat [[[0; 1; 1; 0]]].
Definition slice_anat : ndarray Z := NdArray (1, 1, 4)%nat [[[5; 6; 7; 8]]].

(** A mask on another grid than [sample_anat]. *)
Definition other_mask : ndarray Z :=
  NdArray (1, 4, 3)%nat [[[0; 0; 0]; [0; 1; 0]; [0; 1; 0]; [0; 0; 0]]].

(** Images whose affine is given by its axis codes. *)
Definition axcodes : Type := string * string * string.
Definition sample_aff2axcodes (a : axcodes) : axcodes := a.
Definition sample_py_int (s : string) : option Z :=
  if String.eqb s "5" then Some 5 else if String.eqb s "0" then Some 0 else None.

(** nibabel's naming of the files of the samples, single-file NIfTI images:
    a name ending in [.nii] is the file itself, a name without an extension
    gets [.nii] appended, and a name with another extension is refused. *)
Definition ends_with (suffix s : string) : bool :=
  String.eqb
    (String.substring (String.length s - String.length suffix)%nat (String.length suffix) s)
    suffix.
Definition has_dot (s : string) : bool :=
  match String.index 0 "." s with Some _ => true | None => false end.
Definition sample_file_names (img : image axcodes unit) (name : string) :
    option (list string) :=
  if ends_with ".nii" name then Some [name]
  else if has_dot name then None
  else Some [name +:+ ".nii"].

Definition anat_img0 : image axcodes unit := Image sample_anat ("R", "P", "S") ().
Definition mask_img0 : image axcodes unit := Image sample_mask ("R", "P", "S") ().
Definition anat_img1 : image axcodes unit := Image slice_anat ("L", "P", "I") ().
Definition mask_img1 : image axcodes unit := Image slice_mask ("L", "P", "I") ().
Definition mask_img2 : image axcodes unit := Image other_mask ("R", "P", "S") ().

Definition world0 : world axcodes unit :=
  World (<["anat.nii" := anat_img0]> (<["mask.nii" := mask_img0]> ∅)) [].
Definition world1 : world axcodes unit :=
  World (<["anat.nii" := anat_img1]> (<["mask.nii" := mask_img1]> ∅)) [].
Definition world2 : world axcodes unit :=
  World (<["anat.nii" := anat_img0]> (<["mask.nii" := mask_img2]> ∅)) [].

Definition argv4 : list string := ["quickshear.py"; "anat.nii"; "mask.nii"; "out.nii"].
Definition argv5 : list string := ["quickshear.py"; "anat.nii"; "mask.nii"; "out.nii"; "0"].
(** The output written over the anatomical input. *)
Definition argv_inplace : list string :=
  ["quickshear.py"; "anat.nii"; "mask.nii"; "anat.nii"; "0"].


(** A silhouette with a square blob, for the edge filter. *)
Definition sample_brain : array2 bool :=
  [[false; false; false; false];
   [false; true; true; false];
   [false; true; true; false];
   [false; false; false; false]].

(** *** The claims as the specification words them *)

(** C1 reads the line along the third axis and zeroes along the second:
    the voxel [(_, j, k)] is zeroed when the line value at position [k] is
    positive and [j] lies in [[0, y)]. *)
Definition spec_zeroed (slope yint : float64) (j k : nat) : bool :=
  f64_gt0 (line_at slope yint k)
  && SFltb (f64_of_int (Z.of_nat j)) (line_at slope yint k).


(** The hull has fewer than two points, or its leading segment has zero run. *)
Definition degenerate (h : list point) : Prop :=
  (length h < 2)%nat ∨ ∃ p0 p1 rest, h = p0 :: p1 :: rest ∧ p0.1 = p1.1.

(** *** Vocabulary of the further properties *)

(** The silhouette at integer indices. *)
Definition lit (brain : array2 bool) (i j : Z) : bool :=
  default false (get2 brain (Z.to_nat i) (Z.to_nat j)).

(** One of the four neighbours of [(i, j)] on the torus of shape [(n1, n2)]
    has another value than [(i, j)] itself. *)
Definition differs_from_neighbour (n1 n2 : nat) (brain : array2 bool) (i j : nat) : bool :=
  let s := lit brain (Z.of_nat i) (Z.of_nat j) in
  xorb s (lit brain ((Z.of_nat i - 1) `mod` Z.of_nat n1) (Z.of_nat j))
  || xorb s (lit brain ((Z.of_nat i + 1) `mod` Z.of_nat n1) (Z.of_nat j))
  || xorb s (lit brain (Z.of_nat i) ((Z.of_nat j - 1) `mod` Z.of_nat n2))
  || xorb s (lit brain (Z.of_nat i) ((Z.of_nat j + 1) `mod` Z.of_nat n2)).

(** Which voxels of a volume are non-zero. *)
Definition nonzero_pattern (e : list (list (list Z))) : list (list (list bool)) :=
  map2d (fun v => negb (v =? 0)) <$> e.

(** The OR of a list of silhouettes, as [any_axis0] folds it. *)
Definition any_planes (n1 n2 : nat) (planes : list (array2 bool)) : array2 bool :=
  foldr (zip2d orb) (replicate n1 (replicate n2 false)) planes.

(** The index that a flip of an axis of length [n] brings to [i]. *)
Definition mirror (b : bool) (n i : nat) : nat := if b then (n - 1 - i)%nat else i.

(** *** Further sample volumes *)

(** The sample mask as a masked image: intensities in place of ones. *)
Definition intensity_mask : ndarray Z :=
  NdArray (1, 4, 6)%nat
    [[[0; 0; 0; 0; 0; 0];
      [0; 0; 0; 0; 7; 0];
      [0; 0; 250; 12; 3; 0];
      [0; 0; 0; 0; 0; 0]]].

(** A mask without a voxel. *)
Definition zero_mask : ndarray Z :=
  NdArray (1, 4, 6)%nat
    [[[0; 0; 0; 0; 0; 0];
      [0; 0; 0; 0; 0; 0];
      [0; 0; 0; 0; 0; 0];
      [0; 0; 0; 0; 0; 0]]].

(** The sample mask spread over two sagittal planes. *)
Definition two_plane_mask : ndarray Z :=
  NdArray (2, 4, 6)%nat
    [[[0; 0; 0; 0; 0; 0];
      [0; 0; 0; 0; 1; 0];
      [0; 0; 0; 0; 0; 0];
      [0; 0; 0; 0; 0; 0]];
     [[0; 0; 0; 0; 0; 0];
      [0; 0; 0; 0; 0; 0];
      [0; 0; 1; 1; 1; 0];
      [0; 0; 0; 0; 0; 0]]].

(** A single voxel in the first coronal slice: the hull of its edge map is
    [(0, 0)], [(3, 1)], a rising leading segment. *)
Definition corner_mask : ndarray Z :=
  NdArray (1, 4, 4)%nat [[[0; 1; 0; 0]; [0; 0; 0; 0]; [0; 0; 0; 0]; [0; 0; 0; 0]]].

Definition intensity_img0 : image axcodes unit := Image intensity_mask ("R", "P", "S") ().
Definition zero_img0 : image axcodes unit := Image zero_mask ("R", "P", "S") ().
Definition anat_img_lps : image axcodes unit := Image sample_anat ("L", "P", "S") ().

(** nibabel's naming of the files of the samples taken as header and image
    pairs: a name ending in [.hdr] or [.img], or one without an extension,
    stands for the two files; a name with another extension is refused. *)
Definition stem (s : string) : string := String.substring 0 (String.length s - 4)%nat s.
Definition pair_file_names (img : image axcodes unit) (name : string) :
    option (list string) :=
  if ends_with ".hdr" name || ends_with ".img" name
  then Some [stem name +:+ ".hdr"; stem name +:+ ".img"]
  else if has_dot name then None
  else Some [name +:+ ".hdr"; name +:+ ".img"].

Definition world_no_mask : world axcodes unit :=
  World (<["anat.nii" := anat_img0]> ∅) [].
Definition argv2 : list string := ["quickshear.py"; "anat.nii"].
Definition argv5_bad : list string :=
  ["quickshear.py"; "anat.nii"; "mask.nii"; "out.nii"; "ten"].
Definition argv6 : list string :=
  ["quickshear.py"; "anat.nii"; "mask.nii"; "out.nii"; "0"; "verbose"].
Definition argv_pair : list string := ["quickshear.py"; "anat.nii"; "mask.nii"; "out.img"].
Definition argv_txt : list string := ["quickshear.py"; "anat.nii"; "mask.nii"; "out.txt"].

(** * Properties *)

(** ** Planar geometry *)

Lemma cross_swap o a b : cross o a b = - cross o b a.
Proof. unfold cross. ring. Qed.

Lemma cross_vcross o a b : cross o a b = vcross (vsub a o) (vsub b o).
Proof. reflexivity. Qed.

Lemma lex_lt_trans p q r : lex_lt p q → lex_lt q r → lex_lt p r.
Proof. unfold lex_lt. lia. Qed.

Lemma lex_le_lt_trans p q r : lex_le p q → lex_lt q r → lex_lt p r.
Proof. intros [H| ->] ?; eauto using lex_lt_trans. Qed.

Lemma lex_lt_le_trans p q r : lex_lt p q → lex_le q r → lex_lt p r.
Proof. intros ? [H| <-]; eauto using lex_lt_trans. Qed.

Lemma lex_le_inv (p q : point) : lex_le p q → p.1 < q.1 ∨ (p.1 = q.1 ∧ p.2 ≤ q.2).
Proof. intros [H| ->]; unfold lex_lt in *; lia. Qed.

Lemma lex_lt_lexpos a b : lex_lt a b → lexpos (vsub b a).
Proof. unfold lex_lt, lexpos, vsub; simpl. lia. Qed.

(** Among directions that point rightwards, turning left is transitive. *)
Lemma vcross_trans u v w :
  lexpos u → lexpos v → lexpos w → 0 < vcross u v → 0 < vcross v w → 0 < vcross u w.
Proof.
  unfold lexpos, vcross. destruct u as [ux uy], v as [vx vy], w as [wx wy]; simpl.
  intros Hu Hv Hw H1 H2.
  assert (E : (ux * wy - uy * wx) * vx
            = (vx * wy - vy * wx) * ux + (ux * vy - uy * vx) * wx) by ring.
  destruct (decide (vx = 0)) as [->|Hne].
  - nia.
  - assert (0 < vx) by lia. assert (0 ≤ ux) by lia. assert (0 ≤ wx) by lia.
    destruct (decide (ux = 0)) as [->|]; [nia|].
    assert (0 < (ux * wy - uy * wx) * vx) by nia. nia.
Qed.

(** A point in the slab of the edge that is popped stays on the left of the
    segment from the new top to the incoming point. *)
Lemma turn_slab_popped a b p q :
  lex_lt a b → lex_le a q → lex_le q b → lex_lt b p →
  0 ≤ cross a b q → cross a b p ≤ 0 → 0 ≤ cross a p q.
Proof.
  intros Hab Haq Hqb Hbp.
  apply lex_le_inv in Haq, Hqb. unfold lex_lt in *.
  destruct a as [ax ay], b as [bx by_], p as [px py], q as [qx qy];
    unfold cross; simpl in *.
  intros H1 H2.
  assert (E : (bx - ax) * ((px - ax) * (qy - ay) - (py - ay) * (qx - ax))
           = (px - ax) * ((bx - ax) * (qy - ay) - (by_ - ay) * (qx - ax))
             - (qx - ax) * ((bx - ax) * (py - ay) - (by_ - ay) * (px - ax))) by ring.
  destruct (decide (bx = ax)) as [->|Hne].
  - assert (qx = ax) by lia. subst qx. nia.
  - assert (0 < bx - ax) by lia. nia.
Qed.

(** The same for a point that was left of the segment from the popped
    vertex to the incoming point. *)
Lemma turn_top_popped a b p q :
  lex_lt a b → lex_le b q → lex_le q p → lex_lt b p →
  cross a b p ≤ 0 → 0 ≤ cross b p q → 0 ≤ cross a p q.
Proof.
  intros Hab Hbq Hqp Hbp.
  apply lex_le_inv in Hbq, Hqp. unfold lex_lt in *.
  destruct a as [ax ay], b as [bx by_], p as [px py], q as [qx qy];
    unfold cross; simpl in *.
  intros H1 H2.
  assert (E : (px - bx) * ((px - ax) * (qy - ay) - (py - ay) * (qx - ax))
           = (px - qx) * - ((bx - ax) * (py - ay) - (by_ - ay) * (px - ax))
             + (px - ax) * ((px - bx) * (qy - by_) - (py - by_) * (qx - bx))) by ring.
  destruct (decide (px = bx)) as [->|Hne].
  - assert (qx = bx) by lia. subst qx. nia.
  - assert (0 < px - bx) by lia. nia.
Qed.

(** A point above an edge [a' b'] inside its slab is on the left of any
    rightward edge [a b] that has both [a'] and [b'] on its left. *)
Lemma slab_above_edge a b a' b' q :
  lex_lt a b → lex_le a' q → lex_le q b' →
  0 ≤ cross a b a' → 0 ≤ cross a b b' → 0 ≤ cross a' b' q → 0 ≤ cross a b q.
Proof.
  intros Hab Haq Hqb. apply lex_le_inv in Haq, Hqb. unfold lex_lt in *.
  destruct a as [ax ay], b as [bx by_], a' as [cx cy], b' as [dx dy], q as [qx qy];
    unfold cross; simpl in *.
  intros H1 H2 H3.
  destruct (decide (dx = cx)) as [->|Hne].
  - assert (qx = cx) by lia. subst qx.
    assert (E : (dy - cy) * ((bx - ax) * (qy - ay) - (by_ - ay) * (cx - ax))
              = (dy - qy) * ((bx - ax) * (cy - ay) - (by_ - ay) * (cx - ax))
                + (qy - cy) * ((bx - ax) * (dy - ay) - (by_ - ay) * (cx - ax))) by ring.
    destruct (decide (dy = cy)) as [->|]; [assert (qy = cy) by lia; subst; lia|].
    assert (0 < dy - cy) by lia. nia.
  - assert (E : (dx - cx) * ((bx - ax) * (qy - ay) - (by_ - ay) * (qx - ax))
              = (dx - qx) * ((bx - ax) * (cy - ay) - (by_ - ay) * (cx - ax))
                + (qx - cx) * ((bx - ax) * (dy - ay) - (by_ - ay) * (dx - ax))
                + (bx - ax) * ((dx - cx) * (qy - cy) - (dy - cy) * (qx - cx))) by ring.
    assert (0 < dx - cx) by lia. nia.
Qed.

(** ** The points handed to the sweep are sorted *)

Lemma nonzero_row_spec i j row p :
  p ∈ nonzero_row i j row ↔
  ∃ k v, row !! k = Some v ∧ v ≠ 0 ∧ p = (i, j + Z.of_nat k).
Proof.
  revert j. induction row as [|v row IH]; intros j; simpl.
  - split; [by intros ?%elem_of_nil|]. by intros (k & w & ? & _).
  - destruct (Z.eqb_spec v 0) as [->|Hv].
    + rewrite IH. split.
      * intros (k & w & Hk & Hw & ->). exists (S k), w. split_and!; [done..|f_equal; lia].
      * intros ([|k] & w & Hk & Hw & ->); simplify_eq/=.
        exists k, w. split_and!; [done..|f_equal; lia].
    + rewrite elem_of_cons, IH. split.
      * intros [->|(k & w & Hk & Hw & ->)].
        -- exists 0%nat, v. split_and!; [done..|f_equal; lia].
        -- exists (S k), w. split_and!; [done..|f_equal; lia].
      * intros ([|k] & w & Hk & Hw & ->); simplify_eq/=.
        -- left. f_equal; lia.
        -- right. exists k, w. split_and!; [done..|f_equal; lia].
Qed.

Lemma nonzero_from_spec i a p :
  p ∈ nonzero_from i a ↔
  ∃ r k row v, a !! r = Some row ∧ row !! k = Some v ∧ v ≠ 0 ∧
               p = (i + Z.of_nat r, Z.of_nat k).
Proof.
  revert i. induction a as [|row a IH]; intros i; simpl.
  - split; [by intros ?%elem_of_nil|]. by intros (r & k & ? & ? & ? & _).
  - rewrite elem_of_app, nonzero_row_spec, IH. split.
    + intros [(k & v & Hk & Hv & ->)|(r & k & row' & v & Hr & Hk & Hv & ->)].
      * exists 0%nat, k, row, v. split_and!; [done..|f_equal; lia].
      * exists (S r), k, row', v. split_and!; [done..|f_equal; lia].
    + intros ([|r] & k & row' & v & Hr & Hk & Hv & ->); simplify_eq/=.
      * left. exists k, v. split_and!; [done..|f_equal; lia].
      * right. exists r, k, row', v. split_and!; [done..|f_equal; lia].
Qed.

Lemma nonzero_row_sorted i j row : StronglySorted lex_lt (nonzero_row i j row).
Proof.
  revert j. induction row as [|v row IH]; intros j; simpl; [constructor|].
  destruct (v =? 0); [done|].
  constructor; [done|]. apply Forall_forall. intros p.
  rewrite nonzero_row_spec. intros (k & w & _ & _ & ->). right. simpl. lia.
Qed.

Lemma nonzero_from_sorted i a : StronglySorted lex_lt (nonzero_from i a).
Proof.
  revert i. induction a as [|row a IH]; intros i; simpl; [constructor|].
  apply StronglySorted_app_2; [|apply nonzero_row_sorted|done].
  intros p q. rewrite nonzero_row_spec, nonzero_from_spec.
  intros (k & v & _ & _ & ->) (r & k' & ? & ? & _ & _ & _ & ->). left. simpl. lia.
Qed.

(** [np.nonzero] enumerates exactly the non-zero entries. *)
Lemma nonzero_points_spec brain p :
  p ∈ nonzero_points brain ↔
  ∃ r k row v, brain !! r = Some row ∧ row !! k = Some v ∧ v ≠ 0 ∧
               p = (Z.of_nat r, Z.of_nat k).
Proof. unfold nonzero_points. by rewrite nonzero_from_spec. Qed.

Lemma nonzero_points_sorted brain : StronglySorted lex_lt (nonzero_points brain).
Proof. apply nonzero_from_sorted. Qed.

(** ** The sweep *)

Lemma pop_while_cons b a rest p :
  pop_while (b :: a :: rest) p =
  if cross a b p <=? 0 then pop_while (a :: rest) p else b :: a :: rest.
Proof. reflexivity. Qed.

Lemma pop_while_suffix s p : ∃ l, s = l ++ pop_while s p.
Proof.
  induction s as [|b s IH]; [by exists []|].
  destruct s as [|a rest]; [by exists []|]. rewrite pop_while_cons.
  destruct (cross a b p <=? 0); [|by exists []].
  destruct IH as [l Hl]. exists (b :: l). by rewrite <-app_comm_cons, <-Hl.
Qed.

(** When the loop stops, the incoming point is a strict left turn. *)
Lemma pop_while_top s p :
  match pop_while s p with
  | b :: a :: _ => 0 < cross a b p
  | _ => True
  end.
Proof.
  induction s as [|b s IH]; [done|].
  destruct s as [|a rest]; [done|]. rewrite pop_while_cons.
  destruct (Z.leb_spec (cross a b p) 0); [done|]. lia.
Qed.

(** The first point pushed is never popped. *)
Lemma pop_while_last s p : last (pop_while s p) = last s.
Proof.
  induction s as [|b s IH]; [done|].
  destruct s as [|a rest]; [done|]. rewrite pop_while_cons.
  destruct (cross a b p <=? 0); [|done]. by rewrite IH.
Qed.

Lemma convex_chain_suffix l s : convex_chain (l ++ s) → convex_chain s.
Proof. induction l as [|x l IH]; [done|]. intros [_ H]. by apply IH. Qed.

Lemma desc_suffix l s : desc (l ++ s) → desc s.
Proof. unfold desc. rewrite StronglySorted_app. by intros (_ & _ & ?). Qed.

Lemma desc_cons_inv b a s : desc (b :: a :: s) → lex_lt a b ∧ desc (a :: s).
Proof.
  unfold desc. rewrite StronglySorted_cons. intros [Hall ?]. split; [|done].
  by apply Forall_cons in Hall as [? _].
Qed.

Lemma covered_below_pop a b rest p q :
  desc (b :: a :: rest) → lex_lt b p → cross a b p ≤ 0 →
  covered_below (b :: a :: rest) p q → covered_below (a :: rest) p q.
Proof.
  intros [Hab _]%desc_cons_inv Hbp Hturn [[Hin|Hslab]|Htop].
  - apply elem_of_cons in Hin as [->|Hin]; [|by left; left].
    right. eexists _, _. split; [done|]. split_and!.
    + by left.
    + by left.
    + rewrite cross_swap. lia.
  - destruct Hslab as (l1 & b' & a' & l2 & Heq & Haq & Hqb & Hc).
    destruct l1 as [|x l1]; simplify_eq/=.
    + right. eexists _, _. split; [done|]. split_and!.
      * done.
      * left. eauto using lex_le_lt_trans.
      * eauto using turn_slab_popped.
    + left. right. by exists l1, b', a', l2.
  - destruct Htop as (t & s' & Heq & Hbq & Hqp & Hc). simplify_eq.
    right. eexists _, _. split; [done|]. split_and!.
    + left. eauto using lex_lt_le_trans.
    + done.
    + eauto using turn_top_popped.
Qed.

Lemma covered_below_pop_while s p q :
  desc s → Forall (fun x => lex_lt x p) s →
  covered_below s p q → covered_below (pop_while s p) p q.
Proof.
  induction s as [|b s IH]; [done|].
  destruct s as [|a rest]; [done|]. intros Hdesc Hall Hcov. rewrite pop_while_cons.
  destruct (Z.leb_spec (cross a b p) 0) as [Hturn|]; [|done].
  apply Forall_cons in Hall as [Hbp Hall].
  apply IH; [by apply desc_cons_inv in Hdesc as [_ ?]|done|].
  eauto using covered_below_pop.
Qed.

Lemma covered_below_push s p q : covered_below s p q → covered (p :: s) q.
Proof.
  intros [[Hin|(l1 & b & a & l2 & -> & Hslab)]|(t & s' & -> & Hslab)].
  - left. by right.
  - right. by exists (p :: l1), b, a, l2.
  - right. by exists [], p, t, s'.
Qed.

Lemma hull_inv_nil : hull_inv [] [].
Proof.
  split; try done.
  - constructor.
  - by intros q ?%elem_of_nil.
Qed.

(** One iteration of [for p in pts] keeps the invariant. *)
Lemma hull_step_inv Q s p :
  hull_inv Q s → Forall (fun x => lex_lt x p) Q → hull_inv (Q ++ [p]) (hull_step s p).
Proof.
  intros [Hdesc Hconv Hcov Hsub Htop Hbot] Hlt. unfold hull_step.
  destruct (pop_while_suffix s p) as [l Hl].
  assert (Hs : Forall (fun x => lex_lt x p) s).
  { apply Forall_forall. intros x Hx.
    apply (proj1 (Forall_forall _ _) Hlt).
    apply (sublist_subseteq _ _ Hsub). by apply elem_of_reverse. }
  assert (Hs' : Forall (fun x => lex_lt x p) (pop_while s p)).
  { rewrite Hl in Hs. by apply Forall_app in Hs as [_ ?]. }
  split.
  - apply StronglySorted_cons. split; [done|].
    apply (desc_suffix l). by rewrite <-Hl.
  - split.
    + pose proof (pop_while_top s p) as Ht.
      by destruct (pop_while s p) as [|b [|a ?]].
    + apply (convex_chain_suffix l). by rewrite <-Hl.
  - intros q [Hq| ->%list_elem_of_singleton]%elem_of_app.
    + apply covered_below_push, covered_below_pop_while; [done..|].
      left. by apply Hcov.
    + left. by left.
  - rewrite reverse_cons. apply sublist_app; [|done].
    etrans; [|exact Hsub]. rewrite Hl at 2. rewrite reverse_app.
    by apply sublist_inserts_r.
  - simpl. by rewrite last_snoc.
  - destruct Q as [|q0 Q].
    + apply sublist_nil_r in Hsub. apply (f_equal reverse) in Hsub.
      rewrite reverse_involutive in Hsub. by subst s.
    + simpl in *. destruct s as [|x s]; [done|].
      pose proof (pop_while_last (x :: s) p) as Hpl. rewrite Hbot in Hpl.
      by destruct (pop_while (x :: s) p).
Qed.

Lemma sweep_inv Q s pts :
  StronglySorted lex_lt (Q ++ pts) → hull_inv Q s →
  hull_inv (Q ++ pts) (foldl hull_step s pts).
Proof.
  revert Q s. induction pts as [|p pts IH]; intros Q s Hsorted Hinv; simpl.
  - by rewrite app_nil_r.
  - replace (Q ++ p :: pts) with ((Q ++ [p]) ++ pts) in * by by rewrite <-app_assoc.
    apply IH; [done|]. apply hull_step_inv; [done|].
    apply StronglySorted_app in Hsorted as (_ & Hsorted & _).
    apply StronglySorted_app in Hsorted as (Hlt & _ & _).
    apply Forall_forall. intros x Hx. apply Hlt; [done|]. by apply list_elem_of_singleton.
Qed.

(** ** The stack is a lower hull *)

Lemma desc_reverse s : desc s → StronglySorted lex_lt (reverse s).
Proof.
  induction s as [|x s IH]; [constructor|].
  intros [Hall Hs]%StronglySorted_cons. rewrite reverse_cons.
  apply StronglySorted_app_2; [|by apply IH|repeat constructor].
  intros y z Hy ->%list_elem_of_singleton. rewrite elem_of_reverse in Hy.
  by apply (proj1 (Forall_forall _ _) Hall).
Qed.

(** Vertices below an edge in the stack, that is to its left on the hull. *)
Lemma vertices_before_aux l2 a u :
  lexpos u → desc (a :: l2) → convex_chain (a :: l2) →
  (∀ a1 l3, l2 = a1 :: l3 → 0 < vcross (vsub a a1) u) →
  ∀ v, v ∈ l2 → 0 < vcross (vsub a v) u.
Proof.
  revert a. induction l2 as [|a1 l3 IH]; intros a Hu Hdesc Hconv Hfirst v Hv.
  { by apply elem_of_nil in Hv. }
  pose proof (Hfirst a1 l3 eq_refl) as H1.
  apply elem_of_cons in Hv as [->|Hv]; [done|].
  pose proof Hdesc as [Ha1a Hdesc']%desc_cons_inv.
  pose proof Hconv as [_ Hconv'].
  assert (0 < vcross (vsub a1 v) u) as H2.
  { apply IH; [done..| |done].
    intros a2 l4 ->.
    apply desc_cons_inv in Hdesc' as [Ha2a1 _].
    destruct Hconv as [Hturn _]. rewrite cross_vcross in Hturn.
    apply (vcross_trans _ (vsub a a1)); auto using lex_lt_lexpos.
    revert Hturn. unfold vcross, vsub. simpl. lia. }
  revert H1 H2. unfold vcross, vsub. simpl. lia.
Qed.

Lemma vertices_before b a l2 v :
  desc (b :: a :: l2) → convex_chain (b :: a :: l2) → v ∈ l2 → 0 < cross a b v.
Proof.
  intros [Hab Hdesc]%desc_cons_inv Hconv Hv.
  assert (0 < vcross (vsub a v) (vsub b a)) as H.
  { apply (vertices_before_aux l2); [by apply lex_lt_lexpos|done|by destruct Hconv| |done].
    intros a1 l3 ->. destruct Hconv as [Hturn _]. rewrite cross_vcross in Hturn.
    revert Hturn. unfold vcross, vsub. simpl. lia. }
  rewrite cross_vcross. revert H. unfold vcross, vsub. simpl. lia.
Qed.

(** Vertices above an edge in the stack, that is to its right on the hull. *)
Lemma vertices_after_aux a b l2 l1 t :
  desc (t :: l1 ++ b :: a :: l2) → convex_chain (t :: l1 ++ b :: a :: l2) →
  0 < vcross (vsub b a) (vsub t b) ∧
  0 < vcross (vsub b a) (vsub t (default b (head l1))).
Proof.
  revert t. induction l1 as [|t' l1 IH]; intros t Hdesc Hconv; simpl in *.
  - destruct Hconv as [Hturn _]. rewrite cross_vcross in Hturn.
    revert Hturn. unfold vcross, vsub. simpl. lia.
  - pose proof Hdesc as [Htt' Hdesc']%desc_cons_inv.
    destruct Hconv as [Hturn Hconv'].
    destruct (IH t' Hdesc' Hconv') as [H1 H2].
    assert (lex_lt a b) as Hab.
    { apply (desc_suffix (t' :: l1)) in Hdesc'. by apply desc_cons_inv in Hdesc' as [? _]. }
    assert (∃ n rest, l1 ++ b :: a :: l2 = n :: rest ∧ default b (head l1) = n)
      as (n & rest & Heq & Hn).
    { destruct l1; simpl; eauto. }
    rewrite Heq in Hturn, Hdesc'. rewrite Hn in H2.
    apply desc_cons_inv in Hdesc' as [Hnt' _]. rewrite cross_vcross in Hturn.
    assert (0 < vcross (vsub b a) (vsub t t')) as H3.
    { apply (vcross_trans _ (vsub t' n)); auto using lex_lt_lexpos.
      revert Hturn. unfold vcross, vsub. simpl. lia. }
    split; [|done]. revert H1 H3. unfold vcross, vsub. simpl. lia.
Qed.

Lemma vertices_after l1 b a l2 v :
  desc (l1 ++ b :: a :: l2) → convex_chain (l1 ++ b :: a :: l2) → v ∈ l1 →
  0 < cross a b v.
Proof.
  intros Hdesc Hconv (m1 & m2 & ->)%list_elem_of_split.
  rewrite <-app_assoc in Hdesc, Hconv.
  apply desc_suffix in Hdesc. apply convex_chain_suffix in Hconv.
  destruct (vertices_after_aux _ _ _ _ _ Hdesc Hconv) as [H _].
  rewrite cross_vcross. revert H. unfold vcross, vsub. simpl. lia.
Qed.

(** Every vertex other than the two ends of an edge is strictly to its left. *)
Lemma vertices_left l1 b a l2 v :
  desc (l1 ++ b :: a :: l2) → convex_chain (l1 ++ b :: a :: l2) →
  v ∈ l1 ++ b :: a :: l2 → v = a ∨ v = b ∨ 0 < cross a b v.
Proof.
  intros Hdesc Hconv Hv.
  apply elem_of_app in Hv as [Hv|Hv]; [eauto using vertices_after|].
  apply elem_of_cons in Hv as [->|Hv]; [by auto|].
  apply elem_of_cons in Hv as [->|Hv]; [by auto|].
  right; right. apply desc_suffix in Hdesc. apply convex_chain_suffix in Hconv.
  eauto using vertices_before.
Qed.

Lemma cross_same_l a b : cross a b a = 0.
Proof. unfold cross. lia. Qed.

Lemma cross_same_r a b : cross a b b = 0.
Proof. unfold cross. lia. Qed.

Lemma vertices_left_weak l1 b a l2 v :
  desc (l1 ++ b :: a :: l2) → convex_chain (l1 ++ b :: a :: l2) →
  v ∈ l1 ++ b :: a :: l2 → 0 ≤ cross a b v.
Proof.
  intros Hdesc Hconv Hv.
  destruct (vertices_left _ _ _ _ _ Hdesc Hconv Hv) as [->|[->|?]];
    rewrite ?cross_same_l, ?cross_same_r; lia.
Qed.

(** A point covered by the stack is to the left of all of its edges. *)
Lemma covered_left l1 b a l2 q :
  desc (l1 ++ b :: a :: l2) → convex_chain (l1 ++ b :: a :: l2) →
  covered (l1 ++ b :: a :: l2) q → 0 ≤ cross a b q.
Proof.
  intros Hdesc Hconv [Hq|(m1 & b' & a' & m2 & Heq & Haq & Hqb & Hc)].
  { eauto using vertices_left_weak. }
  assert (lex_lt a b) as Hab.
  { pose proof (desc_suffix _ _ Hdesc) as Hd. by apply desc_cons_inv in Hd as [? _]. }
  apply (slab_above_edge a b a' b'); [done..| | |done].
  - apply (vertices_left_weak l1 b a l2); [done..|].
    rewrite Heq. set_solver.
  - apply (vertices_left_weak l1 b a l2); [done..|].
    rewrite Heq. set_solver.
Qed.

Lemma reverse_eq_app {A} (s l1 l2 : list A) :
  reverse s = l1 ++ l2 → s = reverse l2 ++ reverse l1.
Proof.
  intros H. apply (f_equal reverse) in H.
  by rewrite reverse_involutive, reverse_app in H.
Qed.

Lemma hull_inv_lower_hull pts s : hull_inv pts s → is_lower_hull pts (reverse s).
Proof.
  intros [Hdesc Hconv Hcov Hsub Htop Hbot]. split.
  - done.
  - by apply desc_reverse.
  - by rewrite head_reverse.
  - by rewrite last_reverse.
  - intros l1 a b c l2 ->%reverse_eq_app.
    rewrite !reverse_cons, <-!app_assoc in Hconv. simpl in Hconv.
    apply convex_chain_suffix in Hconv. by destruct Hconv as [? _].
  - intros l1 a b l2 q ->%reverse_eq_app Hq.
    rewrite !reverse_cons, <-!app_assoc in *. simpl in *.
    eauto using covered_left.
  - intros l1 a b l2 v ->%reverse_eq_app Hv Hva Hvb.
    rewrite !reverse_cons, <-!app_assoc in *. simpl in *.
    rewrite elem_of_reverse in Hv.
    by destruct (vertices_left _ _ _ _ _ Hdesc Hconv Hv) as [?|[?|?]].
Qed.

(** The monotone-chain sweep over points sorted by (first, second)
    coordinate returns their lower hull. *)
Lemma lower_hull_correct pts :
  StronglySorted lex_lt pts → is_lower_hull pts (lower_hull pts).
Proof.
  intros Hsorted. apply hull_inv_lower_hull.
  apply (sweep_inv [] [] pts); [done|apply hull_inv_nil].
Qed.

(** ** Arrays *)

Lemma get2_map2d {A B} (f : A → B) (a : array2 A) i j :
  get2 (map2d f a) i j = f <$> get2 a i j.
Proof.
  unfold get2, map2d. rewrite list_lookup_fmap.
  destruct (a !! i) as [row|]; simpl; [|done]. by rewrite list_lookup_fmap.
Qed.

Lemma get2_zip2d {A B C} (f : A → B → C) (a : array2 A) (b : array2 B) i j :
  get2 (zip2d f a b) i j = (x ← get2 a i j; y ← get2 b i j; Some (f x y)).
Proof.
  unfold get2, zip2d. rewrite lookup_zip_with.
  destruct (a !! i) as [ra|]; simpl; [|done].
  destruct (b !! i) as [rb|]; simpl; [|by destruct (ra !! j)].
  by rewrite lookup_zip_with.
Qed.

Lemma rect_lookup {A} n1 n2 (a : array2 A) i row :
  rect n1 n2 a → a !! i = Some row → length row = n2.
Proof. intros [_ Hall] Hi. by apply (Forall_lookup_1 _ _ _ _ Hall Hi). Qed.

Lemma rect_get2 {A} n1 n2 (a : array2 A) i j :
  rect n1 n2 a → (i < n1)%nat → (j < n2)%nat → is_Some (get2 a i j).
Proof.
  intros Hrect Hi Hj. unfold get2.
  destruct (lookup_lt_is_Some_2 a i) as [row Hrow]; [by rewrite (proj1 Hrect)|].
  rewrite Hrow. simpl. apply lookup_lt_is_Some_2.
  by rewrite (rect_lookup _ _ _ _ _ Hrect Hrow).
Qed.

Lemma rect_ext {A} n1 n2 (a b : array2 A) :
  rect n1 n2 a → rect n1 n2 b →
  (∀ i j, (i < n1)%nat → (j < n2)%nat → get2 a i j = get2 b i j) → a = b.
Proof.
  intros Ha Hb Hext. apply (list_eq_same_length _ _ n1); [apply Hb|apply Ha|].
  intros i ra rb Hi Hra Hrb.
  apply (list_eq_same_length _ _ n2);
    [exact (rect_lookup _ _ _ _ _ Hb Hrb)|exact (rect_lookup _ _ _ _ _ Ha Hra)|].
  intros j x y Hj Hx Hy. specialize (Hext i j Hi Hj). unfold get2 in Hext.
  rewrite Hra, Hrb in Hext. simpl in Hext. congruence.
Qed.

Lemma rect_map2d {A B} (f : A → B) n1 n2 (a : array2 A) :
  rect n1 n2 a → rect n1 n2 (map2d f a).
Proof.
  intros [Hlen Hall]. split; [unfold map2d; by rewrite length_fmap|].
  unfold map2d. apply Forall_fmap. eapply Forall_impl; [done|].
  intros row Hrow. simpl. by rewrite length_fmap.
Qed.

Lemma rect_zip2d {A B C} (f : A → B → C) n1 n2 (a : array2 A) (b : array2 B) :
  rect n1 n2 a → rect n1 n2 b → rect n1 n2 (zip2d f a b).
Proof.
  intros [Hla Ha] [Hlb Hb]. split.
  - unfold zip2d. rewrite length_zip_with. lia.
  - apply Forall_lookup. intros i row. unfold zip2d. rewrite lookup_zip_with.
    intros Hrow. destruct (a !! i) as [ra|] eqn:Hra; simplify_eq/=.
    destruct (b !! i) as [rb|] eqn:Hrb; simplify_eq/=.
    rewrite length_zip_with.
    rewrite (Forall_lookup_1 _ _ _ _ Ha Hra), (Forall_lookup_1 _ _ _ _ Hb Hrb). lia.
Qed.

Lemma rect_replicate {A} n1 n2 (x : A) : rect n1 n2 (replicate n1 (replicate n2 x)).
Proof.
  split; [by rewrite length_replicate|].
  apply Forall_replicate. by rewrite length_replicate.
Qed.

Lemma get2_replicate {A} n1 n2 (x : A) i j :
  (i < n1)%nat → (j < n2)%nat → get2 (replicate n1 (replicate n2 x)) i j = Some x.
Proof.
  intros Hi Hj. unfold get2. rewrite lookup_replicate_2 by done. simpl.
  by rewrite lookup_replicate_2.
Qed.

(** *** np.roll *)

Lemma length_np_roll {A} shift (l : list A) : length (np_roll shift l) = length l.
Proof. unfold np_roll. apply length_rotate. Qed.

(** The element found at [i] after a roll by [shift] comes from
    [(i - shift) mod n]. *)
Lemma lookup_np_roll {A} shift (l : list A) i :
  (i < length l)%nat →
  np_roll shift l !! i = l !! Z.to_nat ((Z.of_nat i - shift) `mod` Z.of_nat (length l)).
Proof.
  intros Hi. unfold np_roll. rewrite lookup_rotate_r by done.
  f_equal. unfold rotate_nat_add. f_equal.
  rewrite Z2Nat.id by (apply Z.mod_pos_bound; lia).
  rewrite Zplus_mod_idemp_l. f_equal. lia.
Qed.

Lemma rect_np_roll0 {A} shift n1 n2 (a : array2 A) :
  rect n1 n2 a → rect n1 n2 (np_roll0 shift a).
Proof.
  intros [Hlen Hall]. split; [unfold np_roll0; by rewrite length_np_roll|].
  apply Forall_forall. intros row Hrow. unfold np_roll0, np_roll in Hrow.
  apply elem_of_rotate in Hrow. by apply (proj1 (Forall_forall _ _) Hall).
Qed.

Lemma rect_np_roll1 {A} shift n1 n2 (a : array2 A) :
  rect n1 n2 a → rect n1 n2 (np_roll1 shift a).
Proof.
  intros [Hlen Hall]. split; [unfold np_roll1; by rewrite length_fmap|].
  unfold np_roll1. apply Forall_fmap. eapply Forall_impl; [done|].
  intros row Hrow. simpl. by rewrite length_np_roll.
Qed.

Lemma get2_np_roll0 {A} shift n1 n2 (a : array2 A) i j :
  rect n1 n2 a → (i < n1)%nat →
  get2 (np_roll0 shift a) i j = get2 a (Z.to_nat ((Z.of_nat i - shift) `mod` Z.of_nat n1)) j.
Proof.
  intros [Hlen _] Hi. unfold get2, np_roll0.
  rewrite lookup_np_roll by lia. by rewrite Hlen.
Qed.

Lemma get2_np_roll1 {A} shift n1 n2 (a : array2 A) i j :
  rect n1 n2 a → (j < n2)%nat →
  get2 (np_roll1 shift a) i j = get2 a i (Z.to_nat ((Z.of_nat j - shift) `mod` Z.of_nat n2)).
Proof.
  intros Hrect Hj. unfold get2, np_roll1. rewrite list_lookup_fmap.
  destruct (a !! i) as [row|] eqn:Hrow; simpl; [|done].
  pose proof (rect_lookup _ _ _ _ _ Hrect Hrow) as Hlen.
  rewrite lookup_np_roll by lia. by rewrite Hlen.
Qed.

(** ** edge_mask *)

Lemma rect_edges n1 n2 (brain : array2 bool) : rect n1 n2 brain → rect n1 n2 (edges brain).
Proof.
  intros Hrect. unfold edges, edge_values.
  pose proof (rect_map2d Z.b2z _ _ _ Hrect) as Hb.
  auto 10 using rect_map2d, rect_zip2d, rect_np_roll0, rect_np_roll1.
Qed.

Lemma pixel_in_range n1 n2 (brain : array2 bool) (i j : nat) :
  rect n1 n2 brain → (i < n1)%nat → (j < n2)%nat →
  get2 (map2d Z.b2z brain) i j = Some (pixel brain (Z.of_nat i) (Z.of_nat j)).
Proof.
  intros Hrect Hi Hj. rewrite get2_map2d. unfold pixel. rewrite !Nat2Z.id.
  by destruct (rect_get2 n1 n2 brain i j) as [x ->].
Qed.

Lemma get2_edges n1 n2 (brain : array2 bool) i j :
  rect n1 n2 brain → (i < n1)%nat → (j < n2)%nat →
  get2 (edges brain) i j =
  Some (negb (4 * pixel brain (Z.of_nat i) (Z.of_nat j)
              - pixel brain ((Z.of_nat i - 1) `mod` Z.of_nat n1) (Z.of_nat j)
              - pixel brain ((Z.of_nat i + 1) `mod` Z.of_nat n1) (Z.of_nat j)
              - pixel brain (Z.of_nat i) ((Z.of_nat j - 1) `mod` Z.of_nat n2)
              - pixel brain (Z.of_nat i) ((Z.of_nat j + 1) `mod` Z.of_nat n2) =? 0)).
Proof.
  intros Hrect Hi Hj. unfold edges, edge_values.
  pose proof (rect_map2d Z.b2z _ _ _ Hrect) as Hb.
  rewrite get2_map2d, !get2_zip2d, get2_map2d.
  rewrite !(get2_np_roll0 _ n1 n2), !(get2_np_roll1 _ n1 n2) by done.
  replace (Z.of_nat i - -1) with (Z.of_nat i + 1) by lia.
  replace (Z.of_nat j - -1) with (Z.of_nat j + 1) by lia.
  pose proof (Z.mod_pos_bound (Z.of_nat i - 1) (Z.of_nat n1)).
  pose proof (Z.mod_pos_bound (Z.of_nat i + 1) (Z.of_nat n1)).
  pose proof (Z.mod_pos_bound (Z.of_nat j - 1) (Z.of_nat n2)).
  pose proof (Z.mod_pos_bound (Z.of_nat j + 1) (Z.of_nat n2)).
  rewrite !(pixel_in_range n1 n2) by (done || lia).
  rewrite !Z2Nat.id by lia. done.
Qed.

(** ** flip_axes *)

Lemma flip1_involutive {A} (e : list (list A)) : reverse <$> (reverse <$> e) = e.
Proof.
  rewrite <-list_fmap_compose. rewrite <-(list_fmap_id e) at 2.
  apply list_fmap_ext. intros _ l _. apply reverse_involutive.
Qed.

Lemma flip2_involutive {A} (e : list (list (list A))) :
  fmap (M:=list) reverse <$> (fmap (M:=list) reverse <$> e) = e.
Proof.
  rewrite <-list_fmap_compose. rewrite <-(list_fmap_id e) at 2.
  apply list_fmap_ext. intros _ l _. apply flip1_involutive.
Qed.

Lemma flip21_commute {A} (e : list (list (list A))) :
  reverse <$> (fmap (M:=list) reverse <$> e) = fmap (M:=list) reverse <$> (reverse <$> e).
Proof.
  rewrite <-!list_fmap_compose. apply list_fmap_ext. intros _ l _. simpl.
  by rewrite fmap_reverse.
Qed.

Lemma flip_axes_3 {A} (d : ndarray A) (b0 b1 b2 : bool) :
  flip_axes d [b0; b1; b2] =
  Ok (NdArray (shape d) (flip_elems b0 b1 b2 (elems d))).
Proof. destruct d as [s e]. by destruct b0, b1, b2. Qed.

Lemma flip_elems_involutive {A} (b0 b1 b2 : bool) (e : list (list (list A))) :
  flip_elems b0 b1 b2 (flip_elems b0 b1 b2 e) = e.
Proof.
  unfold flip_elems.
  destruct b0, b1, b2; simpl;
    rewrite ?fmap_reverse, ?reverse_involutive, ?flip21_commute,
      ?flip2_involutive, ?flip1_involutive, ?flip2_involutive; done.
Qed.


(** ** The keep-mask *)

Lemma lookup_zero_prefix stop row k :
  zero_prefix stop row !! k =
  (fun v => if decide (k < stop)%nat then false else v) <$> row !! k.
Proof.
  unfold zero_prefix.
  destruct (decide (k < stop `min` length row)%nat) as [Hk|Hk].
  - rewrite lookup_app_l by (rewrite length_replicate; lia).
    rewrite lookup_replicate_2 by lia.
    destruct (lookup_lt_is_Some_2 row k) as [v ->]; [lia|]. simpl.
    by rewrite decide_True by lia.
  - rewrite lookup_app_r by (rewrite length_replicate; lia).
    rewrite length_replicate, lookup_drop.
    destruct (decide (stop ≤ length row)%nat).
    + replace (stop + (k - stop `min` length row))%nat with k by lia.
      destruct (row !! k); simpl; [|done]. by rewrite decide_False by lia.
    + rewrite !lookup_ge_None_2 by lia. done.
Qed.

Lemma length_zero_prefix stop row : length (zero_prefix stop row) = length row.
Proof. unfold zero_prefix. rewrite length_app, length_replicate, length_drop. lia. Qed.

Lemma setitem_zero_shape dm x y dm' : setitem_zero dm x y = Ok dm' → shape dm' = shape dm.
Proof. unfold setitem_zero. case_decide; [|done]. by intros [= <-]. Qed.

Lemma get3_setitem_zero dm x y dm' i j k :
  setitem_zero dm x y = Ok dm' →
  get3 dm' i j k =
  (fun v => if hit (dim2 (shape dm)) (x, y) j k then false else v) <$> get3 dm i j k.
Proof.
  unfold setitem_zero. case_decide; [|done]. intros [= <-].
  unfold get3, hit. simpl. rewrite list_lookup_fmap.
  destruct (elems dm !! i) as [plane|]; simpl; [|done].
  rewrite list_lookup_alter. case_decide as Hj.
  - subst j. rewrite bool_decide_eq_true_2 by done. simpl.
    destruct (plane !! x) as [row|]; simpl; [|done].
    rewrite lookup_zero_prefix. destruct (row !! k); simpl; [|done].
    by case_decide; case_bool_decide.
  - rewrite bool_decide_eq_false_2 by done. simpl.
    destruct (plane !! j) as [row|]; simpl; [|done]. by destruct (row !! k).
Qed.

Lemma shear_loop_spec pairs dm dm' :
  shear_loop pairs dm = Ok dm' →
  shape dm' = shape dm ∧
  ∀ i j k,
    get3 dm' i j k =
    (fun v => if existsb (fun xy => hit (dim2 (shape dm)) xy j k) pairs
              then false else v) <$> get3 dm i j k.
Proof.
  revert dm. induction pairs as [|[x y] pairs IH]; intros dm Hloop; simpl in *.
  - simplify_eq. split; [done|]. intros i j k. by destruct (get3 dm' i j k).
  - destruct (setitem_zero dm x y) as [dm1|] eqn:Hset; [|done]. simpl in Hloop.
    destruct (IH _ Hloop) as [Hshape Hget].
    pose proof (setitem_zero_shape _ _ _ _ Hset) as Hshape1.
    split; [congruence|]. intros i j k.
    rewrite Hget, (get3_setitem_zero _ _ _ _ _ _ _ Hset), Hshape1.
    destruct (get3 dm i j k); simpl; [|done].
    by destruct (hit _ (x, y) j k), (existsb _ pairs).
Qed.

(** The loop fails exactly when some [x] is outside the second axis. *)
Lemma shear_loop_ok pairs dm :
  Forall (fun xy => (xy.1 < dim1 (shape dm))%nat) pairs →
  ∃ dm', shear_loop pairs dm = Ok dm'.
Proof.
  revert dm. induction pairs as [|[x y] pairs IH]; intros dm Hall; simpl; [by eexists|].
  apply Forall_cons in Hall as [Hx Hall]. simpl in Hx.
  unfold setitem_zero at 1. rewrite decide_True by done. simpl.
  apply IH. done.
Qed.

Lemma get3_np_ones s i j k :
  (i < dim0 s)%nat → (j < dim1 s)%nat → (k < dim2 s)%nat →
  get3 (np_ones s) i j k = Some true.
Proof.
  intros Hi Hj Hk. unfold get3, np_ones. simpl.
  rewrite lookup_replicate_2 by done. simpl.
  rewrite lookup_replicate_2 by done. simpl.
  by rewrite lookup_replicate_2.
Qed.

(** *** The pairs of the loop when the positive positions are a prefix *)

Lemma nonzero_from1_prefix i v :
  (∀ j j', (j ≤ j')%nat → v !! j' = Some true → v !! j = Some true) →
  ∃ m, nonzero_from1 i v = seq i m ∧ (m ≤ length v)%nat ∧
       ∀ j, v !! j = Some true ↔ (j < m)%nat.
Proof.
  revert i. induction v as [|b v IH]; intros i Hclosed; simpl.
  { exists 0%nat. split_and!; [done..|]. intros j. rewrite lookup_nil. split; [done|lia]. }
  destruct b.
  - destruct (IH (S i)) as (m & Hseq & Hlen & Hm).
    { intros j j' Hjj' Hj'. apply (Hclosed (S j) (S j')); [lia|done]. }
    exists (S m). rewrite Hseq. split_and!; [done|lia|].
    intros [|j]; simpl; [split; [lia|done]|]. rewrite Hm. lia.
  - assert (∀ j, v !! j ≠ Some true) as Hnone.
    { intros j Hj. by specialize (Hclosed 0%nat (S j) ltac:(lia) Hj). }
    destruct (IH (S i)) as (m & Hseq & Hlen & Hm).
    { intros j j' _ Hj'. by destruct (Hnone j'). }
    destruct m as [|m]; [|by destruct (Hnone 0%nat); apply Hm; lia].
    exists 0%nat. rewrite Hseq. split_and!; [done|lia|].
    intros [|j]; simpl; [split; [done|lia]|]. rewrite Hm. lia.
Qed.

Lemma existsb_hit_zip n2 m (l : list Z) j k :
  existsb (fun xy => hit n2 xy j k) (zip (seq 0 m) l) =
  match l !! j with
  | Some y => bool_decide (j < m)%nat && bool_decide (k < py_slice_stop n2 y)%nat
  | None => false
  end.
Proof.
  apply eq_true_iff_eq. rewrite existsb_exists. split.
  - intros ([x y] & Hin & Hhit). apply list_elem_of_In, list_elem_of_lookup in Hin as [t Ht].
    rewrite lookup_zip_with in Ht.
    destruct (seq 0 m !! t) as [x'|] eqn:Hseq; simplify_eq/=.
    destruct (l !! t) as [y'|] eqn:Hl; simplify_eq/=.
    apply lookup_seq in Hseq as [-> Hlt]. simpl in *.
    unfold hit in Hhit. simpl in Hhit.
    apply andb_true_iff in Hhit as [->%bool_decide_eq_true Hk].
    rewrite Hl. apply andb_true_iff. split; [by apply bool_decide_eq_true|done].
  - destruct (l !! j) as [y|] eqn:Hl; [|done].
    intros [Hj%bool_decide_eq_true Hk]%andb_true_iff.
    exists (j, y). split.
    + apply list_elem_of_In, list_elem_of_lookup. exists j.
      rewrite lookup_zip_with, lookup_seq_lt, Hl by done. done.
    + unfold hit. simpl. apply andb_true_iff. split; [by apply bool_decide_eq_true|done].
Qed.

Lemma shear_pairs_prefix n2 ys j k :
  positive_prefix ys →
  existsb (fun xy => hit n2 xy j k) (shear_pairs ys) = zeroed_at n2 ys j k.
Proof.
  intros Hprefix. unfold shear_pairs, nonzero1, zeroed_at.
  destruct (nonzero_from1_prefix 0 (f64_gt0 <$> ys)) as (m & -> & Hlen & Hm).
  { intros i i' Hii'. rewrite !list_lookup_fmap.
    destruct (ys !! i') as [y'|] eqn:Hy'; [|done]. simpl. intros [= Hpos].
    destruct (lookup_lt_is_Some_2 ys i) as [y Hy].
    { apply lookup_lt_Some in Hy'. lia. }
    rewrite Hy. simpl. f_equal. eauto. }
  rewrite existsb_hit_zip, list_lookup_fmap.
  destruct (ys !! j) as [y|] eqn:Hy; simpl; [|done]. f_equal.
  specialize (Hm j). rewrite list_lookup_fmap, Hy in Hm. simpl in Hm.
  destruct (f64_gt0 y).
  - apply bool_decide_eq_true. by apply Hm.
  - apply bool_decide_eq_false. intros Hjm. by apply Hm in Hjm.
Qed.

Lemma shear_pairs_in_axis n1 ys :
  positive_in_axis n1 ys → Forall (fun xy => (xy.1 < n1)%nat) (shear_pairs ys).
Proof.
  intros Hin. apply Forall_forall. intros [x y] Hxy. simpl.
  unfold shear_pairs in Hxy. apply elem_of_zip_l in Hxy.
  assert (∀ i v x, x ∈ nonzero_from1 i v → ∃ t, x = (i + t)%nat ∧ v !! t = Some true) as Haux.
  { clear. intros i v. revert i. induction v as [|b v IH]; intros i x; simpl.
    { by intros ?%elem_of_nil. }
    destruct b.
    - intros [->|Hx]%elem_of_cons.
      + exists 0%nat. split; [lia|done].
      + destruct (IH _ _ Hx) as (t & -> & Ht). exists (S t). split; [lia|done].
    - intros Hx. destruct (IH _ _ Hx) as (t & -> & Ht). exists (S t). split; [lia|done]. }
  destruct (Haux _ _ _ Hxy) as (t & -> & Ht). simpl.
  rewrite list_lookup_fmap in Ht. destruct (ys !! t) as [y'|] eqn:Hy; simplify_eq/=.
  eauto.
Qed.

(** The rasterisation, when the positive positions are an initial segment
    that fits the second axis. *)
Lemma rasterize_spec s ys :
  positive_prefix ys → positive_in_axis (dim1 s) ys →
  ∃ km, rasterize s ys = Ok km ∧ shape km = s ∧
    ∀ i j k, (i < dim0 s)%nat → (j < dim1 s)%nat → (k < dim2 s)%nat →
             get3 km i j k = Some (negb (zeroed_at (dim2 s) ys j k)).
Proof.
  intros Hprefix Hin. unfold rasterize.
  destruct (shear_loop_ok (shear_pairs ys) (np_ones s)) as [km Hkm].
  { by apply shear_pairs_in_axis. }
  exists km. split; [done|].
  destruct (shear_loop_spec _ _ _ Hkm) as [Hshape Hget]. split; [done|].
  intros i j k Hi Hj Hk. rewrite Hget, get3_np_ones by done. simpl.
  rewrite shear_pairs_prefix by done. by destruct (zeroed_at _ _ _ _).
Qed.

(** ** float64 *)

Lemma f64_gt0_cases y :
  f64_gt0 y = true → y = S754_infinity false ∨ ∃ m e, y = S754_finite false m e.
Proof. destruct y as [[]|[]| |[] m e]; try done; eauto. Qed.

(** The truncation of a positive value is not negative, unless the cast
    left the int64 range. *)
Lemma astype_int_pos y : f64_gt0 y = true → 0 ≤ astype_int y ∨ astype_int y = INT64_MIN.
Proof.
  intros [->|(m & e & ->)]%f64_gt0_cases; [by right|]. simpl.
  set (mag := if 0 <=? e then _ else _).
  assert (0 ≤ mag).
  { unfold mag. destruct (0 <=? e) eqn:He.
    - apply Z.leb_le in He. apply Z.mul_nonneg_nonneg; [lia|]. by apply Z.pow_nonneg.
    - apply Z.div_pos; [lia|]. apply Z.pow_pos_nonneg; lia. }
  destruct (_ && _); [by left|by right].
Qed.

Lemma slice_stop_lt n2 t k :
  (k < n2)%nat → Z.of_nat n2 ≤ 2 ^ 63 → 0 ≤ t ∨ t = INT64_MIN →
  (k < py_slice_stop n2 t)%nat ↔ Z.of_nat k < t.
Proof.
  intros Hk Hn Ht. unfold py_slice_stop, INT64_MIN in *.
  change (2 ^ 63) with 9223372036854775808 in *.
  destruct (Z.ltb_spec t 0); lia.
Qed.

(** The class of a converted integer. *)
Lemma binary_round_signed s m e : signed s (binary_round prec emax s m e).
Proof.
  unfold binary_round, binary_round_aux.
  destruct (shl_align _ _ _) as [mz ez].
  destruct (shr_fexp _ _ _ _ _) as [mrs' e'].
  destruct (shr_fexp _ _ _ _ _) as [mrs'' e''].
  destruct (shr_m mrs'') as [|m'|m'].
  - by left.
  - destruct (_ <=? _)%Z; [right; left; eauto|right; right; by left].
  - by repeat right.
Qed.

Lemma f64_of_int_signed z : signed (bool_decide (z < 0)) (f64_of_int z).
Proof.
  unfold f64_of_int, binary_normalize. destruct z as [|p|p].
  - by left.
  - apply binary_round_signed.
  - apply binary_round_signed.
Qed.

Lemma f64_of_int_nonneg z : 0 ≤ z → signed false (f64_of_int z).
Proof.
  intros Hz. pose proof (f64_of_int_signed z) as H.
  by rewrite bool_decide_eq_false_2 in H by lia.
Qed.

(** *** Arithmetic on a vertical leading segment *)

Lemma f64_div_by_zero s d : signed s d → nan_or_inf s (f64_div d (f64_of_int 0)).
Proof.
  intros [->|[(m & e & ->)|[->| ->]]]; [by left|right..|by left].
  - by destruct s.
  - by destruct s.
Qed.

Lemma f64_mul_nan_or_inf s x v :
  signed false x → nan_or_inf s v → nan_or_inf s (f64_mul x v).
Proof.
  intros [->|[(m & e & ->)|[->| ->]]] [->| ->]; try (by left); by right.
Qed.

Lemma f64_sub_nan_or_inf_r s x v : nan_or_inf s v → nan_or_inf (negb s) (f64_sub x v).
Proof.
  intros [->| ->].
  - left. by destruct x.
  - destruct x as [sx|sx| |sx m e]; [by right| |by left|by right].
    destruct sx, s; (by left) || (by right).
Qed.

Lemma f64_sub_nan_or_inf_l s v b : nan_or_inf s v → nan_or_inf s (f64_sub v b).
Proof.
  intros [->| ->]; [by left|].
  destruct b as [sb|sb| |sb m e]; [by right| |by left|by right].
  destruct s, sb; (by left) || (by right).
Qed.

Lemma f64_add_opposite s u v :
  nan_or_inf s u → nan_or_inf (negb s) v → f64_add u v = S754_nan.
Proof. intros [->| ->] [->| ->]; try done; by destruct s. Qed.

(** ** The shearing line *)

(** The line is read off the first two hull points: the slope of the
    segment between them, and the intercept through the first of them. *)
Lemma f64_of_pyint_cases z :
  f64_of_pyint z = Ok (f64_of_int z) ∨
  (f64_of_pyint z = Raise OverflowError ∧ ∃ s, f64_of_int z = S754_infinity s).
Proof. unfold f64_of_pyint. destruct (f64_of_int z); eauto. Qed.

Lemma f64_of_pyint_inv z y : f64_of_pyint z = Ok y → y = f64_of_int z.
Proof. destruct (f64_of_pyint_cases z) as [->|[-> _]]; congruence. Qed.

Lemma shear_line_hull p0 p1 rest buff :
  f64_of_pyint buff = Ok (f64_of_int buff) →
  shear_line (np_array_T (p0 :: p1 :: rest)) buff =
  Ok (segment_slope p0 p1, segment_intercept p0 p1 buff).
Proof.
  intros Hb. destruct p0 as [x0 y0], p1 as [x1 y1].
  unfold shear_line. cbn -[f64_of_pyint f64_of_int f64_sub f64_mul f64_div].
  by rewrite Hb.
Qed.

Lemma shear_line_overflow p0 p1 rest buff :
  f64_of_pyint buff = Raise OverflowError →
  shear_line (np_array_T (p0 :: p1 :: rest)) buff = Raise OverflowError.
Proof.
  intros Hb. destruct p0 as [x0 y0], p1 as [x1 y1].
  unfold shear_line. cbn -[f64_of_pyint f64_of_int f64_sub f64_mul f64_div].
  by rewrite Hb.
Qed.

Lemma shear_line_empty buff : shear_line (np_array_T []) buff = Raise ValueError.
Proof. reflexivity. Qed.

Lemma shear_line_single p0 buff : shear_line (np_array_T [p0]) buff = Raise IndexError.
Proof. reflexivity. Qed.

Lemma lookup_line_values n slope yint p :
  line_values n slope yint !! p =
  if decide (p < n)%nat then Some (line_at slope yint p) else None.
Proof.
  unfold line_values. rewrite list_lookup_fmap.
  case_decide.
  - rewrite lookup_seqZ_lt by lia. simpl. unfold line_at. by rewrite ?Z.add_0_l.
  - rewrite lookup_seqZ_ge by lia. done.
Qed.

Lemma length_line_values n slope yint : length (line_values n slope yint) = n.
Proof. unfold line_values. rewrite length_fmap, length_seqZ. lia. Qed.

(** On a vertical leading segment every line value is NaN. *)
Lemma line_at_vertical p0 p1 buff p :
  p0.1 = p1.1 → 0 ≤ p0.1 →
  line_at (segment_slope p0 p1) (segment_intercept p0 p1 buff) p = S754_nan.
Proof.
  intros Hx Hx0. unfold line_at, segment_intercept.
  assert (∃ s, nan_or_inf s (segment_slope p0 p1)) as [s Hs].
  { unfold segment_slope. replace (p1.1 - p0.1) with 0 by lia.
    eexists. apply f64_div_by_zero, f64_of_int_signed. }
  apply (f64_add_opposite s).
  - apply f64_mul_nan_or_inf; [apply f64_of_int_nonneg; lia|done].
  - apply f64_sub_nan_or_inf_l, f64_sub_nan_or_inf_r.
    apply f64_mul_nan_or_inf; [by apply f64_of_int_nonneg|done].
Qed.
(** * Rounding: the float64 operations on whole numbers of units *)

(** ** Bit lengths *)

Lemma digits2_pos_spec p :
  2 ^ (Z.pos (digits2_pos p) - 1) ≤ Z.pos p < 2 ^ Z.pos (digits2_pos p).
Proof.
  induction p as [p IH|p IH|]; simpl digits2_pos.
  - rewrite Pos2Z.inj_succ. replace (Z.succ (Z.pos (digits2_pos p)) - 1)
      with (Z.succ (Z.pos (digits2_pos p) - 1)) by lia.
    rewrite !Z.pow_succ_r by lia. lia.
  - rewrite Pos2Z.inj_succ. replace (Z.succ (Z.pos (digits2_pos p)) - 1)
      with (Z.succ (Z.pos (digits2_pos p) - 1)) by lia.
    rewrite !Z.pow_succ_r by lia. lia.
  - simpl. lia.
Qed.

Lemma Zdigits2_spec m : 0 < m → 2 ^ (Zdigits2 m - 1) ≤ m < 2 ^ Zdigits2 m.
Proof. destruct m as [|p|p]; [lia| |lia]. intros _. apply digits2_pos_spec. Qed.

Lemma Zdigits2_pos m : 0 < m → 0 < Zdigits2 m.
Proof. destruct m; simpl; lia. Qed.

Lemma Zdigits2_unique m k : 0 < m → 2 ^ (k - 1) ≤ m < 2 ^ k → Zdigits2 m = k.
Proof.
  intros Hm [Hlo Hhi]. pose proof (Zdigits2_spec m Hm) as [Hlo' Hhi'].
  pose proof (Zdigits2_pos m Hm).
  assert (0 < k).
  { destruct (Z.lt_trichotomy k 0) as [?|[->|?]]; [|simpl in Hhi; lia|done].
    rewrite Z.pow_neg_r in Hhi by lia. lia. }
  destruct (Z.lt_trichotomy (Zdigits2 m) k) as [Hlt|[->|Hgt]]; [|done|].
  - assert (2 ^ Zdigits2 m ≤ 2 ^ (k - 1)) by (apply Z.pow_le_mono_r; lia). lia.
  - assert (2 ^ k ≤ 2 ^ (Zdigits2 m - 1)) by (apply Z.pow_le_mono_r; lia). lia.
Qed.

Lemma Zdigits2_mul_pow m k : 0 < m → 0 ≤ k → Zdigits2 (m * 2 ^ k) = Zdigits2 m + k.
Proof.
  intros Hm Hk. pose proof (Zdigits2_spec m Hm) as [Hlo Hhi].
  pose proof (Zdigits2_pos m Hm).
  assert (0 < 2 ^ k) by (apply Z.pow_pos_nonneg; lia).
  apply Zdigits2_unique; [nia|].
  replace (Zdigits2 m + k - 1) with ((Zdigits2 m - 1) + k) by lia.
  rewrite !Z.pow_add_r by lia. nia.
Qed.

Lemma Zdigits2_le m m' : 0 < m → m ≤ m' → Zdigits2 m ≤ Zdigits2 m'.
Proof.
  intros Hm Hle. pose proof (Zdigits2_spec m Hm) as [Hlo Hhi].
  pose proof (Zdigits2_spec m' ltac:(lia)) as [Hlo' Hhi'].
  destruct (Z.le_gt_cases (Zdigits2 m) (Zdigits2 m')); [done|].
  assert (2 ^ Zdigits2 m' ≤ 2 ^ (Zdigits2 m - 1)) by (apply Z.pow_le_mono_r; lia). lia.
Qed.

(** iter_pos is iteration *)
Lemma iter_pos_comm {A} (f : A → A) p x : SpecFloat.iter_pos f p (f x) = f (SpecFloat.iter_pos f p x).
Proof.
  revert x. induction p as [p IH|p IH|]; intros x; simpl; [|..|done].
  - by rewrite !IH.
  - by rewrite !IH.
Qed.

Lemma iter_pos_succ {A} (f : A → A) p x : SpecFloat.iter_pos f (Pos.succ p) x = f (SpecFloat.iter_pos f p x).
Proof.
  revert x. induction p as [p IH|p IH|]; intros x; simpl; [| |done].
  - rewrite !IH. by rewrite !iter_pos_comm.
  - by rewrite !iter_pos_comm.
Qed.

(** shr_1 on a non-negative mantissa *)
Lemma shr_1_m mrs : 0 ≤ shr_m mrs → shr_m (shr_1 mrs) = shr_m mrs / 2.
Proof.
  destruct mrs as [m r s]; simpl. intros Hm.
  destruct m as [|[p|p|]|p]; simpl; try lia; try done.
  - rewrite Pos2Z.inj_xI. apply Z.div_unique with 1; lia.
  - rewrite Pos2Z.inj_xO. apply Z.div_unique with 0; lia.
Qed.

Lemma shr_m_iter p mrs :
  0 ≤ shr_m mrs → shr_m (SpecFloat.iter_pos shr_1 p mrs) = shr_m mrs / 2 ^ Z.pos p.
Proof.
  intros Hm. induction p as [|p IH] using Pos.peano_ind.
  - simpl SpecFloat.iter_pos. rewrite shr_1_m by done. done.
  - rewrite iter_pos_succ, shr_1_m, IH.
    + rewrite Pos2Z.inj_succ, Z.pow_succ_r by lia.
      rewrite Z.div_div by (try apply Z.pow_pos_nonneg; lia). f_equal. lia.
    + rewrite IH. apply Z.div_pos; [done|]. apply Z.pow_pos_nonneg; lia.
Qed.

Lemma fexp_eq e : fexp prec emax e = f_fexp e.
Proof. reflexivity. Qed.

Lemma Zdigits2_div_pow m n :
  0 < m → 0 ≤ n → 0 < m / 2 ^ n → Zdigits2 (m / 2 ^ n) = Zdigits2 m - n.
Proof.
  intros Hm Hn Hq. pose proof (Zdigits2_spec m Hm) as [Hlo Hhi].
  assert (0 < 2 ^ n) by (apply Z.pow_pos_nonneg; lia).
  assert (n < Zdigits2 m).
  { destruct (Z.lt_ge_cases n (Zdigits2 m)); [done|].
    assert (2 ^ Zdigits2 m ≤ 2 ^ n) by (apply Z.pow_le_mono_r; lia).
    rewrite Z.div_small in Hq by lia. lia. }
  apply Zdigits2_unique; [done|]. split.
  - apply Z.div_le_lower_bound; [done|].
    rewrite <-Z.pow_add_r by lia. by replace (n + (Zdigits2 m - n - 1)) with (Zdigits2 m - 1) by lia.
  - apply Z.div_lt_upper_bound; [done|].
    rewrite <-Z.pow_add_r by lia. by replace (n + (Zdigits2 m - n)) with (Zdigits2 m) by lia.
Qed.

Lemma shr_nonpos mrs e n : n ≤ 0 → shr mrs e n = (mrs, e).
Proof. by destruct n. Qed.

Lemma shr_pos mrs e n :
  0 < n → 0 ≤ shr_m mrs →
  ∃ mrs', shr mrs e n = (mrs', e + n) ∧ shr_m mrs' = shr_m mrs / 2 ^ n.
Proof.
  intros Hn Hm. destruct n as [|p|p]; [lia| |lia]. simpl.
  eexists. split; [done|]. by apply shr_m_iter.
Qed.

Lemma shr_record_of_loc_m m l : shr_m (shr_record_of_loc m l) = m.
Proof. by destruct l as [|[]]. Qed.

(** What [shr_fexp] leaves: a mantissa of at most [prec] bits over an
    exponent of at least [emin]. *)
Lemma shr_fexp_bounds m e l mrs' e' :
  0 ≤ m → shr_fexp prec emax m e l = (mrs', e') →
  0 ≤ shr_m mrs' ∧ (0 < shr_m mrs' → Zdigits2 (shr_m mrs') ≤ prec ∧ f_emin ≤ e').
Proof.
  intros Hm. unfold shr_fexp. rewrite fexp_eq.
  set (n := f_fexp (Zdigits2 m + e) - e). unfold f_fexp in n.
  destruct (Z.lt_ge_cases 0 n) as [Hn|Hn].
  - destruct (shr_pos (shr_record_of_loc m l) e n Hn) as (mrs1 & -> & Hq).
    { by rewrite shr_record_of_loc_m. }
    rewrite shr_record_of_loc_m in Hq. intros [= <- <-]. rewrite Hq.
    assert (0 < 2 ^ n) by (apply Z.pow_pos_nonneg; lia).
    split; [apply Z.div_pos; lia|]. intros Hpos.
    assert (0 < m) by (destruct (decide (m = 0)) as [->|]; [by rewrite Z.div_0_l in Hpos by lia|lia]).
    rewrite Zdigits2_div_pow by (done || lia). lia.
  - rewrite shr_nonpos by lia. intros [= <- <-]. rewrite shr_record_of_loc_m.
    split; [done|]. intros Hq. lia.
Qed.

Lemma round_nearest_even_nonneg m l : 0 ≤ m → 0 ≤ round_nearest_even m l.
Proof.
  intros Hm. destruct l as [|[]]; simpl; try lia. destruct (Z.even m); lia.
Qed.

Lemma binary_round_aux_repr sx mx ex lx :
  0 ≤ mx → repr (binary_round_aux prec emax sx mx ex lx).
Proof.
  intros Hm. unfold binary_round_aux.
  destruct (shr_fexp prec emax mx ex lx) as [mrs' e'] eqn:H1.
  destruct (shr_fexp_bounds _ _ _ _ _ Hm H1) as [Hm' _].
  destruct (shr_fexp prec emax _ e' loc_Exact) as [mrs'' e''] eqn:H2.
  destruct (shr_fexp_bounds _ _ _ _ _ (round_nearest_even_nonneg _ _ Hm') H2) as [Hm'' Hb].
  destruct (shr_m mrs'') as [|m|m]; [done| |done].
  destruct (Z.leb_spec e'' (emax - prec)); [|done].
  change (Zdigits2 (Z.pos m) ≤ prec ∧ f_emin ≤ e'' ≤ emax - prec).
  destruct Hb as [? ?]; [lia|]. lia.
Qed.

(** ** Round to nearest, ties to even, of [x / 2 ^ n] *)

Lemma pow2_pred n : 1 ≤ n → 2 ^ n = 2 ^ (n - 1) * 2.
Proof.
  intros Hn. rewrite Z.mul_comm, <-Z.pow_succ_r by lia. f_equal. lia.
Qed.

Lemma shr_1_r mrs : 0 ≤ shr_m mrs → shr_r (shr_1 mrs) = Z.odd (shr_m mrs).
Proof.
  destruct mrs as [m r s]; simpl. intros Hm.
  destruct m as [|[p|p|]|p]; simpl; try lia; done.
Qed.

Lemma shr_1_s mrs : 0 ≤ shr_m mrs → shr_s (shr_1 mrs) = shr_r mrs || shr_s mrs.
Proof.
  destruct mrs as [m r s]; simpl. intros Hm.
  destruct m as [|[p|p|]|p]; simpl; try lia; done.
Qed.

Lemma shr_rs_iter p m :
  0 ≤ m →
  let mrs := SpecFloat.iter_pos shr_1 p (Build_shr_record m false false) in
  shr_r mrs = Z.odd (m / 2 ^ (Z.pos p - 1)) ∧
  shr_s mrs = negb (m mod 2 ^ (Z.pos p - 1) =? 0).
Proof.
  intros Hm. induction p as [|p IH] using Pos.peano_ind.
  - simpl. rewrite Z.div_1_r, Z.mod_1_r.
    by destruct m as [|[q|q|]|q].
  - simpl in IH. destruct IH as [IHr IHs].
    rewrite iter_pos_succ.
    assert (0 ≤ shr_m (SpecFloat.iter_pos shr_1 p (Build_shr_record m false false))) as Hnn.
    { rewrite shr_m_iter by done. apply Z.div_pos; [done|]. apply Z.pow_pos_nonneg; lia. }
    simpl. rewrite shr_1_r, shr_1_s by done.
    rewrite shr_m_iter by done. simpl shr_m. rewrite IHr, IHs.
    replace (Z.pos (Pos.succ p) - 1) with (Z.pos p) by lia.
    split; [done|].
    assert (0 < 2 ^ (Z.pos p - 1)) as Hpow by (apply Z.pow_pos_nonneg; lia).
    rewrite (pow2_pred (Z.pos p)) by lia.
    rewrite Z.rem_mul_r by lia.
    pose proof (Z.mod_pos_bound m (2 ^ (Z.pos p - 1)) Hpow).
    pose proof (Z.mod_pos_bound (m / 2 ^ (Z.pos p - 1)) 2 ltac:(lia)).
    rewrite Zodd_mod.
    destruct (Z.eqb_spec (m mod 2 ^ (Z.pos p - 1)) 0) as [Hr0|Hr0];
      destruct (Z.eqb_spec ((m / 2 ^ (Z.pos p - 1)) mod 2) 1) as [Hh1|Hh1]; simpl;
      symmetry; (apply negb_true_iff, Z.eqb_neq || apply negb_false_iff, Z.eqb_eq); nia.
Qed.

Lemma rne_shr p m :
  0 ≤ m →
  let mrs := SpecFloat.iter_pos shr_1 p (Build_shr_record m false false) in
  round_nearest_even (shr_m mrs) (loc_of_shr_record mrs) = rne (Z.pos p) m.
Proof.
  intros Hm mrs. pose proof (shr_rs_iter p m Hm) as [Hr Hs]. fold mrs in Hr, Hs.
  pose proof (shr_m_iter p (Build_shr_record m false false) Hm) as Hq. fold mrs in Hq.
  simpl in Hq. unfold rne.
  assert (m / 2 ^ Z.pos p = m / 2 ^ (Z.pos p - 1) / 2) as Hdiv.
  { rewrite Z.div_div by (try apply Z.pow_pos_nonneg; lia).
    f_equal. apply pow2_pred. lia. }
  rewrite <-Hdiv, <-Hq.
  destruct mrs as [q r s]. simpl in *. subst r s.
  destruct (Z.odd _); destruct (_ =? 0); simpl; done.
Qed.

Lemma rne_bounds n x : 1 ≤ n → 0 ≤ x → x / 2 ^ n ≤ rne n x ≤ x / 2 ^ n + 1.
Proof.
  intros Hn Hx. unfold rne.
  assert (x / 2 ^ n = x / 2 ^ (n - 1) / 2) as ->.
  { rewrite Z.div_div by (try apply Z.pow_pos_nonneg; lia).
    f_equal. apply pow2_pred. lia. }
  destruct (Z.odd _); [|lia]. destruct (_ =? 0); [|lia]. destruct (Z.even _); lia.
Qed.

Lemma rne_exact n a : 1 ≤ n → rne n (a * 2 ^ n) = a.
Proof.
  intros Hn. unfold rne.
  assert (0 < 2 ^ (n - 1)) as Hpow by (apply Z.pow_pos_nonneg; lia).
  replace (a * 2 ^ n) with (a * 2 * 2 ^ (n - 1)).
  2:{ rewrite (pow2_pred n) by lia. ring. }
  rewrite Z.div_mul by lia.
  rewrite Z.odd_mul. simpl. rewrite andb_false_r. by rewrite Z.div_mul.
Qed.

Lemma rne_scale n k x : 1 ≤ n → 0 ≤ k → rne (n + k) (x * 2 ^ k) = rne n x.
Proof.
  intros Hn Hk. unfold rne.
  assert (0 < 2 ^ (n - 1)) as Hpow by (apply Z.pow_pos_nonneg; lia).
  assert (0 < 2 ^ k) as Hpowk by (apply Z.pow_pos_nonneg; lia).
  replace (2 ^ (n + k - 1)) with (2 ^ (n - 1) * 2 ^ k).
  2:{ rewrite <-Z.pow_add_r by lia. f_equal. lia. }
  rewrite Z.div_mul_cancel_r by lia.
  rewrite Z.mul_mod_distr_r by lia.
  destruct (Z.odd _); [|done].
  destruct (Z.eqb_spec (x mod 2 ^ (n - 1)) 0) as [->|Hne]; [done|].
  rewrite (proj2 (Z.eqb_neq _ _)); [done|]. nia.
Qed.

Lemma rne_mono n x y : 1 ≤ n → 0 ≤ x → x ≤ y → rne n x ≤ rne n y.
Proof.
  intros Hn Hx Hxy. unfold rne.
  assert (0 < 2 ^ (n - 1)) as Hpow by (apply Z.pow_pos_nonneg; lia).
  pose proof (Z.div_le_mono x y (2 ^ (n - 1)) Hpow Hxy) as Hh.
  pose proof (Z.div_mod x (2 ^ (n - 1)) ltac:(lia)) as Ex.
  pose proof (Z.div_mod y (2 ^ (n - 1)) ltac:(lia)) as Ey.
  pose proof (Z.mod_pos_bound x (2 ^ (n - 1)) Hpow) as Bx.
  pose proof (Z.mod_pos_bound y (2 ^ (n - 1)) Hpow) as By.
  set (hx := x / 2 ^ (n - 1)) in *. set (hy := y / 2 ^ (n - 1)) in *.
  set (rx := x mod 2 ^ (n - 1)) in *. set (ry := y mod 2 ^ (n - 1)) in *.
  pose proof (Z.div_mod hx 2 ltac:(lia)) as Eqx.
  pose proof (Z.div_mod hy 2 ltac:(lia)) as Eqy.
  pose proof (Z.mod_pos_bound hx 2 ltac:(lia)).
  pose proof (Z.mod_pos_bound hy 2 ltac:(lia)).
  rewrite !Zodd_mod.
  destruct (Z.eqb_spec (hx mod 2) 1) as [Ox|Ox];
    destruct (Z.eqb_spec (hy mod 2) 1) as [Oy|Oy];
    destruct (Z.eqb_spec rx 0) as [Rx|Rx];
    destruct (Z.eqb_spec ry 0) as [Ry|Ry];
    destruct (Z.even (hx / 2)) eqn:Evx;
    destruct (Z.even (hy / 2)) eqn:Evy; try nia.
  all: assert (hx = hy ∨ hx < hy) as [Heq|Hlt] by lia;
    [rewrite Heq in *; rewrite Evx in Evy; try discriminate; nia|nia].
Qed.

(** ** Values in units of [2 ^ f_emin] *)

Lemma pow2_pos n : 0 ≤ n → 0 < 2 ^ n.
Proof. intros. apply Z.pow_pos_nonneg; lia. Qed.

Lemma pow2_le a b : 0 ≤ a ≤ b → 2 ^ a ≤ 2 ^ b.
Proof. intros. apply Z.pow_le_mono_r; lia. Qed.

Lemma shr_exact m e n :
  0 ≤ n → 0 ≤ m →
  ∃ mrs', shr (Build_shr_record m false false) e n = (mrs', e + n) ∧
          shr_m mrs' = m / 2 ^ n.
Proof.
  intros Hn Hm. destruct (decide (n = 0)) as [->|Hne].
  - eexists. rewrite shr_nonpos by lia. split; [by rewrite Z.add_0_r|].
    simpl. by rewrite Z.div_1_r.
  - destruct (shr_pos (Build_shr_record m false false) e n) as (mrs' & -> & Hmrs);
      [lia|done|]. by eexists.
Qed.

Lemma second_stage s r1 E :
  0 < r1 → f_emin ≤ E →
  0 ≤ f_fexp (Zdigits2 r1 + E) - E →
  r1 mod 2 ^ (f_fexp (Zdigits2 r1 + E) - E) = 0 →
  rounds_to s (r1 * 2 ^ (E - f_emin))
    (let '(mrs'', e'') := shr_fexp prec emax r1 E loc_Exact in
     match shr_m mrs'' with
     | Z0 => S754_zero s
     | Zpos m => if Z.leb e'' (emax - prec) then S754_finite s m e'' else S754_infinity s
     | _ => S754_nan
     end).
Proof.
  intros Hr HE Hn2 Hdiv. unfold shr_fexp. rewrite fexp_eq. simpl shr_record_of_loc.
  set (n2 := f_fexp (Zdigits2 r1 + E) - E) in *.
  destruct (shr_exact r1 E n2) as (mrs' & -> & Hm); [done|lia|].
  rewrite Hm. clear mrs' Hm.
  pose proof (pow2_pos n2 Hn2) as Hp2.
  pose proof (Z.div_mod r1 (2 ^ n2) ltac:(lia)) as Hr1. rewrite Hdiv, Z.add_0_r in Hr1.
  set (m2 := r1 / 2 ^ n2) in *.
  assert (0 < m2) as Hm2 by nia.
  assert (Zdigits2 r1 = Zdigits2 m2 + n2) as HD.
  { rewrite Hr1, Z.mul_comm. by apply Zdigits2_mul_pow. }
  assert (E + n2 = f_fexp (Zdigits2 m2 + (E + n2))) as Hcanon.
  { unfold n2. replace (Zdigits2 m2 + _) with (Zdigits2 r1 + E) by lia. lia. }
  assert (r1 * 2 ^ (E - f_emin) = m2 * 2 ^ (E + n2 - f_emin)) as HV.
  { replace (E + n2 - f_emin) with (n2 + (E - f_emin)) by lia.
    rewrite Z.pow_add_r by lia. rewrite Hr1 at 1. ring. }
  rewrite HV. clear HV Hr1 HD Hdiv.
  set (e2 := E + n2) in *. assert (f_emin ≤ e2) as He2 by lia. clearbody e2 m2. clear n2 Hn2 Hp2 Hr.
  pose proof (Zdigits2_spec m2 Hm2) as [Hlo Hhi].
  pose proof (Zdigits2_pos m2 Hm2) as HDp.
  unfold f_fexp in Hcanon.
  destruct m2 as [|p|p]; try lia.
  destruct (Z.leb_spec e2 (emax - prec)) as [Hle|Hgt].
  - left. split.
    + unfold overflow_units.
      assert (Zdigits2 (Z.pos p) ≤ prec) as HDle by lia.
      eapply Z.lt_le_trans; [apply Z.mul_lt_mono_pos_r; [apply pow2_pos; lia|exact Hhi]|].
      rewrite <-Z.pow_add_r by lia. apply pow2_le. lia.
    + eexists _, _. split; [done|]. split_and!; lia.
  - right. split; [|done]. unfold overflow_units.
    assert (Zdigits2 (Z.pos p) = prec) as HDeq.
    { assert (f_emin ≤ emax - prec) by (vm_compute; discriminate). lia. }
    rewrite HDeq in Hlo.
    eapply Z.le_trans; [|apply Z.mul_le_mono_nonneg_r; [apply Z.lt_le_incl, pow2_pos; lia|exact Hlo]].
    rewrite <-Z.pow_add_r by (unfold prec; lia). apply pow2_le.
    unfold f_emin, prec, emax in *. lia.
Qed.

Lemma pos_iter_xO m d : Z.pos (Pos.iter xO m d) = Z.pos m * 2 ^ Z.pos d.
Proof.
  induction d as [|d IH] using Pos.peano_ind.
  - simpl. lia.
  - rewrite Pos.iter_succ, Pos2Z.inj_xO, IH, Pos2Z.inj_succ, Z.pow_succ_r by lia. ring.
Qed.

Lemma shl_align_spec m e e' :
  ∃ mz ez, shl_align m e e' = (mz, ez) ∧ ez = Z.min e e' ∧
           Z.pos mz * 2 ^ (ez - Z.min e e') = Z.pos m * 2 ^ (e - Z.min e e').
Proof.
  unfold shl_align. destruct (e' - e) as [|d|d] eqn:Hd.
  - eexists _, _. split; [done|]. split; [lia|done].
  - eexists _, _. split; [done|]. split; [lia|done].
  - eexists _, _. split; [done|]. split; [lia|].
    rewrite pos_iter_xO. replace (Z.min e e') with e' by lia.
    rewrite Z.sub_diag, Z.mul_1_r. do 2 f_equal. lia.
Qed.

Lemma shr_fexp_exact m e :
  0 ≤ m →
  let n := f_fexp (Zdigits2 m + e) - e in
  ∃ mrs', shr_fexp prec emax m e loc_Exact = (mrs', e + Z.max n 0) ∧
    round_nearest_even (shr_m mrs') (loc_of_shr_record mrs') =
      if 0 <? n then rne n m else m.
Proof.
  intros Hm n. unfold shr_fexp. rewrite fexp_eq. fold n. simpl shr_record_of_loc.
  destruct (Z.ltb_spec 0 n) as [Hn|Hn].
  - destruct n as [|p|p] eqn:En; try lia. simpl shr.
    eexists. split; [f_equal; lia|]. by apply rne_shr.
  - rewrite shr_nonpos by done. eexists. split; [f_equal; lia|]. done.
Qed.

Lemma nsh_units m k :
  0 < m → 0 ≤ k → nsh (m * 2 ^ k) = f_fexp (Zdigits2 m + (k + f_emin)) - f_emin.
Proof.
  intros Hm Hk. unfold nsh. rewrite Zdigits2_mul_pow by done. unfold f_fexp. lia.
Qed.

Lemma binary_round_sem s m e :
  f_emin ≤ e →
  rounds_to s (round_units (Z.pos m * 2 ^ (e - f_emin))) (binary_round prec emax s m e).
Proof.
  intros He. unfold binary_round. rewrite fexp_eq.
  change (Z.pos (digits2_pos m)) with (Zdigits2 (Z.pos m)).
  set (E := f_fexp (Zdigits2 (Z.pos m) + e)).
  assert (f_emin ≤ E) as HE by (unfold E, f_fexp; lia).
  destruct (shl_align_spec m e E) as (mz & ez & -> & Hez & Hmz).
  assert (Zdigits2 (Z.pos mz) + ez = Zdigits2 (Z.pos m) + e) as HD.
  { assert (Zdigits2 (Z.pos mz * 2 ^ (ez - Z.min e E)) =
            Zdigits2 (Z.pos m * 2 ^ (e - Z.min e E))) as HDD by (by rewrite Hmz).
    rewrite !Zdigits2_mul_pow in HDD by lia. lia. }
  unfold binary_round_aux.
  destruct (shr_fexp_exact (Z.pos mz) ez) as (mrs' & -> & ->); [lia|].
  rewrite HD. fold E.
  replace (ez + Z.max (E - ez) 0) with E by lia.
  unfold round_units. rewrite nsh_units by lia.
  replace (e - f_emin + f_emin) with e by lia. fold E.
  destruct (Z.ltb_spec 0 (E - ez)) as [Hn1|Hn1].
  - (* the mantissa is too long and is rounded *)
    assert (ez = e) as -> by lia.
    replace (Z.min e E) with e in Hmz by lia.
    rewrite Z.sub_diag, !Z.mul_1_r in Hmz. injection Hmz as ->.
    assert (E = Zdigits2 (Z.pos m) + e - prec) as HEeq by (unfold E, f_fexp in *; lia).
    set (n1 := E - e) in *.
    rewrite (proj2 (Z.eqb_neq _ _)) by lia.
    replace (E - f_emin) with (n1 + (e - f_emin)) by lia.
    rewrite rne_scale by lia.
    pose proof (rne_bounds n1 (Z.pos m) ltac:(lia) ltac:(lia)) as Hb.
    pose proof (Zdigits2_spec (Z.pos m) ltac:(lia)) as [Hlo Hhi].
    assert (2 ^ (prec - 1) ≤ Z.pos m / 2 ^ n1 < 2 ^ prec) as [Hqlo Hqhi].
    { pose proof (pow2_pos n1 ltac:(lia)).
      replace (Zdigits2 (Z.pos m) - 1) with (prec - 1 + n1) in Hlo by lia.
      replace (Zdigits2 (Z.pos m)) with (prec + n1) in Hhi by lia.
      rewrite Z.pow_add_r in Hlo, Hhi by (unfold prec; lia). split.
      - apply Z.div_le_lower_bound; lia.
      - apply Z.div_lt_upper_bound; lia. }
    set (r1 := rne n1 (Z.pos m)) in *.
    replace (n1 + (e - f_emin)) with (E - f_emin) by (unfold n1; lia).
    assert (0 < 2 ^ (prec - 1)) by (apply pow2_pos; unfold prec; lia).
    destruct (decide (r1 < 2 ^ prec)) as [Hlt|Hge].
    + assert (Zdigits2 r1 = prec) as HDr by (apply Zdigits2_unique; lia).
      apply second_stage; [lia|done|..]; rewrite HDr; unfold f_fexp.
      * lia.
      * replace (_ - E) with 0 by lia. apply Z.mod_1_r.
    + assert (r1 = 2 ^ prec) as Hr1 by lia.
      assert (Zdigits2 r1 = prec + 1) as HDr.
      { apply Zdigits2_unique; [lia|]. rewrite Hr1.
        replace (prec + 1 - 1) with prec by lia. split; [lia|].
        apply Z.pow_lt_mono_r; unfold prec; lia. }
      apply second_stage; [lia|done|..]; rewrite HDr; unfold f_fexp.
      * lia.
      * replace (_ - E) with 1 by lia. rewrite Hr1. done.
  - (* the mantissa fits *)
    assert (ez = E) as -> by lia.
    assert (Z.pos mz * 2 ^ (E - f_emin) =
            (if E - f_emin =? 0 then Z.pos m * 2 ^ (e - f_emin)
             else rne (E - f_emin) (Z.pos m * 2 ^ (e - f_emin)) * 2 ^ (E - f_emin))) as <-.
    { replace (Z.min e E) with E in Hmz by lia.
      rewrite Z.sub_diag, Z.mul_1_r in Hmz.
      assert (Z.pos m * 2 ^ (e - f_emin) = Z.pos mz * 2 ^ (E - f_emin)) as ->.
      { rewrite Hmz. replace (e - f_emin) with (e - E + (E - f_emin)) by lia.
        rewrite Z.pow_add_r by lia. ring. }
      destruct (Z.eqb_spec (E - f_emin) 0) as [Hz|Hz]; [done|].
      by rewrite rne_exact by lia. }
    apply second_stage; [lia|done|..]; rewrite HD; fold E.
    + lia.
    + rewrite Z.sub_diag. apply Z.mod_1_r.
Qed.

(** ** Extended values *)

Lemma overflow_units_pos : 0 < overflow_units.
Proof. apply pow2_pos. unfold f_emin, emax, prec. lia. Qed.

Lemma round_units_exact m k :
  0 < m → 0 ≤ k → Zdigits2 m ≤ prec → round_units (m * 2 ^ k) = m * 2 ^ k.
Proof.
  intros Hm Hk HD. unfold round_units, nsh. rewrite Zdigits2_mul_pow by done.
  destruct (Z.eqb_spec (Z.max (Zdigits2 m + k - prec) 0) 0) as [|Hne]; [done|].
  set (n := Z.max _ 0) in *.
  replace (m * 2 ^ k) with (m * 2 ^ (k - n) * 2 ^ n).
  2:{ rewrite <-Z.mul_assoc, <-Z.pow_add_r by lia. do 2 f_equal. lia. }
  by rewrite rne_exact by lia.
Qed.

Lemma round_units_nonneg X : 0 ≤ X → 0 ≤ round_units X.
Proof.
  intros HX. unfold round_units. destruct (_ =? 0) eqn:Hn; [done|].
  apply Z.eqb_neq in Hn. assert (1 ≤ nsh X) by (unfold nsh in *; lia).
  pose proof (rne_bounds (nsh X) X ltac:(done) HX) as [Hlo _].
  pose proof (pow2_pos (nsh X) ltac:(lia)).
  pose proof (Z.div_pos X (2 ^ nsh X) HX ltac:(lia)). nia.
Qed.

Lemma nsh_mono X Y : 0 < X → X ≤ Y → nsh X ≤ nsh Y.
Proof. intros HX HXY. unfold nsh. pose proof (Zdigits2_le X Y HX HXY). lia. Qed.

Lemma round_units_upper X : 0 < X → round_units X ≤ 2 ^ Zdigits2 X.
Proof.
  intros HX. pose proof (Zdigits2_spec X HX) as [Hlo Hhi].
  unfold round_units. destruct (Z.eqb_spec (nsh X) 0) as [|Hne]; [lia|].
  assert (1 ≤ nsh X ∧ nsh X = Zdigits2 X - prec) as [Hn Hn'] by (unfold nsh in *; lia).
  pose proof (rne_bounds (nsh X) X Hn ltac:(lia)) as [_ Hub].
  pose proof (pow2_pos (nsh X) ltac:(lia)) as Hp.
  assert (X / 2 ^ nsh X < 2 ^ prec) as Hq.
  { apply Z.div_lt_upper_bound; [done|]. rewrite <-Z.pow_add_r by (unfold prec; lia).
    by replace (nsh X + prec) with (Zdigits2 X) by lia. }
  replace (2 ^ Zdigits2 X) with (2 ^ prec * 2 ^ nsh X).
  2:{ rewrite <-Z.pow_add_r by (unfold prec; lia). f_equal. lia. }
  apply Z.mul_le_mono_nonneg_r; lia.
Qed.

Lemma round_units_lower X : 0 < X → 2 ^ (Zdigits2 X - 1) ≤ round_units X.
Proof.
  intros HX. pose proof (Zdigits2_spec X HX) as [Hlo Hhi].
  unfold round_units. destruct (Z.eqb_spec (nsh X) 0) as [|Hne]; [lia|].
  assert (1 ≤ nsh X ∧ nsh X = Zdigits2 X - prec) as [Hn Hn'] by (unfold nsh in *; lia).
  pose proof (rne_bounds (nsh X) X Hn ltac:(lia)) as [Hlb _].
  pose proof (pow2_pos (nsh X) ltac:(lia)) as Hp.
  assert (2 ^ (prec - 1) ≤ X / 2 ^ nsh X) as Hq.
  { apply Z.div_le_lower_bound; [done|]. rewrite <-Z.pow_add_r by (unfold prec; lia).
    by replace (nsh X + (prec - 1)) with (Zdigits2 X - 1) by lia. }
  replace (2 ^ (Zdigits2 X - 1)) with (2 ^ (prec - 1) * 2 ^ nsh X).
  2:{ rewrite <-Z.pow_add_r by (unfold prec; lia). f_equal. lia. }
  apply Z.mul_le_mono_nonneg_r; lia.
Qed.

Lemma round_units_mono X Y : 0 < X → X ≤ Y → round_units X ≤ round_units Y.
Proof.
  intros HX HXY. pose proof (nsh_mono X Y HX HXY) as Hn.
  destruct (decide (nsh X = nsh Y)) as [Heq|Hne].
  - unfold round_units. rewrite <-Heq.
    destruct (Z.eqb_spec (nsh X) 0) as [|Hnz]; [done|].
    apply Z.mul_le_mono_nonneg_r; [apply Z.lt_le_incl, pow2_pos; unfold nsh; lia|].
    apply rne_mono; unfold nsh in *; lia.
  - etrans; [apply round_units_upper; done|].
    etrans; [|apply round_units_lower; lia].
    apply pow2_le. pose proof (Zdigits2_pos X HX). unfold nsh in *. lia.
Qed.

Lemma round_signed_mono v w : v ≤ w → round_signed v ≤ round_signed w.
Proof.
  intros Hvw. unfold round_signed.
  destruct (Z.lt_trichotomy v 0) as [Hv|[->|Hv]];
    destruct (Z.lt_trichotomy w 0) as [Hw|[->|Hw]]; try lia.
  - rewrite !Z.sgn_neg, !Z.abs_neq by lia.
    pose proof (round_units_mono (- w) (- v) ltac:(lia) ltac:(lia)). lia.
  - rewrite Z.sgn_neg, Z.abs_neq by lia. simpl.
    pose proof (round_units_nonneg (- v) ltac:(lia)). lia.
  - rewrite Z.sgn_neg, Z.sgn_pos, Z.abs_neq, Z.abs_eq by lia.
    pose proof (round_units_nonneg (- v) ltac:(lia)).
    pose proof (round_units_nonneg w ltac:(lia)). lia.
  - rewrite (Z.sgn_pos w), (Z.abs_eq w), Z.mul_1_l by lia.
    change (Z.sgn 0) with 0. rewrite Z.mul_0_l.
    apply round_units_nonneg. lia.
  - rewrite !Z.sgn_pos, !Z.abs_eq by lia.
    pose proof (round_units_mono v w ltac:(lia) ltac:(lia)). lia.
Qed.

Lemma clamp_opp V : clamp (- V) = xneg (clamp V).
Proof.
  unfold clamp. pose proof overflow_units_pos.
  destruct (Z.leb_spec overflow_units (- V)); destruct (Z.leb_spec (- V) (- overflow_units));
    destruct (Z.leb_spec overflow_units V); destruct (Z.leb_spec V (- overflow_units));
    simpl; try lia; done.
Qed.

Lemma clamp_mono V' V : V' ≤ V → xle (clamp V') (clamp V).
Proof.
  intros HV. unfold clamp, xle. pose proof overflow_units_pos.
  destruct (Z.leb_spec overflow_units V); [by right; right; left|].
  destruct (Z.leb_spec overflow_units V'); [lia|].
  destruct (Z.leb_spec V' (- overflow_units)); [by right; left|].
  destruct (Z.leb_spec V (- overflow_units)); [lia|].
  right; right; right. by eexists _, _.
Qed.

Lemma xadd_mono a y' y : xle y' y → xle (xadd a y') (xadd a y).
Proof.
  intros [->|[->|[->|(v' & v & -> & -> & Hv)]]].
  - left. by destruct a.
  - destruct a; simpl; [by left|by right; left|by right; left|by left].
  - destruct a, y'; simpl; unfold xle; auto.
  - destruct a; simpl; unfold xle; auto.
    apply clamp_mono, round_signed_mono. lia.
Qed.

Lemma xpos_mono u' u : xle u' u → xpos u' → xpos u.
Proof.
  intros [->|[->|[->|(v' & v & -> & -> & Hv)]]] [Hp|(w & Hp & Hw)]; try done.
  - by left.
  - by left.
  - injection Hp as ->. right. eexists. split; [done|lia].
Qed.

(** ** What the operations compute *)

Lemma units_finite_bound m e :
  Zdigits2 (Z.pos m) ≤ prec → f_emin ≤ e ≤ emax - prec →
  0 < Z.pos m * 2 ^ (e - f_emin) < overflow_units.
Proof.
  intros HD He. pose proof (Zdigits2_spec (Z.pos m) ltac:(lia)) as [_ Hhi].
  pose proof (pow2_pos (e - f_emin) ltac:(lia)).
  pose proof (Zdigits2_pos (Z.pos m) ltac:(lia)).
  split; [lia|]. unfold overflow_units.
  eapply Z.lt_le_trans; [apply Z.mul_lt_mono_pos_r; [done|exact Hhi]|].
  rewrite <-Z.pow_add_r by lia. apply pow2_le. lia.
Qed.

Lemma clamp_fin V : - overflow_units < V < overflow_units → clamp V = XFin V.
Proof.
  intros HV. unfold clamp.
  destruct (Z.leb_spec overflow_units V); [lia|].
  destruct (Z.leb_spec V (- overflow_units)); [lia|done].
Qed.

Lemma clamp_pos V : overflow_units ≤ V → clamp V = XPos.
Proof. intros HV. unfold clamp. by rewrite (proj2 (Z.leb_le _ _)). Qed.

Lemma clamp_neg V : V ≤ - overflow_units → clamp V = XNeg.
Proof.
  intros HV. unfold clamp. pose proof overflow_units_pos.
  destruct (Z.leb_spec overflow_units V); [lia|]. by rewrite (proj2 (Z.leb_le _ _)).
Qed.

Lemma clamp_round_repr s m e :
  repr (S754_finite s m e) → clamp (round_signed (units s m e)) = XFin (units s m e).
Proof.
  intros [HD He]. pose proof (units_finite_bound m e HD He) as Hb.
  assert (round_signed (units s m e) = units s m e) as ->.
  { unfold round_signed, units. destruct s; simpl cond_Zopp.
    - rewrite Z.sgn_neg, Z.abs_neq by lia. rewrite Z.opp_involutive.
      rewrite round_units_exact by lia. lia.
    - rewrite Z.sgn_pos, Z.abs_eq by lia.
      rewrite round_units_exact by lia. lia. }
  apply clamp_fin. unfold units. destruct s; simpl cond_Zopp; lia.
Qed.

Lemma binary_normalize_sem M e :
  f_emin ≤ e →
  sem (binary_normalize prec emax M e false) = clamp (round_signed (M * 2 ^ (e - f_emin))).
Proof.
  intros He. pose proof (pow2_pos (e - f_emin) ltac:(lia)) as Hp.
  pose proof overflow_units_pos as HT.
  destruct M as [|m|m]; simpl binary_normalize.
  - done.
  - unfold round_signed. rewrite Z.sgn_pos, Z.abs_eq, Z.mul_1_l by lia.
    destruct (binary_round_sem false m e He) as [(HV & m' & e' & -> & He' & HD & <-)|[HV ->]].
    + simpl sem. unfold units. simpl cond_Zopp.
      pose proof (units_finite_bound m' e' HD He').
      by rewrite clamp_fin by lia.
    + simpl. by rewrite clamp_pos.
  - unfold round_signed. change (Z.neg m) with (- Z.pos m).
    rewrite Z.mul_opp_l, Z.sgn_neg, Z.abs_neq, Z.opp_involutive by lia.
    destruct (binary_round_sem true m e He) as [(HV & m' & e' & -> & He' & HD & <-)|[HV ->]].
    + simpl sem. unfold units. simpl cond_Zopp.
      pose proof (units_finite_bound m' e' HD He').
      rewrite clamp_fin by lia. f_equal; lia.
    + simpl. by rewrite clamp_neg by lia.
Qed.

Lemma binary_round_repr s m e : repr (binary_round prec emax s m e).
Proof.
  unfold binary_round. destruct (shl_align _ _ _). by apply binary_round_aux_repr.
Qed.

Lemma binary_normalize_repr M e : repr (binary_normalize prec emax M e false).
Proof. destruct M; simpl; [done|apply binary_round_repr..]. Qed.

Lemma f64_of_int_repr z : repr (f64_of_int z).
Proof. apply binary_normalize_repr. Qed.

Lemma f64_mul_repr x y : repr (f64_mul x y).
Proof.
  destruct x as [| | |sx mx ex], y as [| | |sy my ey]; try done.
  by apply binary_round_aux_repr.
Qed.

Lemma f64_add_repr x y : repr x → repr y → repr (f64_add x y).
Proof.
  intros Hx Hy.
  destruct x as [[]|[]| |sx mx ex], y as [[]|[]| |sy my ey]; try done.
  apply binary_normalize_repr.
Qed.

Lemma f64_sub_repr x y : repr x → repr y → repr (f64_sub x y).
Proof.
  intros Hx Hy.
  destruct x as [[]|[]| |sx mx ex], y as [[]|[]| |sy my ey]; try done.
  apply binary_normalize_repr.
Qed.

Lemma shl_align_units m e ez :
  f_emin ≤ ez ≤ e →
  Z.pos (shl_align m e ez).1 * 2 ^ (ez - f_emin) = Z.pos m * 2 ^ (e - f_emin).
Proof.
  intros He. destruct (shl_align_spec m e ez) as (mz & ez' & -> & -> & Hmz).
  simpl. replace (Z.min e ez) with ez in Hmz by lia.
  rewrite Z.sub_diag, Z.mul_1_r in Hmz. rewrite Hmz.
  replace (e - f_emin) with (e - ez + (ez - f_emin)) by lia.
  rewrite Z.pow_add_r by lia. ring.
Qed.

Lemma aligned_sum sx mx ex sy my ey :
  f_emin ≤ ex → f_emin ≤ ey →
  (cond_Zopp sx (Z.pos (shl_align mx ex (Z.min ex ey)).1) +
   cond_Zopp sy (Z.pos (shl_align my ey (Z.min ex ey)).1)) * 2 ^ (Z.min ex ey - f_emin) =
  units sx mx ex + units sy my ey.
Proof.
  intros Hx Hy. unfold units.
  rewrite <-(shl_align_units mx ex (Z.min ex ey)) by lia.
  rewrite <-(shl_align_units my ey (Z.min ex ey)) by lia.
  destruct sx, sy; simpl cond_Zopp; ring.
Qed.

Lemma f64_add_sem x y : repr x → repr y → sem (f64_add x y) = xadd (sem x) (sem y).
Proof.
  intros Hx Hy.
  destruct x as [[]|[]| |sx mx ex], y as [[]|[]| |sy my ey]; try done.
  - simpl. by rewrite Z.add_0_l, clamp_round_repr.
  - simpl. by rewrite Z.add_0_l, clamp_round_repr.
  - simpl. by rewrite Z.add_0_r, clamp_round_repr.
  - simpl. by rewrite Z.add_0_r, clamp_round_repr.
  - destruct Hx as [_ Hx], Hy as [_ Hy]. unfold f64_add, SFadd.
    rewrite binary_normalize_sem by lia.
    change (fst ?p) with (p.1). rewrite aligned_sum by lia. done.
Qed.

Lemma f64_sub_sem x y : repr x → repr y → sem (f64_sub x y) = xadd (sem x) (xneg (sem y)).
Proof.
  intros Hx Hy.
  destruct x as [[]|[]| |sx mx ex], y as [[]|[]| |sy my ey]; try done.
  - simpl. rewrite Z.add_0_l.
    assert (- units sy my ey = units (negb sy) my ey) as ->
      by (unfold units; destruct sy; simpl; lia).
    by rewrite clamp_round_repr.
  - simpl. rewrite Z.add_0_l.
    assert (- units sy my ey = units (negb sy) my ey) as ->
      by (unfold units; destruct sy; simpl; lia).
    by rewrite clamp_round_repr.
  - simpl. by rewrite Z.add_0_r, clamp_round_repr.
  - simpl. by rewrite Z.add_0_r, clamp_round_repr.
  - destruct Hx as [_ Hx], Hy as [_ Hy]. unfold f64_sub, SFsub.
    rewrite binary_normalize_sem by lia.
    change (fst ?p) with (p.1). simpl sem. simpl xneg. simpl xadd.
    do 2 f_equal.
    assert (- units sy my ey = units (negb sy) my ey) as ->
      by (unfold units; destruct sy; simpl; lia).
    rewrite <-aligned_sum by lia. f_equal.
    destruct sy; simpl cond_Zopp; lia.
Qed.

(** ** What the shear loop sees of a line value *)

Lemma sem_pos_finite f v :
  repr f → sem f = XFin v → 0 < v →
  ∃ m e, f = S754_finite false m e ∧ f_emin ≤ e ∧ v = Z.pos m * 2 ^ (e - f_emin).
Proof.
  intros Hf Hs Hv. destruct f as [|[]| |[] m e]; try done.
  - injection Hs as <-. lia.
  - injection Hs as <-. unfold units in Hv. simpl in Hv. destruct Hf as [_ [He _]].
    pose proof (pow2_pos (e - f_emin) ltac:(lia)). lia.
  - injection Hs as <-. destruct Hf as [_ [He _]]. by eexists _, _.
Qed.

Lemma f64_gt0_sem f : repr f → f64_gt0 f = true ↔ xpos (sem f).
Proof.
  intros Hf. unfold xpos. destruct f as [[]|[]| |[] m e]; simpl; split; try done.
  - intros [|(v & [= <-] & ?)]; [done|lia].
  - intros [|(v & [= <-] & ?)]; [done|lia].
  - intros [|(v & ? & ?)]; done.
  - intros _. by left.
  - intros [|(v & ? & ?)]; done.
  - intros [|(v & [= <-] & Hv)]; [done|]. exfalso. unfold units in Hv. simpl in Hv.
    destruct Hf as [_ [He _]]. pose proof (pow2_pos (e - f_emin) ltac:(lia)). lia.
  - intros _. right. eexists. split; [done|]. unfold units. simpl.
    destruct Hf as [_ [He _]]. pose proof (pow2_pos (e - f_emin) ltac:(lia)). lia.
Qed.

Lemma astype_int_units m e :
  f_emin ≤ e →
  astype_int (S754_finite false m e) =
    let t := Z.pos m * 2 ^ (e - f_emin) / 2 ^ (- f_emin) in
    if t <? 2 ^ 63 then t else INT64_MIN.
Proof.
  intros He. unfold astype_int.
  assert ((if 0 <=? e then Z.pos m * 2 ^ e else Z.pos m / 2 ^ (- e)) =
          Z.pos m * 2 ^ (e - f_emin) / 2 ^ (- f_emin)) as ->.
  { assert (0 ≤ - f_emin) by (unfold f_emin, emax, prec; lia).
    destruct (Z.leb_spec 0 e).
    - replace (e - f_emin) with (e + - f_emin) by lia.
      rewrite Z.pow_add_r, Z.mul_assoc, Z.div_mul by (try apply Z.pow_nonzero; lia). done.
    - replace (- f_emin) with (- e + (e - f_emin)) by lia.
      rewrite Z.pow_add_r by lia.
      rewrite Z.div_mul_cancel_r; [done|apply Z.pow_nonzero; lia..]. }
  set (t := _ / _).
  assert (0 ≤ t).
  { apply Z.div_pos; [|apply pow2_pos; unfold f_emin, emax, prec; lia].
    pose proof (pow2_pos (e - f_emin) ltac:(lia)). lia. }
  cbv zeta. rewrite (proj2 (Z.leb_le INT64_MIN t)); [done|].
  unfold INT64_MIN. lia.
Qed.

Lemma buffer_units_mono b b' :
  b ≤ b' →
  xle (xneg (sem (f64_of_int b'))) (xneg (sem (f64_of_int b))).
Proof.
  intros Hb. unfold f64_of_int.
  assert (f_emin ≤ 0) as He by (unfold f_emin, emax, prec; lia).
  rewrite !binary_normalize_sem by done.
  rewrite <-!clamp_opp. apply clamp_mono.
  pose proof (pow2_pos (0 - f_emin) ltac:(lia)).
  pose proof (round_signed_mono (b * 2 ^ (0 - f_emin)) (b' * 2 ^ (0 - f_emin)) ltac:(nia)).
  lia.
Qed.

Lemma line_sem_mono A C b b' :
  repr A → repr C → b ≤ b' →
  xle (sem (f64_add A (f64_sub C (f64_of_int b'))))
      (sem (f64_add A (f64_sub C (f64_of_int b)))).
Proof.
  intros HA HC Hb.
  rewrite !f64_add_sem, !f64_sub_sem by auto using f64_sub_repr, f64_of_int_repr.
  by apply xadd_mono, xadd_mono, buffer_units_mono.
Qed.

Lemma line_gt0_mono A C b b' :
  repr A → repr C → b ≤ b' →
  f64_gt0 (f64_add A (f64_sub C (f64_of_int b'))) = true →
  f64_gt0 (f64_add A (f64_sub C (f64_of_int b))) = true.
Proof.
  intros HA HC Hb.
  rewrite !f64_gt0_sem by auto using f64_add_repr, f64_sub_repr, f64_of_int_repr.
  apply xpos_mono. by apply line_sem_mono.
Qed.

Lemma line_astype_mono A C b b' :
  repr A → repr C → b ≤ b' →
  f64_gt0 (f64_add A (f64_sub C (f64_of_int b'))) = true →
  0 ≤ astype_int (f64_add A (f64_sub C (f64_of_int b))) →
  astype_int (f64_add A (f64_sub C (f64_of_int b'))) ≤
  astype_int (f64_add A (f64_sub C (f64_of_int b))).
Proof.
  intros HA HC Hb.
  pose proof (line_sem_mono A C b b' HA HC Hb) as Hle.
  assert (repr (f64_add A (f64_sub C (f64_of_int b')))) as Hr'
    by auto using f64_add_repr, f64_sub_repr, f64_of_int_repr.
  assert (repr (f64_add A (f64_sub C (f64_of_int b)))) as Hr
    by auto using f64_add_repr, f64_sub_repr, f64_of_int_repr.
  set (l' := f64_add A (f64_sub C (f64_of_int b'))) in *.
  set (l := f64_add A (f64_sub C (f64_of_int b))) in *.
  rewrite f64_gt0_sem by done. intros Hpos Hnn.
  destruct Hle as [Hn|[Hn|[Hp|(v' & v & Hv' & Hv & Hvv)]]].
  - rewrite Hn in Hpos. by destruct Hpos as [|(? & ? & ?)].
  - rewrite Hn in Hpos. by destruct Hpos as [|(? & ? & ?)].
  - destruct l as [|[]| |]; try done.
  - rewrite Hv' in Hpos. destruct Hpos as [|(? & [= <-] & Hv'pos)]; [done|].
    destruct (sem_pos_finite l' v' Hr' Hv' Hv'pos) as (m' & e' & El' & He' & Ev').
    destruct (sem_pos_finite l v Hr Hv ltac:(lia)) as (m & e & El & He & Ev).
    rewrite El, El' in *. rewrite !astype_int_units in * by done.
    cbv zeta in *. rewrite <-Ev, <-Ev' in *.
    assert (0 < 2 ^ (- f_emin)) as Hp by (apply pow2_pos; unfold f_emin, emax, prec; lia).
    pose proof (Z.div_le_mono v' v (2 ^ (- f_emin)) Hp Hvv) as Hdiv.
    destruct (Z.ltb_spec (v / 2 ^ (- f_emin)) (2 ^ 63)) as [Hlt|Hge].
    + rewrite (proj2 (Z.ltb_lt _ _)) by lia. done.
    + unfold INT64_MIN in Hnn. lia.
Qed.

(** ** Python ints beyond the float64 range *)

Lemma sem_infinite f : (∃ s, f = S754_infinity s) ↔ sem f = XPos ∨ sem f = XNeg.
Proof.
  split.
  - intros [[] ->]; simpl; auto.
  - destruct f as [|[]| |]; simpl; intros [?|?]; try done; eauto.
Qed.

Lemma f64_of_int_sem z : sem (f64_of_int z) = clamp (round_signed (z * 2 ^ (- f_emin))).
Proof.
  unfold f64_of_int. rewrite binary_normalize_sem by (unfold f_emin, emax, prec; lia).
  done.
Qed.

Lemma round_at_limit :
  round_signed (pyint_limit * 2 ^ (- f_emin)) = overflow_units ∧
  round_signed ((pyint_limit - 1) * 2 ^ (- f_emin)) < overflow_units.
Proof. split; [by vm_compute|]. by vm_compute. Qed.

Lemma round_signed_opp v : round_signed (- v) = - round_signed v.
Proof. unfold round_signed. rewrite Z.sgn_opp, Z.abs_opp. ring. Qed.

Lemma f64_of_pyint_in_range z :
  Z.abs z < pyint_limit → f64_of_pyint z = Ok (f64_of_int z).
Proof.
  intros Hz. destruct (f64_of_pyint_cases z) as [|[_ Hinf]]; [done|]. exfalso.
  apply sem_infinite in Hinf. rewrite f64_of_int_sem in Hinf.
  destruct round_at_limit as [_ Hlt].
  assert (0 < 2 ^ (- f_emin)) as Hp by (apply pow2_pos; unfold f_emin, emax, prec; lia).
  pose proof (round_signed_mono (z * 2 ^ (- f_emin)) ((pyint_limit - 1) * 2 ^ (- f_emin))
                ltac:(nia)) as Hhi.
  pose proof (round_signed_mono (- ((pyint_limit - 1) * 2 ^ (- f_emin))) (z * 2 ^ (- f_emin))
                ltac:(nia)) as Hlo.
  rewrite round_signed_opp in Hlo.
  rewrite clamp_fin in Hinf by lia. destruct Hinf as [Hinf|Hinf]; discriminate Hinf.
Qed.

Lemma f64_of_pyint_overflow z :
  pyint_limit ≤ Z.abs z → f64_of_pyint z = Raise OverflowError.
Proof.
  intros Hz. destruct round_at_limit as [Heq _].
  assert (0 < 2 ^ (- f_emin)) as Hp by (apply pow2_pos; unfold f_emin, emax, prec; lia).
  assert (∃ s, f64_of_int z = S754_infinity s) as [s Hs].
  { apply sem_infinite. rewrite f64_of_int_sem.
    destruct (Z.abs_spec z) as [[Hz0 Habs]|[Hz0 Habs]]; rewrite Habs in Hz.
    - left. apply clamp_pos. rewrite <-Heq. apply round_signed_mono. nia.
    - right. apply clamp_neg.
      pose proof (round_signed_mono (z * 2 ^ (- f_emin)) (- (pyint_limit * 2 ^ (- f_emin)))
                    ltac:(nia)) as Hle.
      rewrite round_signed_opp, Heq in Hle. done. }
  unfold f64_of_pyint. by rewrite Hs.
Qed.

(** ** The line under two buffers *)

Lemma shear_line_buffer low b slope yint :
  shear_line low b = Ok (slope, yint) →
  ∃ C, repr C ∧ yint = f64_sub C (f64_of_int b) ∧
       ∀ b' slope' yint', shear_line low b' = Ok (slope', yint') →
                          slope' = slope ∧ yint' = f64_sub C (f64_of_int b').
Proof.
  unfold shear_line. intros H.
  destruct (unpack2 (np_diff low)) as [[xdiffs ydiffs]|]; [|done]. simpl in *.
  destruct (index ydiffs 0) as [yd|]; [|done]. simpl in *.
  destruct (index xdiffs 0) as [xd|]; [|done]. simpl in *.
  destruct (index low 1) as [low1|]; [|done]. simpl in *.
  destruct (index low1 0) as [low10|]; [|done]. simpl in *.
  destruct (index low 0) as [low0|]; [|done]. simpl in *.
  destruct (index low0 0) as [low00|]; [|done]. simpl in *.
  eexists. split; [|split].
  - apply f64_sub_repr; [apply f64_of_int_repr|apply f64_mul_repr].
  - destruct (f64_of_pyint b) as [y|] eqn:Hb; [|done].
    apply f64_of_pyint_inv in Hb as ->. by injection H as _ <-.
  - intros b' slope' yint' H'.
    destruct (f64_of_pyint b') as [y|] eqn:Hb; [|done].
    apply f64_of_pyint_inv in Hb as ->. destruct (f64_of_pyint b); [|done].
    simpl in *. by simplify_eq.
Qed.

(** ** 3-D arrays *)

Lemma shaped_lookup {A} s (e : list (list (list A))) i plane :
  shaped s e → e !! i = Some plane → rect (dim1 s) (dim2 s) plane.
Proof. intros [_ Hall] Hi. exact (Forall_lookup_1 _ _ _ _ Hall Hi). Qed.

Lemma wf_np_ones s : wf_array (np_ones s).
Proof.
  split; simpl; [by rewrite length_replicate|].
  apply Forall_replicate, rect_replicate.
Qed.

Lemma rect_alter_zero_prefix n1 n2 stop x (plane : array2 bool) :
  rect n1 n2 plane → rect n1 n2 (alter (zero_prefix stop) x plane).
Proof.
  intros [Hlen Hall]. split; [by rewrite length_alter|].
  apply Forall_alter; [done|]. intros row _ Hrow. by rewrite length_zero_prefix.
Qed.

Lemma wf_setitem_zero dm x y dm' :
  wf_array dm → setitem_zero dm x y = Ok dm' → wf_array dm'.
Proof.
  intros [Hlen Hall]. unfold setitem_zero. case_decide; [|done]. intros [= <-].
  split; simpl; [by rewrite length_fmap|].
  apply Forall_fmap. eapply Forall_impl; [done|].
  intros plane Hplane. by apply rect_alter_zero_prefix.
Qed.

Lemma wf_shear_loop pairs dm dm' :
  wf_array dm → shear_loop pairs dm = Ok dm' → wf_array dm'.
Proof.
  revert dm. induction pairs as [|[x y] pairs IH]; intros dm Hwf Hloop; simpl in *.
  - by simplify_eq.
  - destruct (setitem_zero dm x y) as [dm1|] eqn:Hset; [|done].
    eauto using wf_setitem_zero.
Qed.

Lemma wf_rasterize s ys km : rasterize s ys = Ok km → wf_array km ∧ shape km = s.
Proof.
  intros Hkm. split.
  - eapply wf_shear_loop; [apply wf_np_ones|done].
  - by destruct (shear_loop_spec _ _ _ Hkm) as [-> _].
Qed.

Lemma rect_reverse {A} n1 n2 (p : array2 A) : rect n1 n2 p → rect n1 n2 (reverse p).
Proof. intros [Hlen Hall]. split; [by rewrite length_reverse|by apply Forall_reverse]. Qed.

Lemma rect_fmap_reverse {A} n1 n2 (p : array2 A) : rect n1 n2 p → rect n1 n2 (reverse <$> p).
Proof.
  intros [Hlen Hall]. split; [by rewrite length_fmap|].
  apply Forall_fmap. eapply Forall_impl; [done|].
  intros row Hrow. simpl. by rewrite length_reverse.
Qed.

Lemma shaped_flip {A} s (e : list (list (list A))) (b0 b1 b2 : bool) :
  shaped s e → shaped s (flip_elems b0 b1 b2 e).
Proof.
  intros He. unfold flip_elems.
  assert (shaped s ((if b0 then reverse else id) e)) as H0.
  { destruct b0; [|done]. destruct He as [Hlen Hall].
    split; [by rewrite length_reverse|by apply Forall_reverse]. }
  assert (shaped s ((if b1 then fmap reverse else id) ((if b0 then reverse else id) e))) as H1.
  { destruct b1; [|done]. destruct H0 as [Hlen Hall].
    split; [by rewrite length_fmap|].
    apply Forall_fmap. eapply Forall_impl; [done|]. intros p. apply rect_reverse. }
  destruct b2; [|done]. destruct H1 as [Hlen Hall].
  split; [by rewrite length_fmap|].
  apply Forall_fmap. eapply Forall_impl; [done|]. intros p. apply rect_fmap_reverse.
Qed.

(** *** Elementwise products *)

Lemma reverse_zip_with {A B C} (f : A → B → C) (a : list A) (b : list B) :
  length a = length b →
  reverse (zip_with f a b) = zip_with f (reverse a) (reverse b).
Proof.
  revert b. induction a as [|x a IH]; intros [|y b] Hlen; simplify_eq/=; [done|].
  rewrite !reverse_cons, zip_with_app by (rewrite !length_reverse; lia).
  by rewrite IH.
Qed.

Lemma fmap_zip_with_pointwise {A B C} (g : A → A) (g' : B → B) (g'' : C → C)
    (f : A → B → C) (a : list A) (b : list B) :
  (∀ i x y, a !! i = Some x → b !! i = Some y → g'' (f x y) = f (g x) (g' y)) →
  g'' <$> zip_with f a b = zip_with f (g <$> a) (g' <$> b).
Proof.
  intros Hpt. apply list_eq. intros i.
  rewrite list_lookup_fmap, !lookup_zip_with, !list_lookup_fmap.
  destruct (a !! i) as [x|] eqn:Hx; simpl; [|done].
  destruct (b !! i) as [y|] eqn:Hy; simpl; [|done].
  f_equal. eauto.
Qed.

Lemma shaped_zip3d {A B C} (f : A → B → C) s a b :
  shaped s a → shaped s b → shaped s (zip3d f a b).
Proof.
  intros [Hla Ha] [Hlb Hb]. split.
  - unfold zip3d. rewrite length_zip_with. lia.
  - apply Forall_lookup. intros i p. unfold zip3d. rewrite lookup_zip_with.
    intros Hp. destruct (a !! i) as [pa|] eqn:Hpa; simplify_eq/=.
    destruct (b !! i) as [pb|] eqn:Hpb; simplify_eq/=.
    apply rect_zip2d; [exact (Forall_lookup_1 _ _ _ _ Ha Hpa)|exact (Forall_lookup_1 _ _ _ _ Hb Hpb)].
Qed.

(** Flips commute with an elementwise product of arrays of one shape. *)
Lemma flip_zip3d {A B C} (f : A → B → C) s a b (b0 b1 b2 : bool) :
  shaped s a → shaped s b →
  flip_elems b0 b1 b2 (zip3d f a b) =
  zip3d f (flip_elems b0 b1 b2 a) (flip_elems b0 b1 b2 b).
Proof.
  intros Ha Hb.
  assert (∀ a b, shaped s a → shaped s b →
            fmap (fmap (M:=list) reverse) (zip3d f a b) =
            zip3d f (fmap (fmap (M:=list) reverse) a) (fmap (fmap (M:=list) reverse) b)) as H2.
  { clear. intros a b Ha Hb. unfold zip3d. apply fmap_zip_with_pointwise.
    intros i p q Hp Hq. apply fmap_zip_with_pointwise.
    intros j r r' Hr Hr'. apply reverse_zip_with.
    pose proof (shaped_lookup _ _ _ _ Ha Hp) as Hrp.
    pose proof (shaped_lookup _ _ _ _ Hb Hq) as Hrq.
    rewrite (rect_lookup _ _ _ _ _ Hrp Hr), (rect_lookup _ _ _ _ _ Hrq Hr'). done. }
  assert (∀ a b, shaped s a → shaped s b →
            fmap reverse (zip3d f a b) = zip3d f (fmap reverse a) (fmap reverse b)) as H1.
  { clear. intros a b Ha Hb. unfold zip3d. apply fmap_zip_with_pointwise.
    intros i p q Hp Hq. apply reverse_zip_with.
    pose proof (shaped_lookup _ _ _ _ Ha Hp) as [-> _].
    pose proof (shaped_lookup _ _ _ _ Hb Hq) as [-> _]. done. }
  assert (reverse (zip3d f a b) = zip3d f (reverse a) (reverse b)) as H0.
  { unfold zip3d. apply reverse_zip_with. destruct Ha as [-> _], Hb as [-> _]. done. }
  pose proof (shaped_flip s a b0 false false Ha) as Ha0.
  pose proof (shaped_flip s b b0 false false Hb) as Hb0.
  pose proof (shaped_flip s a b0 b1 false Ha) as Ha1.
  pose proof (shaped_flip s b b0 b1 false Hb) as Hb1.
  unfold flip_elems in *. simpl in *.
  destruct b0, b1, b2; simpl in *; rewrite ?H0, ?H1, ?H2; done.
Qed.

Lemma stretch_id {A} n (l : list A) : length l = n → stretch n l = l.
Proof. destruct l as [|x [|??]]; try done. by intros <-. Qed.

Lemma broadcast_to_shaped {A} s (e : list (list (list A))) :
  shaped s e → broadcast_to s e = e.
Proof.
  intros [Hlen Hall]. unfold broadcast_to.
  rewrite stretch_id by by rewrite length_fmap.
  rewrite <-(list_fmap_id e) at 2. apply Forall_fmap_ext_1.
  eapply Forall_impl; [done|]. intros plane [Hl Hrows]. simpl.
  rewrite stretch_id by by rewrite length_fmap.
  rewrite <-(list_fmap_id plane) at 2. apply Forall_fmap_ext_1.
  eapply Forall_impl; [done|]. intros row Hrow. by apply stretch_id.
Qed.

Lemma broadcast_shape_same s : broadcast_shape s s = Some s.
Proof.
  unfold broadcast_shape, broadcast_dim. rewrite !decide_True by done. simpl.
  by destruct s as [[??]?].
Qed.

(** With equal shapes the product is elementwise. *)
Lemma np_mul_same_shape dm anat :
  wf_array dm → wf_array anat → shape dm = shape anat →
  np_mul dm anat = Ok (NdArray (shape anat) (zip3d mask_mul (elems dm) (elems anat))).
Proof.
  intros Hdm Hanat Hshape. unfold np_mul, wf_array in *.
  rewrite Hshape in *. rewrite broadcast_shape_same.
  by rewrite !broadcast_to_shaped.
Qed.

Lemma zip3d_ones s (e : list (list (list Z))) :
  shaped s e →
  zip3d mask_mul (replicate (dim0 s) (replicate (dim1 s) (replicate (dim2 s) true))) e = e.
Proof.
  intros [Hlen Hall]. unfold zip3d. simpl.
  rewrite zip_with_replicate_l by lia.
  rewrite <-(list_fmap_id e) at 2. apply Forall_fmap_ext_1.
  eapply Forall_impl; [done|]. intros plane [Hl Hrows]. simpl.
  rewrite zip_with_replicate_l by lia.
  rewrite <-(list_fmap_id plane) at 2. apply Forall_fmap_ext_1.
  eapply Forall_impl; [done|]. intros row Hrow. simpl in *.
  rewrite zip_with_replicate_l by lia. apply list_fmap_id.
Qed.


(** ** Counting zeroed voxels *)

Lemma count_false_le (l' l : list bool) :
  length l' = length l →
  (∀ k, l' !! k = Some false → l !! k = Some false) →
  (count_false l' ≤ count_false l)%nat.
Proof.
  revert l. induction l' as [|b' l' IH]; intros [|b l] Hlen Himp; simplify_eq/=.
  { done. }
  unfold count_false in *. rewrite !filter_cons.
  assert (length (filter (λ b, b = false) l') ≤ length (filter (λ b, b = false) l))%nat.
  { apply IH; [done|]. intros k Hk. by apply (Himp (S k)). }
  assert (b' = false → b = false) as Hb.
  { intros ->. by specialize (Himp 0%nat eq_refl) as [= ->]. }
  destruct b', b; simpl; try lia; by specialize (Hb eq_refl).
Qed.

Lemma sum_list_le_pointwise {A B} (f : A → nat) (g : B → nat) (l : list A) (l' : list B) :
  length l = length l' →
  (∀ i x y, l !! i = Some x → l' !! i = Some y → (f x ≤ g y)%nat) →
  (sum_list (f <$> l) ≤ sum_list (g <$> l'))%nat.
Proof.
  revert l'. induction l as [|x l IH]; intros [|y l'] Hlen Hle; simplify_eq/=; [done|].
  specialize (IH l' Hlen (fun i => Hle (S i))).
  specialize (Hle 0%nat x y eq_refl eq_refl). lia.
Qed.

(** A keep-mask that is False only where another one is zeroes no more
    voxels than the other. *)
Lemma count_zeroed_le km' km :
  wf_array km' → wf_array km → shape km' = shape km →
  (∀ i j k, get3 km' i j k = Some false → get3 km i j k = Some false) →
  (count_zeroed km' ≤ count_zeroed km)%nat.
Proof.
  intros Hwf' Hwf Hshape Himp. unfold count_zeroed.
  pose proof Hwf' as [Hl' _]. pose proof Hwf as [Hl _]. rewrite Hshape in *.
  apply sum_list_le_pointwise; [lia|].
  intros i p' p Hp' Hp.
  pose proof (shaped_lookup _ _ _ _ Hwf' Hp') as Hr'.
  pose proof (shaped_lookup _ _ _ _ Hwf Hp) as Hr. rewrite Hshape in Hr'.
  apply sum_list_le_pointwise; [destruct Hr' as [-> _], Hr as [-> _]; done|].
  intros j r' r Hrow' Hrow.
  apply count_false_le.
  - by rewrite (rect_lookup _ _ _ _ _ Hr' Hrow'), (rect_lookup _ _ _ _ _ Hr Hrow).
  - intros k Hk. specialize (Himp i j k). unfold get3 in Himp.
    rewrite Hp', Hp in Himp. simpl in Himp. rewrite Hrow', Hrow in Himp. by apply Himp.
Qed.

(** *** Lines whose positive positions are an initial segment *)

Lemma positive_prefix_replicate ys m r :
  f64_gt0 <$> ys = replicate m true ++ replicate r false → positive_prefix ys.
Proof.
  intros Heq j j' y y' Hjj' Hy Hy' Hpos.
  assert ((f64_gt0 <$> ys) !! j' = Some true) as Hj'.
  { by rewrite list_lookup_fmap, Hy'; simpl; rewrite Hpos. }
  assert ((f64_gt0 <$> ys) !! j = Some (f64_gt0 y)) as Hj.
  { by rewrite list_lookup_fmap, Hy. }
  rewrite Heq in Hj, Hj'.
  destruct (decide (j' < m)%nat) as [Hlt|Hge].
  - rewrite lookup_app_l in Hj by (rewrite length_replicate; lia).
    apply lookup_replicate_1 in Hj as [? _]. done.
  - rewrite lookup_app_r in Hj' by (rewrite length_replicate; lia).
    by apply lookup_replicate_1 in Hj' as [? _].
Qed.

Lemma positive_in_axis_replicate n1 ys m r :
  f64_gt0 <$> ys = replicate m true ++ replicate r false → (m ≤ n1)%nat →
  positive_in_axis n1 ys.
Proof.
  intros Heq Hm j y Hy Hpos.
  assert ((f64_gt0 <$> ys) !! j = Some true) as Hj.
  { by rewrite list_lookup_fmap, Hy; simpl; rewrite Hpos. }
  rewrite Heq in Hj.
  destruct (decide (j < m)%nat) as [Hlt|Hge]; [lia|].
  rewrite lookup_app_r in Hj by (rewrite length_replicate; lia).
  by apply lookup_replicate_1 in Hj as [? _].
Qed.

(** No positive line value, no voxel zeroed. *)
Lemma rasterize_no_positive s ys :
  Forall (fun y => f64_gt0 y = false) ys → rasterize s ys = Ok (np_ones s).
Proof.
  intros Hall. unfold rasterize, shear_pairs, nonzero1.
  assert (∀ i, nonzero_from1 i (f64_gt0 <$> ys) = []) as ->; [|done].
  induction Hall as [|y ys Hy _ IH]; intros i; simpl; [done|]. by rewrite Hy.
Qed.

Lemma defaced_mask_inv mask buff km :
  defaced_mask mask buff = Ok km →
  ∃ slope yint,
    shear_line (convex_hull (edge_mask mask)) buff = Ok (slope, yint) ∧
    rasterize (shape mask) (line_values (dim2 (shape mask)) slope yint) = Ok km.
Proof.
  unfold defaced_mask.
  destruct (shear_line _ _) as [[slope yint]|]; [|done]. simpl. eauto.
Qed.

Lemma wf_defaced_mask mask buff km :
  defaced_mask mask buff = Ok km → wf_array km ∧ shape km = shape mask.
Proof.
  intros (slope & yint & _ & Hr)%defaced_mask_inv. by apply wf_rasterize in Hr.
Qed.

(** ** The keep-mask of a line whose positive positions are a prefix *)

(** With the slice stop spelled out: position [j] is one of the enumerated
    ones, its line value is positive, and [k] is below its truncation. *)
Lemma zeroed_at_line n2 slope yint j k :
  (k < n2)%nat → Z.of_nat n2 ≤ 2 ^ 63 →
  zeroed_at n2 (line_values n2 slope yint) j k =
  bool_decide (j < n2)%nat && f64_gt0 (line_at slope yint j)
  && bool_decide (Z.of_nat k < astype_int (line_at slope yint j)).
Proof.
  intros Hk Hn2. unfold zeroed_at. rewrite lookup_line_values.
  case_decide as Hjn; [|by rewrite (bool_decide_eq_false_2 (j < _)%nat)].
  rewrite (bool_decide_eq_true_2 (j < _)%nat) by done. simpl.
  destruct (f64_gt0 (line_at slope yint j)) eqn:Hpos; [|done]. simpl.
  apply bool_decide_ext, slice_stop_lt; [done..|]. by apply astype_int_pos.
Qed.

Lemma defaced_mask_prefix_spec (mask : ndarray Z) (buff : Z)
    (slope yint : float64) (m : nat) :
  shear_line (convex_hull (edge_mask mask)) buff = Ok (slope, yint) →
  f64_gt0 <$> line_values (dim2 (shape mask)) slope yint =
    replicate m true ++ replicate (dim2 (shape mask) - m) false →
  (m ≤ dim1 (shape mask))%nat →
  ∃ km,
    defaced_mask mask buff = Ok km ∧ shape km = shape mask ∧
    ∀ i j k,
      (i < dim0 (shape mask))%nat → (j < dim1 (shape mask))%nat →
      (k < dim2 (shape mask))%nat →
      get3 km i j k =
      Some (negb (zeroed_at (dim2 (shape mask))
                    (line_values (dim2 (shape mask)) slope yint) j k)).
Proof.
  intros Hline Hprefix Hm.
  destruct (rasterize_spec (shape mask) (line_values (dim2 (shape mask)) slope yint))
    as (km & Hkm & Hshape & Hget).
  { eauto using positive_prefix_replicate. }
  { eauto using positive_in_axis_replicate. }
  exists km. split_and!; [|done..].
  unfold defaced_mask. by rewrite Hline.
Qed.

(** ** Degenerate hulls *)

Lemma defaced_mask_empty_hull mask buff :
  lower_hull (nonzero_points (edge_mask mask)) = [] →
  defaced_mask mask buff = Raise ValueError.
Proof. intros Hh. unfold defaced_mask, convex_hull. by rewrite Hh. Qed.

Lemma defaced_mask_single_hull mask buff p0 :
  lower_hull (nonzero_points (edge_mask mask)) = [p0] →
  defaced_mask mask buff = Raise IndexError.
Proof. intros Hh. unfold defaced_mask, convex_hull. by rewrite Hh. Qed.

(** The hull points are array indices. *)
Lemma lower_hull_nonneg brain p : p ∈ lower_hull (nonzero_points brain) → 0 ≤ p.1.
Proof.
  intros Hp.
  pose proof (lower_hull_correct _ (nonzero_points_sorted brain)) as [Hsub _ _ _ _ _ _].
  apply (sublist_subseteq _ _ Hsub), nonzero_points_spec in Hp
    as (r & k & row & v & _ & _ & _ & ->).
  simpl. lia.
Qed.

(** A vertical leading segment: no line value is positive and the keep-mask
    stays all True. *)
Lemma defaced_mask_vertical mask buff p0 p1 rest :
  lower_hull (nonzero_points (edge_mask mask)) = p0 :: p1 :: rest →
  p0.1 = p1.1 →
  Z.abs buff < pyint_limit →
  defaced_mask mask buff = Ok (np_ones (shape mask)).
Proof.
  intros Hh Hx Hb. unfold defaced_mask, convex_hull.
  rewrite Hh, shear_line_hull by by apply f64_of_pyint_in_range.
  cbn [mbind result_bind].
  apply rasterize_no_positive, Forall_lookup. intros p y.
  rewrite lookup_line_values. case_decide; [|done]. intros [= <-].
  rewrite line_at_vertical; [done..|].
  apply (lower_hull_nonneg (edge_mask mask)). rewrite Hh. by left.
Qed.

(** A buffer beyond the float64 range stops the computation of the line. *)
Lemma defaced_mask_overflow mask buff p0 p1 rest :
  lower_hull (nonzero_points (edge_mask mask)) = p0 :: p1 :: rest →
  pyint_limit ≤ Z.abs buff →
  defaced_mask mask buff = Raise OverflowError.
Proof.
  intros Hh Hb. unfold defaced_mask, convex_hull.
  by rewrite Hh, shear_line_overflow by by apply f64_of_pyint_overflow.
Qed.

(** ** The pipeline *)

Section Pipeline.

Context {affine_t header_t : Type}.
Variable aff2axcodes : affine_t → string * string * string.
Variable py_int : string → option Z.
Variable file_names : image affine_t header_t → string → option (list string).

Implicit Types anat_img mask_img out : image affine_t header_t.
Implicit Types w : world affine_t header_t.

(** [orient_xPS] never fails: it flips along at most the three axes. *)
Lemma orient_xPS_ok (img : image affine_t header_t) hemi :
  ∃ b0 b1 b2 : bool,
    orient_xPS aff2axcodes img hemi =
    Ok (NdArray (shape (dataobj img)) (flip_elems b0 b1 b2 (elems (dataobj img))),
        [b0; b1; b2]).
Proof.
  unfold orient_xPS. destruct (aff2axcodes (affine img)) as [[c0 c1] c2].
  eexists _, _, _. by rewrite flip_axes_3.
Qed.

Lemma quickshear_unfold anat_img mask_img buff :
  ∃ a0 a1 a2 m0 m1 m2 : bool,
    orient_xPS aff2axcodes anat_img "R" =
      Ok (NdArray (img_shape anat_img) (flip_elems a0 a1 a2 (elems (dataobj anat_img))),
          [a0; a1; a2]) ∧
    orient_xPS aff2axcodes mask_img "R" =
      Ok (NdArray (img_shape mask_img) (flip_elems m0 m1 m2 (elems (dataobj mask_img))),
          [m0; m1; m2]) ∧
    quickshear aff2axcodes anat_img mask_img buff =
      (dm ← defaced_mask
              (NdArray (img_shape mask_img) (flip_elems m0 m1 m2 (elems (dataobj mask_img))))
              buff;
       prod ← np_mul dm
                (NdArray (img_shape anat_img)
                   (flip_elems a0 a1 a2 (elems (dataobj anat_img))));
       out ← flip_axes prod [a0; a1; a2];
       Ok (Image out (affine anat_img) (header anat_img))).
Proof.
  destruct (orient_xPS_ok anat_img "R") as (a0 & a1 & a2 & Ha).
  destruct (orient_xPS_ok mask_img "R") as (m0 & m1 & m2 & Hm).
  exists a0, a1, a2, m0, m1, m2. split_and!; [done..|].
  unfold quickshear. by rewrite Ha, Hm.
Qed.

(** With volumes of one shape, [quickshear] returns the anatomical data
    multiplied by the keep-mask brought back to the anatomical's own
    orientation. *)
Lemma quickshear_inv anat_img mask_img buff out :
  wf_array (dataobj anat_img) → img_shape mask_img = img_shape anat_img →
  quickshear aff2axcodes anat_img mask_img buff = Ok out →
  ∃ anat mask mask_flip a0 a1 a2 km,
    orient_xPS aff2axcodes anat_img "R" = Ok (anat, [a0; a1; a2]) ∧
    orient_xPS aff2axcodes mask_img "R" = Ok (mask, mask_flip) ∧
    defaced_mask mask buff = Ok km ∧
    wf_array km ∧ shape km = img_shape anat_img ∧
    out = Image (NdArray (img_shape anat_img)
                   (zip3d mask_mul (flip_elems a0 a1 a2 (elems km))
                      (elems (dataobj anat_img))))
                (affine anat_img) (header anat_img).
Proof.
  intros Hwf Hshape Hq.
  destruct (quickshear_unfold anat_img mask_img buff)
    as (a0 & a1 & a2 & m0 & m1 & m2 & Ha & Hm & Heq).
  rewrite Heq in Hq. clear Heq.
  destruct (defaced_mask _ buff) as [km|] eqn:Hkm; [|done]. simpl in Hq.
  destruct (wf_defaced_mask _ _ _ Hkm) as [Hwfkm Hskm]. simpl in Hskm.
  rewrite Hshape in Hskm.
  rewrite np_mul_same_shape in Hq; [|done|by apply shaped_flip|done].
  simpl in Hq. rewrite flip_axes_3 in Hq. simpl in Hq. simplify_eq.
  eexists _, _, _, a0, a1, a2, km. split_and!; [done..|].
  do 2 f_equal.
  rewrite (flip_zip3d _ (img_shape anat_img)), flip_elems_involutive;
    [done| |by apply shaped_flip].
  by rewrite <-Hskm.
Qed.

(** [deface] on volumes of different shapes. *)
Lemma deface_mismatch anat_filename mask_filename defaced_filename buff w
    anat_img mask_img :
  files w !! anat_filename = Some anat_img →
  files w !! mask_filename = Some mask_img →
  img_shape anat_img ≠ img_shape mask_img →
  deface aff2axcodes file_names anat_filename mask_filename defaced_filename buff w =
  (Raise (SystemExit (-1)),
   log WARNING "Anatomical and mask images do not have the same dimensions." w).
Proof.
  intros Ha Hm Hne. unfold deface, nb_load. rewrite Ha, Hm.
  by rewrite decide_True.
Qed.

(** [deface] on volumes that [quickshear] accepts, under a name that suits
    the image. *)
Lemma deface_ok anat_filename mask_filename defaced_filename buff w
    anat_img mask_img new_anat names :
  files w !! anat_filename = Some anat_img →
  files w !! mask_filename = Some mask_img →
  img_shape anat_img = img_shape mask_img →
  quickshear aff2axcodes anat_img mask_img buff = Ok new_anat →
  file_names new_anat defaced_filename = Some names →
  deface aff2axcodes file_names anat_filename mask_filename defaced_filename buff w =
  (Ok (),
   log INFO ("Defaced file: " +:+ defaced_filename)
     (World (write_files names new_anat (files w)) (logged w))).
Proof.
  intros Ha Hm Heq Hq Hn. unfold deface, nb_load, to_filename. rewrite Ha, Hm.
  rewrite decide_False by (by intros ?). by rewrite Hq, Hn.
Qed.

(** [deface] under a name that does not suit the image: nothing is written. *)
Lemma deface_refused anat_filename mask_filename defaced_filename buff w
    anat_img mask_img new_anat :
  files w !! anat_filename = Some anat_img →
  files w !! mask_filename = Some mask_img →
  img_shape anat_img = img_shape mask_img →
  quickshear aff2axcodes anat_img mask_img buff = Ok new_anat →
  file_names new_anat defaced_filename = None →
  deface aff2axcodes file_names anat_filename mask_filename defaced_filename buff w =
  (Raise ImageFileError, w).
Proof.
  intros Ha Hm Heq Hq Hn. unfold deface, nb_load, to_filename. rewrite Ha, Hm.
  rewrite decide_False by (by intros ?). by rewrite Hq, Hn.
Qed.

(** [deface] when [quickshear] raises. *)
Lemma deface_raise anat_filename mask_filename defaced_filename buff w
    anat_img mask_img e :
  files w !! anat_filename = Some anat_img →
  files w !! mask_filename = Some mask_img →
  img_shape anat_img = img_shape mask_img →
  quickshear aff2axcodes anat_img mask_img buff = Raise e →
  deface aff2axcodes file_names anat_filename mask_filename defaced_filename buff w =
  (Raise e, w).
Proof.
  intros Ha Hm Heq Hq. unfold deface, nb_load. rewrite Ha, Hm.
  rewrite decide_False by (by intros ?). by rewrite Hq.
Qed.

(** What [write_files] leaves under a name. *)
Lemma lookup_write_files names (img : image affine_t header_t) fs name :
  write_files names img fs !! name =
  if decide (name ∈ names) then Some img else fs !! name.
Proof.
  induction names as [|n names IH].
  - case_decide as H; [by apply elem_of_nil in H|done].
  - cbn [write_files foldr]. destruct (decide (name = n)) as [->|Hne].
    + rewrite lookup_insert_eq. clear IH.
      case_decide as H; [done|]. exfalso. apply H. by left.
    + rewrite lookup_insert_ne by done. fold (write_files names img fs). rewrite IH.
      destruct (decide (name ∈ names)) as [Hin|Hin],
               (decide (name ∈ n :: names)) as [Hin'|Hin']; [done| | |done].
      * exfalso. apply Hin'. by right.
      * exfalso. apply elem_of_cons in Hin' as [?|?]; done.
Qed.

End Pipeline.

(** * The claims *)

(** C1, as the code has it.  The claim reads the positions along the third
    (inferior-superior) axis and the zeroed range along the second
    (anterior-posterior) axis; the code does the converse, and truncates
    the line value.  When the positions with a positive line value are
    [0 .. m-1] and index the second axis: for every position [j] of the
    second axis at which the line is evaluated, with
    [y = j * slope + yint], the voxels [(i, j, k)] are zeroed for [y > 0]
    and [k] in [[0, trunc y)], for every sagittal index [i], and the others
    at that position, all of them when [y <= 0], are kept. *)
Theorem shear_plane_rasterization (mask : ndarray Z) (buff : Z)
    (slope yint : float64) (m : nat) :
  shear_line (convex_hull (edge_mask mask)) buff = Ok (slope, yint) →
  f64_gt0 <$> line_values (dim2 (shape mask)) slope yint =
    replicate m true ++ replicate (dim2 (shape mask) - m) false →
  (m ≤ dim1 (shape mask))%nat →
  Z.of_nat (dim2 (shape mask)) ≤ 2 ^ 63 →
  ∃ km,
    defaced_mask mask buff = Ok km ∧ shape km = shape mask ∧
    ∀ i j k,
      (i < dim0 (shape mask))%nat →
      (j < dim1 (shape mask))%nat → (j < dim2 (shape mask))%nat →
      (k < dim2 (shape mask))%nat →
      get3 km i j k =
      Some (negb (f64_gt0 (line_at slope yint j)
                  && bool_decide (Z.of_nat k < astype_int (line_at slope yint j)))).
Proof.
  intros Hline Hprefix Hm Hn2.
  destruct (defaced_mask_prefix_spec mask buff slope yint m Hline Hprefix Hm)
    as (km & Hkm & Hshape & Hget).
  exists km. split_and!; [done..|].
  intros i j k Hi Hj Hj2 Hk. rewrite Hget by done.
  rewrite zeroed_at_line by done.
  by rewrite (bool_decide_eq_true_2 (j < _)%nat).
Qed.

(** C2, as the code has it: [low] is the transposed hull, so [low[1][0]] is
    the second coordinate of the first hull point.  For every hull with at
    least two points and every buffer that a float64 can hold (a Python int
    of magnitude below [2^1024 - 2^970]), the intercept is
    [hull[0].second - hull[0].first * slope - buff], with [slope] the ratio
    of the leading segment's differences; for a larger buffer the
    subtraction raises OverflowError and no line is produced.  The buffer
    defaults to 10. *)
Theorem shear_line_intercept (p0 p1 : point) (rest : list point) (buff : Z) :
  let slope := f64_div (f64_of_int (p1.2 - p0.2)) (f64_of_int (p1.1 - p0.1)) in
  shear_line (np_array_T (p0 :: p1 :: rest)) buff =
    (if decide (Z.abs buff < 2 ^ 1024 - 2 ^ 970)
     then Ok (slope,
              f64_sub (f64_sub (f64_of_int p0.2) (f64_mul (f64_of_int p0.1) slope))
                      (f64_of_int buff))
     else Raise OverflowError)
  ∧ default_buff = 10.
Proof.
  cbv zeta. split; [|reflexivity].
  change (2 ^ 1024 - 2 ^ 970) with pyint_limit.
  case_decide as Hb.
  - by rewrite shear_line_hull by by apply f64_of_pyint_in_range.
  - apply shear_line_overflow, f64_of_pyint_overflow. lia.
Qed.

(** C3: for every 2-D array, the points that [convex_hull] hands to the
    sweep are exactly the array's non-zero entries in ascending lexicographic
    order of (first, second) coordinate, and the sweep returns their lower
    hull from left to right: a sub-sequence of the points running from the
    least to the greatest, turning strictly left at every vertex, with no
    point of the set to the right of an edge and no vertex collinear with an
    edge.  The returned array holds that hull transposed: row 0 is the
    vertices' first coordinates and row 1 their second coordinates, in hull
    order, and an array without a non-zero entry gives the empty array.
    The hull property holds against any listing of the point set, in
    whatever order and with whatever repetitions. *)
Theorem convex_hull_lower_hull (brain : array2 Z) :
  let pts := nonzero_points brain in
  let hull := lower_hull pts in
  StronglySorted lex_lt pts ∧
  (∀ p, p ∈ pts ↔
        ∃ r k row v, brain !! r = Some row ∧ row !! k = Some v ∧ v ≠ 0 ∧
                     p = (Z.of_nat r, Z.of_nat k)) ∧
  is_lower_hull pts hull ∧
  (pts = [] → convex_hull brain = []) ∧
  (pts ≠ [] → hull ≠ [] ∧ convex_hull brain = [fst <$> hull; snd <$> hull]) ∧
  (∀ n, get2 (convex_hull brain) 0 n = fst <$> hull !! n ∧
        get2 (convex_hull brain) 1 n = snd <$> hull !! n) ∧
  (∀ l : list point,
     (∀ p, p ∈ l ↔ p ∈ pts) →
     (∀ v, v ∈ hull → v ∈ l) ∧
     (∀ l1 a b l2 q, hull = l1 ++ a :: b :: l2 → q ∈ l → 0 ≤ cross a b q)).
Proof.
  pose proof (lower_hull_correct _ (nonzero_points_sorted brain)) as Hhull.
  pose proof (hull_first _ _ Hhull) as Hfirst.
  cbv zeta. unfold convex_hull.
  split_and!.
  - apply nonzero_points_sorted.
  - apply nonzero_points_spec.
  - done.
  - by intros ->.
  - intros Hne.
    destruct (nonzero_points brain) as [|q pts] eqn:Hpts; [done|].
    by destruct (lower_hull (q :: pts)).
  - intros n. destruct (lower_hull (nonzero_points brain)) as [|q h]; [done|].
    change (np_array_T (q :: h)) with [fst <$> q :: h; snd <$> q :: h].
    unfold get2. cbn [lookup list_lookup mbind option_bind].
    by rewrite !list_lookup_fmap.
  - intros l Hl. split.
    + intros v Hv. apply Hl. by apply (sublist_subseteq _ _ (hull_sublist _ _ Hhull)).
    + intros l1 a b l2 q Heq Hq. apply (hull_below _ _ Hhull l1 a b l2); [done|].
      by apply Hl.
Qed.

(** C8: for every 3-element boolean flip vector and every 3-D array,
    [flip_axes] applied twice with that vector gives the array back. *)
Theorem flip_axes_involution {A} (data : ndarray A) (b0 b1 b2 : bool) :
  (d ← flip_axes data [b0; b1; b2]; flip_axes d [b0; b1; b2]) = Ok data.
Proof.
  rewrite flip_axes_3. simpl. rewrite flip_axes_3. simpl.
  rewrite flip_elems_involutive. by destruct data.
Qed.

(** C9, as the code has it: the buffer is subtracted from the intercept, so
    a larger buffer lowers the line and can only keep more.  For buffers
    [b ≤ b'], when under both the positions with a positive line value are
    an initial segment, the one under [b] inside the second axis, and no
    positive line value under [b] leaves the int64 range when it is cast,
    the keep-mask under [b'] has at most as many zeroed voxels as the one
    under [b].  That the line under [b'] is positive only where the line
    under [b] is, and is nowhere higher after the cast, follows from the
    rounding of the float64 subtraction and addition being monotone. *)
Theorem buffer_lowers_zeroed_count (mask : ndarray Z) (b b' : Z)
    (slope yint slope' yint' : float64) (m m' : nat) :
  b ≤ b' →
  shear_line (convex_hull (edge_mask mask)) b = Ok (slope, yint) →
  shear_line (convex_hull (edge_mask mask)) b' = Ok (slope', yint') →
  f64_gt0 <$> line_values (dim2 (shape mask)) slope yint =
    replicate m true ++ replicate (dim2 (shape mask) - m) false →
  f64_gt0 <$> line_values (dim2 (shape mask)) slope' yint' =
    replicate m' true ++ replicate (dim2 (shape mask) - m') false →
  (m ≤ dim1 (shape mask))%nat →
  Z.of_nat (dim2 (shape mask)) ≤ 2 ^ 63 →
  (∀ p, (p < m)%nat → 0 ≤ astype_int (line_at slope yint p)) →
  ∃ km km',
    defaced_mask mask b = Ok km ∧ defaced_mask mask b' = Ok km' ∧
    (count_zeroed km' ≤ count_zeroed km)%nat.
Proof.
  intros Hb Hline Hline' Hprefix Hprefix' Hm Hn2 Hrange.
  destruct (shear_line_buffer _ _ _ _ Hline) as (C & HC & -> & Hlines).
  destruct (Hlines _ _ _ Hline') as [-> ->]. clear Hlines.
  assert (length (replicate m true ++ replicate (dim2 (shape mask) - m) false)
          = dim2 (shape mask)) as Hmn.
  { by rewrite <-Hprefix, length_fmap, length_line_values. }
  rewrite length_app, !length_replicate in Hmn.
  assert (length (replicate m' true ++ replicate (dim2 (shape mask) - m') false)
          = dim2 (shape mask)) as Hm'.
  { by rewrite <-Hprefix', length_fmap, length_line_values. }
  rewrite length_app, !length_replicate in Hm'.
  assert (∀ (s y : float64) (n : nat),
            f64_gt0 <$> line_values (dim2 (shape mask)) s y =
              replicate n true ++ replicate (dim2 (shape mask) - n) false →
            (n ≤ dim2 (shape mask))%nat →
            ∀ j, (j < dim2 (shape mask))%nat →
                 f64_gt0 (line_at s y j) = bool_decide (j < n)%nat) as Hpos.
  { intros s y n Heq Hn j Hj.
    assert ((f64_gt0 <$> line_values (dim2 (shape mask)) s y) !! j
            = Some (f64_gt0 (line_at s y j))) as Hj'.
    { by rewrite list_lookup_fmap, lookup_line_values, decide_True. }
    rewrite Heq in Hj'. case_bool_decide.
    - rewrite lookup_app_l in Hj' by (rewrite length_replicate; lia).
      by apply lookup_replicate_1 in Hj' as [<- _].
    - rewrite lookup_app_r in Hj' by (rewrite length_replicate; lia).
      by apply lookup_replicate_1 in Hj' as [<- _]. }
  set (yb := f64_sub C (f64_of_int b)) in *.
  set (yb' := f64_sub C (f64_of_int b')) in *.
  assert (∀ p, f64_gt0 (line_at slope yb' p) = true →
               f64_gt0 (line_at slope yb p) = true) as Hgt.
  { intros p. apply line_gt0_mono; [apply f64_mul_repr|done..]. }
  assert (m' ≤ m)%nat as Hmm.
  { destruct (decide (m' ≤ m)%nat) as [|Hgtm]; [done|]. exfalso.
    assert (f64_gt0 (line_at slope yb' m) = true) as Hp'.
    { rewrite (Hpos slope yb' m') by (done || lia). apply bool_decide_eq_true. lia. }
    apply Hgt in Hp'. rewrite (Hpos slope yb m) in Hp' by (done || lia).
    apply bool_decide_eq_true in Hp'. lia. }
  assert (∀ p, (p < m')%nat →
               astype_int (line_at slope yb' p) ≤ astype_int (line_at slope yb p)) as Hle.
  { intros p Hp. apply line_astype_mono; [apply f64_mul_repr|done..| |apply Hrange; lia].
    change (f64_gt0 (line_at slope yb' p) = true).
    rewrite (Hpos slope yb' m') by (done || lia). apply bool_decide_eq_true. lia. }
  destruct (defaced_mask_prefix_spec mask b slope yb m)
    as (km & Hkm & Hshape & Hget); [done|done|lia|].
  destruct (defaced_mask_prefix_spec mask b' slope yb' m')
    as (km' & Hkm' & Hshape' & Hget'); [done|done|lia|].
  exists km, km'. split_and!; [done..|].
  destruct (wf_defaced_mask _ _ _ Hkm) as [Hwf _].
  destruct (wf_defaced_mask _ _ _ Hkm') as [Hwf' _].
  apply count_zeroed_le; [done..|congruence|].
  intros i j k Hfalse.
  assert (i < dim0 (shape mask) ∧ j < dim1 (shape mask) ∧ k < dim2 (shape mask))%nat
    as (Hi & Hj & Hk).
  { destruct Hwf' as [Hl Hall]. rewrite Hshape' in *. unfold get3 in Hfalse.
    destruct (elems km' !! i) as [plane|] eqn:Hp; simplify_eq/=.
    destruct (plane !! j) as [row|] eqn:Hr; simplify_eq/=.
    pose proof (Forall_lookup_1 _ _ _ _ Hall Hp) as Hrect.
    pose proof (rect_lookup _ _ _ _ _ Hrect Hr) as Hrow. destruct Hrect as [Hpl _].
    apply lookup_lt_Some in Hp, Hr, Hfalse. lia. }
  rewrite Hget', zeroed_at_line in Hfalse by done.
  rewrite Hget, zeroed_at_line by done.
  injection Hfalse as Hfalse. f_equal.
  apply negb_false_iff in Hfalse. apply negb_false_iff.
  apply andb_true_iff in Hfalse as [[Hjn Hp']%andb_true_iff Hk'%bool_decide_eq_true].
  apply bool_decide_eq_true in Hjn.
  rewrite (Hpos slope yb' m') in Hp' by (done || lia).
  apply bool_decide_eq_true in Hp'.
  rewrite (Hpos slope yb m) by (done || lia).
  rewrite !bool_decide_eq_true_2; [done| |lia|done].
  specialize (Hle j Hp'). lia.
Qed.

(** C10: for every 2-D boolean silhouette of shape [(n1, n2)], the edge map
    has the same shape and marks the pixels where
    [4 * self - up - down - left - right] is non-zero, the neighbours being
    looked up on the torus; a silhouette that is True everywhere or False
    everywhere has an edge map that is False everywhere; [edge_mask] is this
    filter on the sagittal profile, and as a total function it has no way
    to fail. *)
Theorem edge_extraction (n1 n2 : nat) (brain : array2 bool) :
  rect n1 n2 brain →
  rect n1 n2 (edges brain) ∧
  (∀ i j, (i < n1)%nat → (j < n2)%nat →
     get2 (edges brain) i j =
     Some (negb (4 * pixel brain (Z.of_nat i) (Z.of_nat j)
                 - pixel brain ((Z.of_nat i - 1) `mod` Z.of_nat n1) (Z.of_nat j)
                 - pixel brain ((Z.of_nat i + 1) `mod` Z.of_nat n1) (Z.of_nat j)
                 - pixel brain (Z.of_nat i) ((Z.of_nat j - 1) `mod` Z.of_nat n2)
                 - pixel brain (Z.of_nat i) ((Z.of_nat j + 1) `mod` Z.of_nat n2)
                 =? 0))) ∧
  (∀ v, brain = replicate n1 (replicate n2 v) →
        edges brain = replicate n1 (replicate n2 false)) ∧
  (∀ mask, edge_mask mask = map2d Z.b2z (edges (any_axis0 mask))).
Proof.
  intros Hrect. split_and!.
  - by apply rect_edges.
  - intros i j Hi Hj. by apply get2_edges.
  - intros v ->. apply (rect_ext n1 n2); [by apply rect_edges|apply rect_replicate|].
    intros i j Hi Hj. rewrite (get2_edges n1 n2), get2_replicate by done.
    assert (∀ i' j', 0 ≤ i' < Z.of_nat n1 → 0 ≤ j' < Z.of_nat n2 →
              pixel (replicate n1 (replicate n2 v)) i' j' = Z.b2z v) as Hpx.
    { intros i' j' Hi' Hj'. unfold pixel. by rewrite get2_replicate by lia. }
    pose proof (Z.mod_pos_bound (Z.of_nat i - 1) (Z.of_nat n1)).
    pose proof (Z.mod_pos_bound (Z.of_nat i + 1) (Z.of_nat n1)).
    pose proof (Z.mod_pos_bound (Z.of_nat j - 1) (Z.of_nat n2)).
    pose proof (Z.mod_pos_bound (Z.of_nat j + 1) (Z.of_nat n2)).
    rewrite !Hpx by lia. f_equal. apply negb_false_iff, Z.eqb_eq. lia.
  - done.
Qed.

(** * Further properties of the code *)

(** ** The sagittal profile and its edge map *)

Lemma any_axis0_pattern (mask : ndarray Z) :
  any_axis0 mask =
  any_planes (dim1 (shape mask)) (dim2 (shape mask)) (nonzero_pattern (elems mask)).
Proof. unfold any_axis0, any_planes, nonzero_pattern. by rewrite foldr_fmap. Qed.

Lemma any_planes_spec n1 n2 (planes : list (array2 bool)) :
  Forall (rect n1 n2) planes →
  rect n1 n2 (any_planes n1 n2 planes) ∧
  ∀ j k, (j < n1)%nat → (k < n2)%nat →
    ∃ b, get2 (any_planes n1 n2 planes) j k = Some b ∧
         (b = true ↔ ∃ i plane, planes !! i = Some plane ∧ get2 plane j k = Some true).
Proof.
  induction 1 as [|plane planes Hp Hps [IHr IH]]; simpl.
  - split; [apply rect_replicate|]. intros j k Hj Hk. exists false.
    split; [by apply get2_replicate|]. split; [done|]. by intros (i & plane & ? & _).
  - split; [by apply rect_zip2d|]. intros j k Hj Hk.
    destruct (IH j k Hj Hk) as (b & Hb & Hiff).
    destruct (rect_get2 _ _ plane j k Hp Hj Hk) as [c Hc].
    exists (c || b). split.
    { change (any_planes n1 n2 (plane :: planes))
        with (zip2d orb plane (any_planes n1 n2 planes)).
      by rewrite get2_zip2d, Hc, Hb. }
    rewrite orb_true_iff, Hiff. split.
    + intros [->|(i & p & Hi & Hv)]; [by exists 0%nat, plane|by exists (S i), p].
    + intros ([|i] & p & Hi & Hv); simplify_eq/=; [left; congruence|right; eauto].
Qed.

Lemma rect_nonzero_pattern s (e : list (list (list Z))) :
  shaped s e → Forall (rect (dim1 s) (dim2 s)) (nonzero_pattern e).
Proof.
  intros [_ Hall]. unfold nonzero_pattern. apply Forall_fmap.
  eapply Forall_impl; [exact Hall|]. intros plane Hp. by apply rect_map2d.
Qed.

Lemma any_axis0_spec (mask : ndarray Z) :
  wf_array mask →
  rect (dim1 (shape mask)) (dim2 (shape mask)) (any_axis0 mask) ∧
  ∀ j k, (j < dim1 (shape mask))%nat → (k < dim2 (shape mask))%nat →
    ∃ b, get2 (any_axis0 mask) j k = Some b ∧
         (b = true ↔ ∃ i v, get3 mask i j k = Some v ∧ v ≠ 0).
Proof.
  intros Hwf. rewrite any_axis0_pattern.
  destruct (any_planes_spec _ _ _ (rect_nonzero_pattern _ _ Hwf)) as [Hr Hspec].
  split; [done|]. intros j k Hj Hk.
  destruct (Hspec j k Hj Hk) as (b & Hb & Hiff). exists b. split; [done|].
  rewrite Hiff. unfold nonzero_pattern, get3. split.
  - intros (i & plane & Hi & Hv). rewrite list_lookup_fmap in Hi.
    destruct (elems mask !! i) as [p|] eqn:Hp; [|done]. injection Hi as <-.
    rewrite get2_map2d in Hv. unfold get2 in Hv.
    destruct (p !! j) as [row|] eqn:Hrow; [|done]. simpl in Hv.
    destruct (row !! k) as [v|] eqn:Hvk; [|done]. injection Hv as Hv.
    exists i, v. rewrite Hp. simpl. rewrite Hrow. simpl. split; [done|].
    apply negb_true_iff, Z.eqb_neq in Hv. done.
  - intros (i & v & Hv & Hnz).
    destruct (elems mask !! i) as [p|] eqn:Hp; [|done]. simpl in Hv.
    exists i, (map2d (fun v => negb (v =? 0)) p). rewrite list_lookup_fmap, Hp.
    split; [done|]. rewrite get2_map2d. unfold get2.
    destruct (p !! j) as [row|]; [|done]. simpl in *. rewrite Hv. simpl.
    f_equal. by apply negb_true_iff, Z.eqb_neq.
Qed.

(** X1: the sagittal profile that [edge_mask] starts from has the shape of
    the last two axes of the mask, and its pixel [(j, k)] is True exactly
    when some sagittal plane [i] holds a non-zero voxel [(i, j, k)]. *)
Theorem sagittal_profile (mask : ndarray Z) :
  wf_array mask →
  rect (dim1 (shape mask)) (dim2 (shape mask)) (any_axis0 mask) ∧
  ∀ j k, (j < dim1 (shape mask))%nat → (k < dim2 (shape mask))%nat →
    ∃ b, get2 (any_axis0 mask) j k = Some b ∧
         (b = true ↔ ∃ i v, get3 mask i j k = Some v ∧ v ≠ 0).
Proof. intros Hwf. destruct (any_axis0_spec mask Hwf). split; assumption. Qed.

Lemma edges_differs n1 n2 (brain : array2 bool) i j :
  rect n1 n2 brain → (i < n1)%nat → (j < n2)%nat →
  get2 (edges brain) i j = Some (differs_from_neighbour n1 n2 brain i j).
Proof.
  intros Hr Hi Hj. rewrite (get2_edges n1 n2) by done. f_equal.
  unfold differs_from_neighbour, pixel, lit.
  generalize (default false (get2 brain (Z.to_nat (Z.of_nat i)) (Z.to_nat (Z.of_nat j)))).
  generalize (default false (get2 brain (Z.to_nat ((Z.of_nat i - 1) `mod` Z.of_nat n1))
                               (Z.to_nat (Z.of_nat j)))).
  generalize (default false (get2 brain (Z.to_nat ((Z.of_nat i + 1) `mod` Z.of_nat n1))
                               (Z.to_nat (Z.of_nat j)))).
  generalize (default false (get2 brain (Z.to_nat (Z.of_nat i))
                               (Z.to_nat ((Z.of_nat j - 1) `mod` Z.of_nat n2)))).
  generalize (default false (get2 brain (Z.to_nat (Z.of_nat i))
                               (Z.to_nat ((Z.of_nat j + 1) `mod` Z.of_nat n2)))).
  by intros [] [] [] [] [].
Qed.

(** X2: [edge_mask] returns an array of the shape of the profile holding
    only 0 and 1, with 1 exactly at the pixels one of whose four neighbours
    on the torus differs from the pixel itself: the marked pixels are the
    boundary pixels of the silhouette and the background pixels that touch
    it. *)
Theorem edge_mask_boundary (mask : ndarray Z) :
  wf_array mask →
  rect (dim1 (shape mask)) (dim2 (shape mask)) (edge_mask mask) ∧
  ∀ j k, (j < dim1 (shape mask))%nat → (k < dim2 (shape mask))%nat →
    get2 (edge_mask mask) j k =
    Some (Z.b2z (differs_from_neighbour (dim1 (shape mask)) (dim2 (shape mask))
                   (any_axis0 mask) j k)).
Proof.
  intros Hwf. destruct (any_axis0_spec mask Hwf) as [Hr _]. unfold edge_mask. split.
  - by apply rect_map2d, rect_edges.
  - intros j k Hj Hk. rewrite get2_map2d.
    by rewrite (edges_differs _ _ _ _ _ Hr Hj Hk).
Qed.

(** ** Flips, index by index *)

Lemma mirror_lt b n i : (i < n)%nat → (mirror b n i < n)%nat.
Proof. destruct b; simpl; lia. Qed.

Lemma mirror_mirror b n i : (i < n)%nat → mirror b n (mirror b n i) = i.
Proof. destruct b; simpl; lia. Qed.

Lemma lookup_mirror {A} (b : bool) (l : list A) i :
  (i < length l)%nat →
  (if b then reverse l else l) !! i = l !! mirror b (length l) i.
Proof.
  intros Hi. destruct b; [|done]. rewrite reverse_lookup by done.
  simpl. f_equal. lia.
Qed.

Lemma get3_flip_elems {A} s s1 s2 (e : list (list (list A))) (b0 b1 b2 : bool) i j k :
  shaped s e → (i < dim0 s)%nat → (j < dim1 s)%nat → (k < dim2 s)%nat →
  get3 (NdArray s1 (flip_elems b0 b1 b2 e)) i j k =
  get3 (NdArray s2 e) (mirror b0 (dim0 s) i) (mirror b1 (dim1 s) j) (mirror b2 (dim2 s) k).
Proof.
  intros [Hl Hall] Hi Hj Hk. unfold get3, flip_elems. simpl.
  assert (∀ x : list (list (list A)),
            (if b2 then fmap (fmap (M:=list) reverse) else id) x !! i =
            (if b2 then fmap (M:=list) reverse else id) <$> x !! i) as ->.
  { intros x. destruct b2; simpl; [by rewrite list_lookup_fmap|by destruct (x !! i)]. }
  assert (∀ x : list (list (list A)),
            (if b1 then fmap reverse else id) x !! i =
            (if b1 then reverse else id) <$> x !! i) as ->.
  { intros x. destruct b1; simpl; [by rewrite list_lookup_fmap|by destruct (x !! i)]. }
  assert ((if b0 then reverse else id) e !! i = e !! mirror b0 (dim0 s) i) as ->.
  { rewrite <-Hl. destruct b0; [|done]. apply (lookup_mirror true). lia. }
  destruct (e !! mirror b0 (dim0 s) i) as [plane|] eqn:Hp; [|done]. simpl.
  pose proof (Forall_lookup_1 _ _ _ _ Hall Hp) as [Hpl Hrows].
  assert (∀ x : list (list A),
            (if b2 then fmap (M:=list) reverse else id) x !! j =
            (if b2 then reverse else id) <$> x !! j) as ->.
  { intros x. destruct b2; simpl; [by rewrite list_lookup_fmap|by destruct (x !! j)]. }
  assert ((if b1 then reverse else id) plane !! j = plane !! mirror b1 (dim1 s) j) as ->.
  { rewrite <-Hpl. destruct b1; [|done]. apply (lookup_mirror true). lia. }
  destruct (plane !! mirror b1 (dim1 s) j) as [row|] eqn:Hrow; [|done]. simpl.
  pose proof (Forall_lookup_1 _ _ _ _ Hrows Hrow) as Hlen. simpl in Hlen.
  rewrite <-Hlen. destruct b2; [|done]. apply (lookup_mirror true). lia.
Qed.

(** X9: [flip_axes] with three flags returns an array of the same shape
    whose entry [(i, j, k)] is the entry of the input at the indices
    mirrored along the flagged axes. *)
Theorem flip_axes_pointwise {A} (data : ndarray A) (b0 b1 b2 : bool) :
  wf_array data →
  ∃ d', flip_axes data [b0; b1; b2] = Ok d' ∧ shape d' = shape data ∧ wf_array d' ∧
    ∀ i j k, (i < dim0 (shape data))%nat → (j < dim1 (shape data))%nat →
             (k < dim2 (shape data))%nat →
      get3 d' i j k =
      get3 data (mirror b0 (dim0 (shape data)) i) (mirror b1 (dim1 (shape data)) j)
                (mirror b2 (dim2 (shape data)) k).
Proof.
  intros Hwf. rewrite flip_axes_3. eexists. split; [done|]. split; [done|].
  split; [by apply shaped_flip|]. intros i j k Hi Hj Hk.
  rewrite (get3_flip_elems (shape data) _ (shape data)) by done. by destruct data.
Qed.

Lemma flip_elems_compose {A} (a0 a1 a2 b0 b1 b2 : bool) (e : list (list (list A))) :
  flip_elems b0 b1 b2 (flip_elems a0 a1 a2 e) =
  flip_elems (xorb a0 b0) (xorb a1 b1) (xorb a2 b2) e.
Proof.
  unfold flip_elems.
  assert (∀ x : list (list (list A)), reverse (reverse <$> x) = reverse <$> reverse x) as H10
    by (intros; by rewrite fmap_reverse).
  assert (∀ x : list (list (list A)),
            reverse (fmap (M:=list) reverse <$> x) = fmap (M:=list) reverse <$> reverse x) as H20
    by (intros; by rewrite fmap_reverse).
  destruct a0, a1, a2, b0, b1, b2; simpl;
    rewrite ?H20, ?H10, ?reverse_involutive, ?flip21_commute, ?flip2_involutive,
      ?flip1_involutive, ?reverse_involutive; done.
Qed.

(** X10: two calls of [flip_axes] compose to one call with the flags
    combined by exclusive or, and so commute. *)
Theorem flip_axes_compose {A} (data : ndarray A) (a0 a1 a2 b0 b1 b2 : bool) :
  (d ← flip_axes data [a0; a1; a2]; flip_axes d [b0; b1; b2]) =
  flip_axes data [xorb a0 b0; xorb a1 b1; xorb a2 b2] ∧
  (d ← flip_axes data [a0; a1; a2]; flip_axes d [b0; b1; b2]) =
  (d ← flip_axes data [b0; b1; b2]; flip_axes d [a0; a1; a2]).
Proof.
  rewrite !flip_axes_3. simpl. rewrite !flip_axes_3. simpl.
  rewrite !flip_elems_compose. split; [done|].
  by rewrite (xorb_comm a0), (xorb_comm a1), (xorb_comm a2).
Qed.

Lemma nonzero_from1_all_false i (v : list bool) :
  Forall (fun b => b = false) v → nonzero_from1 i v = [].
Proof.
  intros H. revert i. induction H as [|b v -> _ IH]; intros i; simpl; [done|apply IH].
Qed.

(** X11: with no flag set, whatever the number of flags, [flip_axes]
    returns its input. *)
Theorem flip_axes_no_flag {A} (data : ndarray A) (flips : list bool) :
  Forall (fun b => b = false) flips → flip_axes data flips = Ok data.
Proof.
  intros H. unfold flip_axes, nonzero1. by rewrite nonzero_from1_all_false.
Qed.

(** ** The profile does not see the first axis's direction or the values *)

Lemma any_planes_reverse n1 n2 (planes : list (array2 bool)) :
  Forall (rect n1 n2) planes →
  any_planes n1 n2 (reverse planes) = any_planes n1 n2 planes.
Proof.
  intros Hall.
  assert (Forall (rect n1 n2) (reverse planes)) as Hall' by by apply Forall_reverse.
  destruct (any_planes_spec _ _ _ Hall) as [Hr Hs].
  destruct (any_planes_spec _ _ _ Hall') as [Hr' Hs'].
  apply (rect_ext n1 n2); [done..|]. intros j k Hj Hk.
  destruct (Hs j k Hj Hk) as (b & -> & Hb). destruct (Hs' j k Hj Hk) as (b' & -> & Hb').
  f_equal. apply eq_true_iff_eq. rewrite Hb, Hb'. split.
  - intros (i & p & Hi & Hv). apply list_elem_of_lookup_2 in Hi.
    rewrite elem_of_reverse in Hi. apply list_elem_of_lookup_1 in Hi as [i' Hi']. eauto.
  - intros (i & p & Hi & Hv). apply list_elem_of_lookup_2 in Hi.
    rewrite <-elem_of_reverse in Hi. apply list_elem_of_lookup_1 in Hi as [i' Hi']. eauto.
Qed.

Lemma edge_mask_reverse s (e : list (list (list Z))) :
  shaped s e → edge_mask (NdArray s (reverse e)) = edge_mask (NdArray s e).
Proof.
  intros Hs. unfold edge_mask. rewrite !any_axis0_pattern. simpl.
  unfold nonzero_pattern. rewrite fmap_reverse.
  by rewrite any_planes_reverse by by apply (rect_nonzero_pattern s).
Qed.

(** X3: flipping a mask along its first (left-right) axis does not change
    its edge mask. *)
Theorem edge_mask_flip_first_axis (mask mask' : ndarray Z) :
  wf_array mask → flip_axis mask 0 = Ok mask' → edge_mask mask' = edge_mask mask.
Proof.
  intros Hwf [= <-]. rewrite edge_mask_reverse by done. by destruct mask.
Qed.

Lemma edge_mask_pattern (m m' : ndarray Z) :
  shape m' = shape m → nonzero_pattern (elems m') = nonzero_pattern (elems m) →
  edge_mask m' = edge_mask m.
Proof.
  intros Hs Hp. unfold edge_mask. by rewrite !any_axis0_pattern, Hs, Hp.
Qed.

Lemma defaced_mask_pattern (m m' : ndarray Z) buff :
  shape m' = shape m → nonzero_pattern (elems m') = nonzero_pattern (elems m) →
  defaced_mask m' buff = defaced_mask m buff.
Proof.
  intros Hs Hp. unfold defaced_mask. by rewrite (edge_mask_pattern m m'), Hs.
Qed.

Lemma flip_elems_fmap {A B} (f : A → B) (b0 b1 b2 : bool) (e : list (list (list A))) :
  fmap (M:=list) (fmap (M:=list) (fmap (M:=list) f)) (flip_elems b0 b1 b2 e) =
  flip_elems b0 b1 b2 (fmap (M:=list) (fmap (M:=list) (fmap (M:=list) f)) e).
Proof.
  unfold flip_elems.
  assert (∀ x : list (list (list A)),
            fmap (M:=list) (fmap (M:=list) (fmap (M:=list) f)) (reverse <$> x) =
            reverse <$> fmap (M:=list) (fmap (M:=list) (fmap (M:=list) f)) x) as H1.
  { intros x. rewrite <-!list_fmap_compose. apply list_fmap_ext. intros _ p _. simpl.
    by rewrite fmap_reverse. }
  assert (∀ x : list (list (list A)),
            fmap (M:=list) (fmap (M:=list) (fmap (M:=list) f)) (fmap (M:=list) reverse <$> x) =
            fmap (M:=list) reverse <$> fmap (M:=list) (fmap (M:=list) (fmap (M:=list) f)) x) as H2.
  { intros x. rewrite <-!list_fmap_compose. apply list_fmap_ext. intros _ p _. simpl.
    rewrite <-!list_fmap_compose. apply list_fmap_ext. intros _ r _. simpl.
    by rewrite fmap_reverse. }
  destruct b0, b1, b2; simpl; rewrite ?H2, ?H1, ?fmap_reverse; done.
Qed.

Lemma nonzero_pattern_flip (b0 b1 b2 : bool) (e : list (list (list Z))) :
  nonzero_pattern (flip_elems b0 b1 b2 e) = flip_elems b0 b1 b2 (nonzero_pattern e).
Proof. exact (flip_elems_fmap _ b0 b1 b2 e). Qed.

(** ** A silhouette without a boundary *)

Lemma lit_replicate n1 n2 (v : bool) (i j : Z) :
  0 ≤ i < Z.of_nat n1 → 0 ≤ j < Z.of_nat n2 →
  lit (replicate n1 (replicate n2 v)) i j = v.
Proof. intros Hi Hj. unfold lit. rewrite get2_replicate by lia. done. Qed.

Lemma edges_constant n1 n2 (v : bool) :
  edges (replicate n1 (replicate n2 v)) = replicate n1 (replicate n2 false).
Proof.
  apply (rect_ext n1 n2); [apply rect_edges, rect_replicate|apply rect_replicate|].
  intros i j Hi Hj. rewrite (edges_differs n1 n2) by (done || apply rect_replicate).
  rewrite get2_replicate by done. f_equal. unfold differs_from_neighbour.
  rewrite !lit_replicate; [by destruct v|try (apply Z.mod_pos_bound); lia..].
Qed.

Lemma nonzero_row_zeros i j n : nonzero_row i j (replicate n 0) = [].
Proof. revert j. induction n as [|n IH]; intros j; simpl; [done|apply IH]. Qed.

Lemma nonzero_from_zeros i n1 n2 : nonzero_from i (replicate n1 (replicate n2 0)) = [].
Proof.
  revert i. induction n1 as [|n1 IH]; intros i; simpl; [done|].
  by rewrite nonzero_row_zeros, IH.
Qed.

Lemma constant_profile_empty_hull (mask : ndarray Z) (c : bool) :
  any_axis0 mask = replicate (dim1 (shape mask)) (replicate (dim2 (shape mask)) c) →
  lower_hull (nonzero_points (edge_mask mask)) = [].
Proof.
  intros Hc. unfold edge_mask. rewrite Hc, edges_constant.
  unfold map2d. rewrite !fmap_replicate. simpl.
  unfold nonzero_points. by rewrite nonzero_from_zeros.
Qed.

Lemma constant_profile (mask : ndarray Z) (c : bool) :
  wf_array mask →
  (∀ j k, (j < dim1 (shape mask))%nat → (k < dim2 (shape mask))%nat →
          c = true ↔ ∃ i v, get3 mask i j k = Some v ∧ v ≠ 0) →
  any_axis0 mask = replicate (dim1 (shape mask)) (replicate (dim2 (shape mask)) c).
Proof.
  intros Hwf Hc. destruct (any_axis0_spec mask Hwf) as [Hr Hs].
  apply (rect_ext (dim1 (shape mask)) (dim2 (shape mask))); [done|apply rect_replicate|].
  intros j k Hj Hk. rewrite get2_replicate by done.
  destruct (Hs j k Hj Hk) as (b & -> & Hb). f_equal.
  apply eq_true_iff_eq. by rewrite Hb, (Hc j k Hj Hk).
Qed.

Lemma get3_lt {A} (a : ndarray A) i j k v :
  wf_array a → get3 a i j k = Some v →
  (i < dim0 (shape a) ∧ j < dim1 (shape a) ∧ k < dim2 (shape a))%nat.
Proof.
  intros [Hl Hall] Hv. unfold get3 in Hv.
  destruct (elems a !! i) as [plane|] eqn:Hp; [|done]. simpl in Hv.
  destruct (plane !! j) as [row|] eqn:Hr; [|done]. simpl in Hv.
  pose proof (Forall_lookup_1 _ _ _ _ Hall Hp) as [Hpl Hrows].
  pose proof (Forall_lookup_1 _ _ _ _ Hrows Hr) as Hrow. simpl in Hrow.
  apply lookup_lt_Some in Hp, Hr, Hv. lia.
Qed.

Lemma flipped_profile {A} (P : A → Prop) s (e : list (list (list A))) (b0 b1 b2 : bool) j k :
  shaped s e → (j < dim1 s)%nat → (k < dim2 s)%nat →
  (∃ i v, get3 (NdArray s (flip_elems b0 b1 b2 e)) i j k = Some v ∧ P v) ↔
  (∃ i v, get3 (NdArray s e) i (mirror b1 (dim1 s) j) (mirror b2 (dim2 s) k) = Some v ∧ P v).
Proof.
  intros Hs Hj Hk. split.
  - intros (i & v & Hv & HP).
    destruct (get3_lt (NdArray s (flip_elems b0 b1 b2 e)) i j k v) as (Hi & _ & _);
      [by apply shaped_flip|done|]. simpl in Hi.
    rewrite (get3_flip_elems s _ s) in Hv by done. eauto.
  - intros (i & v & Hv & HP).
    destruct (get3_lt (NdArray s e) _ _ _ _ Hs Hv) as (Hi & _ & _). simpl in Hi.
    exists (mirror b0 (dim0 s) i), v. split; [|done].
    rewrite (get3_flip_elems s _ s) by (done || by apply mirror_lt).
    by rewrite mirror_mirror.
Qed.

(** ** The hull of a hull, and its leading edge *)

Lemma sweep_convex (h : list point) :
  (∀ l1 a b c l2, h = l1 ++ a :: b :: c :: l2 → 0 < cross a b c) →
  foldl hull_step [] h = reverse h.
Proof.
  induction h as [|p h IH] using rev_ind; [done|]. intros Hturn.
  rewrite foldl_app, reverse_app. simpl.
  rewrite IH.
  2:{ intros l1 a b c l2 ->. apply (Hturn l1 a b c (l2 ++ [p])).
      by rewrite <-!app_assoc. }
  unfold hull_step. f_equal.
  destruct (reverse h) as [|b [|a r]] eqn:Hrev; [done..|].
  rewrite pop_while_cons.
  assert (h = reverse r ++ [a; b]) as Hh.
  { rewrite <-(reverse_involutive h), Hrev. rewrite !reverse_cons, <-app_assoc. done. }
  assert (0 < cross a b p) as Hc.
  { apply (Hturn (reverse r) a b p []). rewrite Hh, <-app_assoc. done. }
  destruct (Z.leb_spec (cross a b p) 0); [lia|done].
Qed.

(** X7: the sweep of [convex_hull] run on its own output changes nothing:
    the lower hull of a lower hull is that hull. *)
Theorem lower_hull_idempotent (brain : array2 Z) :
  lower_hull (lower_hull (nonzero_points brain)) = lower_hull (nonzero_points brain).
Proof.
  pose proof (lower_hull_correct _ (nonzero_points_sorted brain)) as H.
  unfold lower_hull at 1. rewrite sweep_convex; [apply reverse_involutive|].
  apply (hull_strict _ _ H).
Qed.

(** X8: the leading hull segment is vertical (its run, the divisor of the
    slope, is zero) exactly when all non-zero points have the same first
    coordinate, and the hull then consists of its two end points. *)
Theorem leading_edge_vertical (brain : array2 Z) (p0 p1 : point) (rest : list point) :
  lower_hull (nonzero_points brain) = p0 :: p1 :: rest →
  (p0.1 = p1.1 ↔ ∀ q, q ∈ nonzero_points brain → q.1 = p0.1) ∧
  (p0.1 = p1.1 → rest = []).
Proof.
  intros Hh.
  pose proof (nonzero_points_sorted brain) as Hsorted.
  pose proof (lower_hull_correct _ Hsorted) as H. rewrite Hh in H.
  assert (lex_lt p0 p1) as Hlt.
  { pose proof (hull_sorted _ _ H) as Hs. apply StronglySorted_inv in Hs as [_ Hall].
    apply Forall_cons in Hall as [? _]. done. }
  assert (∀ q, q ∈ nonzero_points brain → p0.1 ≤ q.1) as Hleast.
  { intros q Hq. pose proof (hull_first _ _ H) as Hf. simpl in Hf.
    destruct (nonzero_points brain) as [|q0 pts]; [done|]. injection Hf as <-.
    apply elem_of_cons in Hq as [->|Hq]; [lia|].
    apply StronglySorted_inv in Hsorted as [_ Hall].
    rewrite Forall_forall in Hall. specialize (Hall q Hq). unfold lex_lt in Hall. lia. }
  assert (p0.1 = p1.1 → ∀ q, q ∈ nonzero_points brain → q.1 = p0.1) as Hvert.
  { intros Hx q Hq.
    pose proof (hull_below _ _ H [] p0 p1 rest q eq_refl Hq) as Hc.
    specialize (Hleast q Hq). unfold cross in Hc. unfold lex_lt in Hlt. nia. }
  split; [split|].
  - exact Hvert.
  - intros Hall. symmetry. apply Hall.
    pose proof (hull_sublist _ _ H) as Hsub.
    eapply elem_of_sublist; [|exact Hsub]. set_solver.
  - intros Hx. destruct rest as [|c rest]; [done|]. exfalso.
    pose proof (hull_strict _ _ H [] p0 p1 c rest eq_refl) as Hc.
    assert (c.1 = p0.1) as Hcx.
    { apply (Hvert Hx). pose proof (hull_sublist _ _ H) as Hsub.
      eapply elem_of_sublist; [|exact Hsub]. set_solver. }
    unfold cross in Hc. rewrite Hcx, <-Hx in Hc. lia.
Qed.

(** ** The keep-mask without assumptions on the line *)

Lemma rasterize_get3 s ys km i j k :
  rasterize s ys = Ok km →
  get3 km i j k =
  (fun v => if existsb (fun xy => hit (dim2 s) xy j k) (shear_pairs ys) then false else v)
    <$> get3 (np_ones s) i j k.
Proof. intros H. apply shear_loop_spec in H as [_ H]. apply H. Qed.

Lemma get3_np_ones_plane s i i' j k :
  (i < dim0 s)%nat → (i' < dim0 s)%nat →
  get3 (np_ones s) i j k = get3 (np_ones s) i' j k.
Proof.
  intros Hi Hi'. unfold get3, np_ones. simpl.
  by rewrite !(lookup_replicate_2 (dim0 s)) by done.
Qed.

(** X15: the keep-mask is the same in every sagittal plane. *)
Theorem keep_mask_same_in_every_plane (mask : ndarray Z) (buff : Z) (km : ndarray bool) :
  defaced_mask mask buff = Ok km →
  ∀ i i' j k, (i < dim0 (shape mask))%nat → (i' < dim0 (shape mask))%nat →
              get3 km i j k = get3 km i' j k.
Proof.
  intros (slope & yint & _ & Hr)%defaced_mask_inv i i' j k Hi Hi'.
  rewrite !(rasterize_get3 _ _ _ _ _ _ Hr). f_equal. by apply get3_np_ones_plane.
Qed.

Lemma get3_np_ones_inv s i j k v :
  get3 (np_ones s) i j k = Some v →
  v = true ∧ (i < dim0 s)%nat ∧ (j < dim1 s)%nat ∧ (k < dim2 s)%nat.
Proof.
  intros Hv. destruct (get3_lt (np_ones s) i j k v (wf_np_ones s) Hv) as (Hi & Hj & Hk).
  simpl in *. rewrite get3_np_ones in Hv by done. split; [congruence|done].
Qed.

Lemma rasterize_zeroed s ys km i j k :
  rasterize s ys = Ok km →
  get3 km i j k = Some false ↔
  (i < dim0 s)%nat ∧ (j < dim1 s)%nat ∧ (k < dim2 s)%nat ∧
  existsb (fun xy => hit (dim2 s) xy j k) (shear_pairs ys) = true.
Proof.
  intros Hr. rewrite (rasterize_get3 _ _ _ _ _ _ Hr). split.
  - intros Hf. destruct (get3 (np_ones s) i j k) as [v|] eqn:Hv; [|done].
    apply get3_np_ones_inv in Hv as (-> & ? & ? & ?). simpl in Hf.
    destruct (existsb _ _); [done|discriminate].
  - intros (Hi & Hj & Hk & ->). by rewrite get3_np_ones.
Qed.

(** X16: in the keep-mask the zeroed voxels of a column are an initial
    segment of the third axis: below a zeroed voxel every voxel is
    zeroed. *)
Theorem zeroed_from_below (mask : ndarray Z) (buff : Z) (km : ndarray bool) i j k k' :
  defaced_mask mask buff = Ok km →
  get3 km i j k = Some false → (k' ≤ k)%nat → get3 km i j k' = Some false.
Proof.
  intros (slope & yint & _ & Hr)%defaced_mask_inv Hz Hk.
  rewrite (rasterize_zeroed _ _ _ _ _ _ Hr) in Hz. destruct Hz as (Hi & Hj & Hk2 & He).
  rewrite (rasterize_zeroed _ _ _ _ _ _ Hr). split_and!; [done..|lia|].
  apply existsb_exists in He as (xy & Hin & Hhit). apply existsb_exists.
  exists xy. split; [done|]. unfold hit in *.
  apply andb_true_iff in Hhit as [Hx Hlt%bool_decide_eq_true].
  rewrite Hx. simpl. apply bool_decide_eq_true. lia.
Qed.

Lemma nonzero_from1_spec i (v : list bool) x :
  x ∈ nonzero_from1 i v ↔ ∃ j, x = (i + j)%nat ∧ v !! j = Some true.
Proof.
  revert i. induction v as [|b v IH]; intros i; simpl.
  - split; [by intros ?%elem_of_nil|by intros (? & ? & ?)].
  - assert (x ∈ nonzero_from1 (S i) v ↔ ∃ j, x = (i + S j)%nat ∧ v !! j = Some true) as IH'.
    { rewrite IH. by setoid_rewrite Nat.add_succ_r. }
    destruct b.
    + rewrite elem_of_cons, IH'. split.
      * intros [->|(j & -> & Hj)]; [exists 0%nat; split; [lia|done]|by exists (S j)].
      * intros ([|j] & -> & Hj); [left; lia|right; eauto].
    + rewrite IH'. split.
      * intros (j & -> & Hj). by exists (S j).
      * intros ([|j] & -> & Hj); [done|eauto].
Qed.

Lemma elem_of_nonzero1 (v : list bool) x : x ∈ nonzero1 v ↔ v !! x = Some true.
Proof.
  unfold nonzero1. rewrite nonzero_from1_spec. split.
  - by intros (j & -> & Hj).
  - intros Hx. by exists x.
Qed.

Lemma nonzero_from1_NoDup i (v : list bool) : NoDup (nonzero_from1 i v).
Proof.
  revert i. induction v as [|b v IH]; intros i; simpl; [constructor|].
  destruct b; [|apply IH]. constructor; [|apply IH].
  rewrite nonzero_from1_spec. intros (j & Hj & _). lia.
Qed.

Lemma length_nonzero_from1 i (v : list bool) : (length (nonzero_from1 i v) ≤ length v)%nat.
Proof.
  revert i. induction v as [|b v IH]; intros i; simpl; [done|].
  destruct b; simpl; specialize (IH (S i)); lia.
Qed.

Lemma existsb_hit_absent n2 (xs : list nat) (hs : list Z) j k :
  j ∉ xs → existsb (fun xy => hit n2 xy j k) (zip xs hs) = false.
Proof.
  revert hs. induction xs as [|x xs IH]; intros hs Hj; [done|].
  destruct hs as [|h hs]; [done|]. simpl.
  apply not_elem_of_cons in Hj as [Hne Hj]. rewrite IH by done.
  unfold hit. simpl. by rewrite bool_decide_eq_false_2.
Qed.

Lemma existsb_hit_rank n2 (xs : list nat) (hs : list Z) r x h k :
  NoDup xs → xs !! r = Some x → hs !! r = Some h →
  existsb (fun xy => hit n2 xy x k) (zip xs hs) = bool_decide (k < py_slice_stop n2 h)%nat.
Proof.
  revert hs r. induction xs as [|x0 xs IH]; intros hs r Hnd Hx Hh; [done|].
  destruct hs as [|h0 hs]; [done|]. apply NoDup_cons in Hnd as [Hx0 Hnd].
  destruct r as [|r]; simplify_eq/=.
  - rewrite existsb_hit_absent by done. unfold hit. simpl.
    rewrite bool_decide_eq_true_2 by done. by rewrite orb_false_r.
  - rewrite (IH hs r) by done. unfold hit at 1. simpl.
    rewrite bool_decide_eq_false_2; [done|].
    intros ->. apply Hx0. by eapply list_elem_of_lookup_2.
Qed.

Lemma shear_loop_raise pairs dm :
  Exists (fun xy => (dim1 (shape dm) ≤ xy.1)%nat) pairs →
  shear_loop pairs dm = Raise IndexError.
Proof.
  revert dm. induction pairs as [|[x y] pairs IH]; intros dm Hex.
  - by apply Exists_nil in Hex.
  - simpl. unfold setitem_zero. case_decide as Hx; [|done]. simpl.
    apply IH. simpl. apply Exists_cons in Hex as [Hbad|Hex]; [simpl in Hbad; lia|done].
Qed.

Lemma shear_loop_in_axis pairs dm dm' :
  shear_loop pairs dm = Ok dm' → Forall (fun xy => (xy.1 < dim1 (shape dm))%nat) pairs.
Proof.
  intros Hok. apply Forall_forall. intros xy Hin.
  destruct (decide (xy.1 < dim1 (shape dm))%nat) as [|Hge]; [done|]. exfalso.
  rewrite shear_loop_raise in Hok; [done|].
  apply Exists_exists. exists xy. split; [done|lia].
Qed.

Lemma fst_shear_pairs ys : (shear_pairs ys).*1 = nonzero1 (f64_gt0 <$> ys).
Proof.
  unfold shear_pairs. apply fst_zip. unfold nonzero1.
  etrans; [apply length_nonzero_from1|]. by rewrite !length_fmap.
Qed.

Lemma rasterize_beyond_axis s ys x :
  (f64_gt0 <$> ys) !! x = Some true → (dim1 s ≤ x)%nat →
  rasterize s ys = Raise IndexError.
Proof.
  intros Hx Hge. unfold rasterize. apply shear_loop_raise. simpl.
  apply elem_of_nonzero1 in Hx. rewrite <-fst_shear_pairs in Hx.
  apply list_elem_of_fmap in Hx as (xy & -> & Hin).
  apply Exists_exists. eauto.
Qed.

Lemma defaced_mask_line mask buff slope yint :
  shear_line (convex_hull (edge_mask mask)) buff = Ok (slope, yint) →
  defaced_mask mask buff =
  rasterize (shape mask) (line_values (dim2 (shape mask)) slope yint).
Proof. intros H. unfold defaced_mask. by rewrite H. Qed.

Lemma positive_positions n slope yint x :
  x ∈ nonzero1 (f64_gt0 <$> line_values n slope yint) ↔
  (x < n)%nat ∧ f64_gt0 (line_at slope yint x) = true.
Proof.
  rewrite elem_of_nonzero1, list_lookup_fmap, lookup_line_values.
  case_decide as Hx; simpl.
  - split; [by intros [= ->]|by intros [_ ->]].
  - split; [done|]. by intros [? _].
Qed.

(** X17: the loop pairs the positions where the line is positive, in
    increasing order, with the truncated line values read from the start of
    the line.  Whenever the keep-mask is returned, the [r]-th position [x]
    with a positive line value lies on the second axis and its column is
    zeroed over the slice that stops at the truncation of the line value at
    index [r], which is the value at [x] only when every position before
    [x] is positive too; the columns of the other positions are kept. *)
Theorem columns_cut_by_rank (mask : ndarray Z) (buff : Z) (slope yint : float64)
    (km : ndarray bool) :
  shear_line (convex_hull (edge_mask mask)) buff = Ok (slope, yint) →
  defaced_mask mask buff = Ok km →
  let n2 := dim2 (shape mask) in
  let positive := nonzero1 (f64_gt0 <$> line_values n2 slope yint) in
  (∀ x, x ∈ positive ↔ (x < n2)%nat ∧ f64_gt0 (line_at slope yint x) = true) ∧
  ∀ i k, (i < dim0 (shape mask))%nat → (k < n2)%nat →
    (∀ r x, positive !! r = Some x →
       (x < dim1 (shape mask))%nat ∧
       get3 km i x k =
       Some (negb (bool_decide
                     (k < py_slice_stop n2 (astype_int (line_at slope yint r)))%nat))) ∧
    (∀ j, (j < dim1 (shape mask))%nat → j ∉ positive → get3 km i j k = Some true).
Proof.
  intros Hline Hkm n2 positive. rewrite (defaced_mask_line _ _ _ _ Hline) in Hkm.
  split; [intros x; apply positive_positions|].
  intros i k Hi Hk. split.
  - intros r x Hx.
    assert (x < dim1 (shape mask))%nat as Hx1.
    { pose proof (shear_loop_in_axis _ _ _ Hkm) as Hall. simpl in Hall.
      apply (Forall_fmap fst (fun x => (x < dim1 (shape mask))%nat)) in Hall.
      rewrite fst_shear_pairs in Hall. fold n2 positive in Hall.
      eapply Forall_lookup_1 in Hall; [|exact Hx]. done. }
    split; [done|].
    rewrite (rasterize_get3 _ _ _ _ _ _ Hkm), get3_np_ones by done. simpl. f_equal.
    assert (r < n2)%nat as Hr.
    { apply lookup_lt_Some in Hx. unfold positive, nonzero1 in Hx.
      pose proof (length_nonzero_from1 0 (f64_gt0 <$> line_values n2 slope yint)) as Hl.
      rewrite length_fmap, length_line_values in Hl. lia. }
    unfold shear_pairs. fold n2 positive.
    rewrite (existsb_hit_rank n2 positive _ r x (astype_int (line_at slope yint r)));
      [by destruct (bool_decide _)|apply nonzero_from1_NoDup|done|].
    by rewrite list_lookup_fmap, lookup_line_values, decide_True.
  - intros j Hj Hnot.
    rewrite (rasterize_get3 _ _ _ _ _ _ Hkm), get3_np_ones by done. simpl.
    unfold shear_pairs. fold n2 positive. by rewrite existsb_hit_absent.
Qed.

(** X18: the line is evaluated at as many positions as the third axis is
    long and each positive position is used as an index of the second axis:
    a positive line value at a position beyond the second axis makes the
    assignment raise [IndexError], and without such a position the keep-mask
    is returned. *)
Theorem positive_beyond_second_axis (mask : ndarray Z) (buff : Z) (slope yint : float64) :
  shear_line (convex_hull (edge_mask mask)) buff = Ok (slope, yint) →
  ((∃ x, (dim1 (shape mask) ≤ x < dim2 (shape mask))%nat ∧
         f64_gt0 (line_at slope yint x) = true) →
   defaced_mask mask buff = Raise IndexError) ∧
  ((∀ x, (x < dim2 (shape mask))%nat → f64_gt0 (line_at slope yint x) = true →
         (x < dim1 (shape mask))%nat) →
   ∃ km, defaced_mask mask buff = Ok km).
Proof.
  intros Hline. rewrite (defaced_mask_line _ _ _ _ Hline). split.
  - intros (x & [Hx1 Hx2] & Hpos). apply (rasterize_beyond_axis _ _ x); [|done].
    by rewrite list_lookup_fmap, lookup_line_values, decide_True, <-Hpos.
  - intros Hin. unfold rasterize. apply shear_loop_ok. simpl.
    apply shear_pairs_in_axis. intros j y Hy Hpos.
    rewrite lookup_line_values in Hy. case_decide; [|done]. injection Hy as <-. eauto.
Qed.

(** X20: the slope does not depend on the buffer, and for buffers
    [b ≤ b'] the float64 line under [b'] is positive only where the line
    under [b] is and, where the cast of the latter stays non-negative (no
    int64 overflow), its cast is not larger. *)
Theorem line_lowered_by_buffer (low : array2 Z) (b b' : Z)
    (slope yint slope' yint' : float64) (p : nat) :
  b ≤ b' →
  shear_line low b = Ok (slope, yint) → shear_line low b' = Ok (slope', yint') →
  slope' = slope ∧
  (f64_gt0 (line_at slope' yint' p) = true → f64_gt0 (line_at slope yint p) = true) ∧
  (f64_gt0 (line_at slope' yint' p) = true → 0 ≤ astype_int (line_at slope yint p) →
   astype_int (line_at slope' yint' p) ≤ astype_int (line_at slope yint p)).
Proof.
  intros Hb Hline Hline'.
  destruct (shear_line_buffer _ _ _ _ Hline) as (C & HC & -> & Hlines).
  destruct (Hlines _ _ _ Hline') as [-> ->].
  split; [done|]. unfold line_at. split.
  - apply line_gt0_mono; [apply f64_mul_repr|done..].
  - apply line_astype_mono; [apply f64_mul_repr|done..].
Qed.

(** ** A silhouette with a boundary has a hull of two points or more *)

Lemma bool_step (f : nat → bool) (a b : nat) :
  (a ≤ b)%nat → f a ≠ f b → ∃ t, (a ≤ t < b)%nat ∧ f t ≠ f (S t).
Proof.
  induction b as [|b IH]; intros Hab Hne.
  - assert (a = 0%nat) as -> by lia. done.
  - destruct (decide (a = S b)) as [->|Hlt]; [done|].
    destruct (decide (f b = f (S b))) as [Heq|Hstep].
    + destruct IH as (t & Ht & Hft); [lia|congruence|]. exists t. split; [lia|done].
    + exists b. split; [lia|done].
Qed.

Lemma lit_get2 n1 n2 (brain : array2 bool) (i j : nat) :
  rect n1 n2 brain → (i < n1)%nat → (j < n2)%nat →
  get2 brain i j = Some (lit brain (Z.of_nat i) (Z.of_nat j)).
Proof.
  intros Hr Hi Hj. unfold lit. rewrite !Nat2Z.id.
  by destruct (rect_get2 _ _ _ _ _ Hr Hi Hj) as [b ->].
Qed.

Lemma edge_step0 n1 n2 (brain : array2 bool) (t k : nat) :
  rect n1 n2 brain → (S t < n1)%nat → (k < n2)%nat →
  lit brain (Z.of_nat t) (Z.of_nat k) ≠ lit brain (Z.of_nat (S t)) (Z.of_nat k) →
  get2 (edges brain) t k = Some true ∧ get2 (edges brain) (S t) k = Some true.
Proof.
  intros Hr Ht Hk Hne. rewrite !(edges_differs n1 n2) by (done || lia).
  unfold differs_from_neighbour.
  replace ((Z.of_nat t + 1) `mod` Z.of_nat n1) with (Z.of_nat (S t))
    by (rewrite Z.mod_small; lia).
  replace ((Z.of_nat (S t) - 1) `mod` Z.of_nat n1) with (Z.of_nat t)
    by (rewrite Z.mod_small; lia).
  destruct (lit brain (Z.of_nat t) (Z.of_nat k)), (lit brain (Z.of_nat (S t)) (Z.of_nat k));
    try done; simpl; split; f_equal; by rewrite ?orb_true_r.
Qed.

Lemma edge_step1 n1 n2 (brain : array2 bool) (j t : nat) :
  rect n1 n2 brain → (j < n1)%nat → (S t < n2)%nat →
  lit brain (Z.of_nat j) (Z.of_nat t) ≠ lit brain (Z.of_nat j) (Z.of_nat (S t)) →
  get2 (edges brain) j t = Some true ∧ get2 (edges brain) j (S t) = Some true.
Proof.
  intros Hr Hj Ht Hne. rewrite !(edges_differs n1 n2) by (done || lia).
  unfold differs_from_neighbour.
  replace ((Z.of_nat t + 1) `mod` Z.of_nat n2) with (Z.of_nat (S t))
    by (rewrite Z.mod_small; lia).
  replace ((Z.of_nat (S t) - 1) `mod` Z.of_nat n2) with (Z.of_nat t)
    by (rewrite Z.mod_small; lia).
  destruct (lit brain (Z.of_nat j) (Z.of_nat t)), (lit brain (Z.of_nat j) (Z.of_nat (S t)));
    try done; simpl; split; f_equal; by rewrite ?orb_true_r.
Qed.

Lemma two_edges n1 n2 (brain : array2 bool) (j k j' k' : nat) :
  rect n1 n2 brain → (j < n1)%nat → (k < n2)%nat → (j' < n1)%nat → (k' < n2)%nat →
  lit brain (Z.of_nat j) (Z.of_nat k) ≠ lit brain (Z.of_nat j') (Z.of_nat k') →
  ∃ p q : nat * nat, p ≠ q ∧ get2 (edges brain) p.1 p.2 = Some true ∧
                     get2 (edges brain) q.1 q.2 = Some true.
Proof.
  intros Hr Hj Hk Hj' Hk' Hne.
  destruct (decide (lit brain (Z.of_nat j) (Z.of_nat k) = lit brain (Z.of_nat j') (Z.of_nat k)))
    as [Heq|Hcol].
  - (* the two differ along the second axis *)
    rewrite Heq in Hne.
    destruct (bool_step (fun t => lit brain (Z.of_nat j') (Z.of_nat t)) (k `min` k') (k `max` k'))
      as (t & Ht & Hstep); [lia| |].
    { destruct (Nat.min_spec k k') as [[? ->]|[? ->]];
        destruct (Nat.max_spec k k') as [[? ->]|[? ->]]; try lia; congruence. }
    destruct (edge_step1 n1 n2 brain j' t Hr Hj' ltac:(lia) Hstep) as [H1 H2].
    exists (j', t), (j', S t). split; [intros [=]; lia|done].
  - destruct (bool_step (fun t => lit brain (Z.of_nat t) (Z.of_nat k)) (j `min` j') (j `max` j'))
      as (t & Ht & Hstep); [lia| |].
    { destruct (Nat.min_spec j j') as [[? ->]|[? ->]];
        destruct (Nat.max_spec j j') as [[? ->]|[? ->]]; try lia; congruence. }
    destruct (edge_step0 n1 n2 brain t k Hr ltac:(lia) Hk Hstep) as [H1 H2].
    exists (t, k), (S t, k). split; [intros [=]; lia|done].
Qed.

Lemma constant_or_two_edges n1 n2 (brain : array2 bool) :
  rect n1 n2 brain →
  (∃ c, brain = replicate n1 (replicate n2 c)) ∨
  (∃ p q : nat * nat, p ≠ q ∧ get2 (edges brain) p.1 p.2 = Some true ∧
                      get2 (edges brain) q.1 q.2 = Some true).
Proof.
  intros Hr. set (c := lit brain 0 0).
  destruct (decide (Forall (Forall (fun b => b = c)) brain)) as [Hall|Hnot].
  - left. exists c. apply (rect_ext n1 n2); [done|apply rect_replicate|].
    intros i j Hi Hj. rewrite get2_replicate by done.
    destruct (rect_get2 _ _ _ _ _ Hr Hi Hj) as [b Hb]. rewrite Hb. f_equal.
    unfold get2 in Hb. destruct (brain !! i) as [row|] eqn:Hrow; [|done]. simpl in Hb.
    eapply Forall_lookup_1 in Hall; [|exact Hrow].
    eapply Forall_lookup_1 in Hall; [|exact Hb]. done.
  - right. apply not_Forall_Exists in Hnot; [|apply _].
    apply Exists_exists in Hnot as (row & Hrow & Hex).
    apply not_Forall_Exists in Hex; [|apply _].
    apply Exists_exists in Hex as (b & Hb & Hbc).
    apply list_elem_of_lookup_1 in Hrow as [i Hi].
    apply list_elem_of_lookup_1 in Hb as [j Hj].
    destruct Hr as [Hl Hrows].
    pose proof (Forall_lookup_1 _ _ _ _ Hrows Hi) as Hlen. simpl in Hlen.
    pose proof (lookup_lt_Some _ _ _ Hi) as Hi'. pose proof (lookup_lt_Some _ _ _ Hj) as Hj'.
    apply (two_edges n1 n2 brain i j 0 0); [by split|lia..|].
    assert (lit brain (Z.of_nat i) (Z.of_nat j) = b) as ->.
    { unfold lit, get2. by rewrite !Nat2Z.id, Hi; simpl; rewrite Hj. }
    done.
Qed.

Lemma edge_point (mask : ndarray Z) (j k : nat) :
  get2 (edges (any_axis0 mask)) j k = Some true →
  (Z.of_nat j, Z.of_nat k) ∈ nonzero_points (edge_mask mask).
Proof.
  intros He. apply nonzero_points_spec. unfold edge_mask.
  unfold get2 in He. destruct (edges (any_axis0 mask) !! j) as [row|] eqn:Hrow; [|done].
  simpl in He. exists j, k, (Z.b2z <$> row), 1. split_and!; [|  |done|done].
  - unfold map2d. by rewrite list_lookup_fmap, Hrow.
  - by rewrite list_lookup_fmap, He.
Qed.

Lemma sorted_head_last (pts : list point) (p q : point) :
  StronglySorted lex_lt pts → p ∈ pts → q ∈ pts → p ≠ q → head pts ≠ last pts.
Proof.
  intros Hs Hp Hq Hne. destruct pts as [|a rest]; [by apply elem_of_nil in Hp|].
  destruct rest as [|b rest].
  { apply list_elem_of_singleton in Hp, Hq. congruence. }
  apply StronglySorted_inv in Hs as [_ Hall]. rewrite last_cons_cons.
  destruct (last (b :: rest)) as [z|] eqn:Hz; [|done].
  intros [= ->]. rewrite Forall_forall in Hall.
  specialize (Hall z (last_Some_elem_of _ _ Hz)). unfold lex_lt in Hall. lia.
Qed.

(** The hull of an edge mask has no point, when the profile is constant,
    or two points and more. *)
Lemma edge_hull_cases (mask : ndarray Z) :
  wf_array mask →
  lower_hull (nonzero_points (edge_mask mask)) = [] ∨
  ∃ p0 p1 rest, lower_hull (nonzero_points (edge_mask mask)) = p0 :: p1 :: rest.
Proof.
  intros Hwf. destruct (any_axis0_spec mask Hwf) as [Hr _].
  pose proof (nonzero_points_sorted (edge_mask mask)) as Hsorted.
  pose proof (lower_hull_correct _ Hsorted) as H.
  destruct (constant_or_two_edges _ _ _ Hr) as [[c Hc]|(p & q & Hpq & Hp & Hq)].
  - left. apply (constant_profile_empty_hull mask c Hc).
  - apply edge_point in Hp, Hq.
    assert (head (nonzero_points (edge_mask mask)) ≠ last (nonzero_points (edge_mask mask)))
      as Hhl.
    { eapply sorted_head_last; [done|exact Hp|exact Hq|].
      intros [= H1 H2]. apply Hpq. destruct p, q; simpl in *. f_equal; lia. }
    rewrite <-(hull_first _ _ H), <-(hull_last _ _ H) in Hhl.
    destruct (lower_hull (nonzero_points (edge_mask mask))) as [|a [|b h]] eqn:Hh;
      [by left|done|]. right. eauto.
Qed.

(** X6: the hull of the edge mask of a well-formed mask is empty exactly
    when the sagittal profile is constant, and it never consists of a single
    point: a profile that is not constant has two marked pixels. *)
Theorem hull_of_edge_mask (mask : ndarray Z) :
  wf_array mask →
  (lower_hull (nonzero_points (edge_mask mask)) = [] ↔
   ∃ c, any_axis0 mask = replicate (dim1 (shape mask)) (replicate (dim2 (shape mask)) c)) ∧
  length (lower_hull (nonzero_points (edge_mask mask))) ≠ 1%nat.
Proof.
  intros Hwf. destruct (any_axis0_spec mask Hwf) as [Hr _].
  pose proof (nonzero_points_sorted (edge_mask mask)) as Hsorted.
  pose proof (lower_hull_correct _ Hsorted) as H.
  destruct (constant_or_two_edges _ _ _ Hr) as [[c Hc]|(p & q & Hpq & Hp & Hq)].
  - rewrite (constant_profile_empty_hull mask c Hc). split; [|done]. split; [eauto|done].
  - apply edge_point in Hp, Hq.
    assert (head (nonzero_points (edge_mask mask)) ≠ last (nonzero_points (edge_mask mask)))
      as Hhl.
    { eapply sorted_head_last; [done|exact Hp|exact Hq|].
      intros [= H1 H2]. apply Hpq. destruct p, q; simpl in *. f_equal; lia. }
    rewrite <-(hull_first _ _ H), <-(hull_last _ _ H) in Hhl.
    destruct (lower_hull (nonzero_points (edge_mask mask))) as [|a [|b h]] eqn:Hh;
      [done|done|].
    split; [|done]. split; [done|]. intros [c Hc].
    by rewrite (constant_profile_empty_hull mask c Hc) in Hh.
Qed.

(** ** Multiplying twice by a keep-mask *)

Lemma zip_with_idem {A B} (f : A → B → B) (a : list A) (b : list B) :
  (∀ x y, f x (f x y) = f x y) → zip_with f a (zip_with f a b) = zip_with f a b.
Proof.
  intros Hf. revert b. induction a as [|x a IH]; intros [|y b]; simpl; [done..|].
  by rewrite Hf, IH.
Qed.

Lemma zip3d_mask_mul_idem (k : list (list (list bool))) (a : list (list (list Z))) :
  zip3d mask_mul k (zip3d mask_mul k a) = zip3d mask_mul k a.
Proof.
  unfold zip3d. apply zip_with_idem. intros p q. apply zip_with_idem.
  intros r t. apply zip_with_idem. by intros [] v.
Qed.


(** ** The voxels of the keep-mask and the line *)




(** * The claims on the pipeline *)

Section PipelineClaims.

Context {affine_t header_t : Type}.
Variable aff2axcodes : affine_t → string * string * string.
Variable py_int : string → option Z.
Variable file_names : image affine_t header_t → string → option (list string).

Implicit Types anat_img mask_img out : image affine_t header_t.
Implicit Types w : world affine_t header_t.

(** C4, as the code has it: nothing checks the hull.  The hull of an edge
    mask never has exactly one point.  A hull without points makes the
    unpacking of the differences raise [ValueError], which [deface] lets
    through with nothing written or logged.  A leading segment with zero
    run raises nothing when the buffer is one a float64 can hold (a
    magnitude below [2^1024 - 2^970]): [quickshear] returns the anatomical
    image as it was and [deface] writes it unchanged to the files that the
    output name stands for, leaves every other file alone and announces the
    output; only a name that does not suit the image stops the run, with
    nibabel's [ImageFileError] and nothing written.  With a larger buffer
    the subtraction raises [OverflowError] and nothing is written. *)
Theorem degenerate_geometry anat_filename mask_filename defaced_filename buff w
    anat_img mask_img mask mask_flip :
  files w !! anat_filename = Some anat_img →
  files w !! mask_filename = Some mask_img →
  wf_array (dataobj anat_img) →
  wf_array (dataobj mask_img) →
  img_shape mask_img = img_shape anat_img →
  orient_xPS aff2axcodes mask_img "R" = Ok (mask, mask_flip) →
  let run :=
    deface aff2axcodes file_names anat_filename mask_filename defaced_filename buff w in
  match lower_hull (nonzero_points (edge_mask mask)) with
  | [] =>
      quickshear aff2axcodes anat_img mask_img buff = Raise ValueError ∧
      run = (Raise ValueError, w)
  | [_] => False
  | p0 :: p1 :: _ =>
      p0.1 = p1.1 →
      if decide (Z.abs buff < 2 ^ 1024 - 2 ^ 970) then
        quickshear aff2axcodes anat_img mask_img buff = Ok anat_img ∧
        match file_names anat_img defaced_filename with
        | Some names =>
            run.1 = Ok () ∧
            logged run.2 = logged w ++ [(INFO, "Defaced file: " +:+ defaced_filename)] ∧
            ∀ f, files run.2 !! f =
                 if decide (f ∈ names) then Some anat_img else files w !! f
        | None => run = (Raise ImageFileError, w)
        end
      else
        quickshear aff2axcodes anat_img mask_img buff = Raise OverflowError ∧
        run = (Raise OverflowError, w)
  end.
Proof.
  intros Ha Hm Hwfa Hwfm Hshape Hmask run.
  change (2 ^ 1024 - 2 ^ 970) with pyint_limit.
  assert (shape mask = img_shape anat_img ∧ wf_array mask) as [Hs Hwf].
  { destruct (orient_xPS_ok aff2axcodes mask_img "R") as (b0 & b1 & b2 & Ho).
    rewrite Hmask in Ho. injection Ho as -> _. split; [done|].
    by apply (shaped_flip (img_shape mask_img)). }
  assert (quickshear aff2axcodes anat_img mask_img buff =
          (dm ← defaced_mask mask buff;
           prod ← np_mul dm
             (NdArray (img_shape anat_img)
                (flip_elems (bool_decide ((aff2axcodes (affine anat_img)).1.1 ≠ "R"))
                   (bool_decide ((aff2axcodes (affine anat_img)).1.2 ≠ "P"))
                   (bool_decide ((aff2axcodes (affine anat_img)).2 ≠ "S"))
                   (elems (dataobj anat_img))));
           out ← flip_axes prod
             [bool_decide ((aff2axcodes (affine anat_img)).1.1 ≠ "R");
              bool_decide ((aff2axcodes (affine anat_img)).1.2 ≠ "P");
              bool_decide ((aff2axcodes (affine anat_img)).2 ≠ "S")];
           Ok (Image out (affine anat_img) (header anat_img)))) as Hq.
  { unfold quickshear. rewrite Hmask. unfold orient_xPS.
    destruct (aff2axcodes (affine anat_img)) as [[c0 c1] c2].
    by rewrite flip_axes_3. }
  symmetry in Hshape.
  destruct (edge_hull_cases mask Hwf) as [Hh|(p0 & p1 & rest & Hh)]; rewrite Hh.
  - assert (quickshear aff2axcodes anat_img mask_img buff = Raise ValueError) as Hr.
    { by rewrite Hq, defaced_mask_empty_hull. }
    split; [done|]. by apply deface_raise with anat_img mask_img.
  - intros Hx. destruct (decide (Z.abs buff < pyint_limit)) as [Hb|Hb].
    + assert (quickshear aff2axcodes anat_img mask_img buff = Ok anat_img) as Hr.
      { rewrite Hq, (defaced_mask_vertical _ _ p0 p1 rest) by done.
        cbn [mbind result_bind].
        rewrite Hs, np_mul_same_shape; [|apply wf_np_ones|by apply shaped_flip|done].
        cbn [mbind result_bind]. rewrite flip_axes_3. cbn [mbind result_bind shape elems].
        unfold np_ones. cbn [elems]. rewrite zip3d_ones by by apply shaped_flip.
        rewrite flip_elems_involutive.
        by destruct anat_img as [[??]??]. }
      split; [done|].
      destruct (file_names anat_img defaced_filename) as [names|] eqn:Hn.
      * unfold run.
        rewrite (deface_ok _ _ _ _ _ _ _ anat_img mask_img anat_img names) by done.
        split_and!; [done..|]. intros f. cbn [snd log files].
        apply lookup_write_files.
      * by apply deface_refused with anat_img mask_img anat_img.
    + assert (quickshear aff2axcodes anat_img mask_img buff = Raise OverflowError) as Hr.
      { rewrite Hq, (defaced_mask_overflow _ _ p0 p1 rest); [done|done|lia]. }
      split; [done|]. by apply deface_raise with anat_img mask_img.
Qed.

(** C5, as the code has it: with five or more arguments, the fifth an
    integer, [main] runs [deface] with the supplied buffer and then once
    more with the default buffer of 10, and the second run loads its inputs
    anew.  When both runs succeed, the output name suits both results and
    the first run writes over neither input, the second run defaces the
    same inputs: the files that the output name stands for hold the result
    for the default buffer, whatever buffer was supplied, every other file
    is as it was, and the logger has announced the output file twice. *)
Theorem main_defaces_twice argv w buff anat_img mask_img out1 out2 names1 names2 :
  (5 ≤ length argv)%nat →
  py_int (arg argv 4) = Some buff →
  files w !! arg argv 1 = Some anat_img →
  files w !! arg argv 2 = Some mask_img →
  img_shape anat_img = img_shape mask_img →
  quickshear aff2axcodes anat_img mask_img buff = Ok out1 →
  quickshear aff2axcodes anat_img mask_img default_buff = Ok out2 →
  file_names out1 (arg argv 3) = Some names1 →
  file_names out2 (arg argv 3) = Some names2 →
  arg argv 1 ∉ names1 → arg argv 2 ∉ names1 →
  let msg := "Defaced file: " +:+ arg argv 3 in
  let w1 := World (write_files names1 out1 (files w)) (logged w ++ [(INFO, msg)]) in
  let run := main aff2axcodes py_int file_names argv w in
  deface aff2axcodes file_names (arg argv 1) (arg argv 2) (arg argv 3) buff w
    = (Ok (), w1) ∧
  run = deface aff2axcodes file_names (arg argv 1) (arg argv 2) (arg argv 3)
          default_buff w1 ∧
  run = (Ok (),
         World (write_files names2 out2 (write_files names1 out1 (files w)))
               (logged w ++ [(INFO, msg); (INFO, msg)])) ∧
  (∀ name, files run.2 !! name =
           if decide (name ∈ names2) then Some out2
           else if decide (name ∈ names1) then Some out1
           else files w !! name) ∧
  (names1 = names2 →
   ∀ name, files run.2 !! name =
           if decide (name ∈ names2) then Some out2 else files w !! name).
Proof.
  intros Hlen Hint Ha Hm Hshape Hq1 Hq2 Hn1 Hn2 Hna Hnm msg w1 run.
  assert (deface aff2axcodes file_names (arg argv 1) (arg argv 2) (arg argv 3) buff w
          = (Ok (), w1)) as Hd1 by eauto using deface_ok.
  assert (run = deface aff2axcodes file_names (arg argv 1) (arg argv 2) (arg argv 3)
                  default_buff w1) as Hrun.
  { unfold run, main. rewrite decide_False by lia. rewrite decide_True by lia.
    by rewrite Hint, Hd1. }
  assert (run = (Ok (),
                 World (write_files names2 out2 (write_files names1 out1 (files w)))
                       (logged w ++ [(INFO, msg); (INFO, msg)]))) as Hfinal.
  { rewrite Hrun.
    rewrite (deface_ok _ _ _ _ _ _ _ anat_img mask_img out2 names2); [| | |done..].
    - unfold w1, log, msg. cbn [files logged]. by rewrite <-app_assoc.
    - unfold w1. cbn [files]. by rewrite lookup_write_files, decide_False.
    - unfold w1. cbn [files]. by rewrite lookup_write_files, decide_False. }
  assert (∀ name, files run.2 !! name =
                  if decide (name ∈ names2) then Some out2
                  else if decide (name ∈ names1) then Some out1
                  else files w !! name) as Hfiles.
  { intros name. rewrite Hfinal. cbn [snd files].
    by rewrite !lookup_write_files. }
  split_and!; [done..|].
  intros <- name. rewrite Hfiles. by destruct (decide (name ∈ names1)).
Qed.

(** C6: for every pair of volumes whose shapes differ, [deface] exits
    with status -1 after the warning, whatever the buffer and without
    looking at the voxels; [main] then ends with a non-zero status and the
    files as they were, and with exactly this exit when the buffer
    argument is absent or an integer. *)
Theorem shape_mismatch_exits argv w anat_img mask_img :
  (4 ≤ length argv)%nat →
  files w !! arg argv 1 = Some anat_img →
  files w !! arg argv 2 = Some mask_img →
  img_shape anat_img ≠ img_shape mask_img →
  let warned :=
    log WARNING "Anatomical and mask images do not have the same dimensions." w in
  (∀ buff, deface aff2axcodes file_names (arg argv 1) (arg argv 2) (arg argv 3) buff w
           = (Raise (SystemExit (-1)), warned)) ∧
  exit_status (main aff2axcodes py_int file_names argv w).1 ≠ 0 ∧
  files (main aff2axcodes py_int file_names argv w).2 = files w ∧
  (length argv = 4%nat ∨ is_Some (py_int (arg argv 4)) →
   main aff2axcodes py_int file_names argv w = (Raise (SystemExit (-1)), warned) ∧
   exit_status (Raise (SystemExit (-1))) = 255).
Proof.
  intros Hlen Ha Hm Hne warned.
  assert (∀ buff, deface aff2axcodes file_names (arg argv 1) (arg argv 2) (arg argv 3)
                    buff w
                  = (Raise (SystemExit (-1)), warned)) as Hd.
  { intros buff. by apply deface_mismatch with anat_img mask_img. }
  assert (length argv = 4%nat ∨ is_Some (py_int (arg argv 4)) →
          main aff2axcodes py_int file_names argv w = (Raise (SystemExit (-1)), warned))
    as Hmain.
  { intros Hbuff. unfold main. rewrite decide_False by lia.
    case_decide as H5; [|apply Hd].
    destruct Hbuff as [?|[buff Hbuff]]; [lia|]. by rewrite Hbuff, Hd. }
  split_and!; [done| | |by auto].
  - unfold main. rewrite decide_False by lia.
    case_decide; [|by rewrite Hd].
    destruct (py_int (arg argv 4)); [by rewrite Hd|done].
  - unfold main. rewrite decide_False by lia.
    case_decide; [|by rewrite Hd].
    destruct (py_int (arg argv 4)); [by rewrite Hd|done].
Qed.


End PipelineClaims.
(** * Further properties: orientation, images and files *)

Section ImageExtras.

Context {affine_t header_t : Type}.
Variable aff2axcodes : affine_t → string * string * string.

Implicit Types img anat_img mask_img out : image affine_t header_t.
Implicit Types w : world affine_t header_t.

Lemma orient_xPS_codes img hemi a0 a1 a2 :
  aff2axcodes (affine img) = (a0, a1, a2) →
  orient_xPS aff2axcodes img hemi =
  Ok (NdArray (img_shape img)
        (flip_elems (bool_decide (a0 ≠ hemi)) (bool_decide (a1 ≠ "P"))
           (bool_decide (a2 ≠ "S")) (elems (dataobj img))),
      [bool_decide (a0 ≠ hemi); bool_decide (a1 ≠ "P"); bool_decide (a2 ≠ "S")]).
Proof. intros Hc. unfold orient_xPS. rewrite Hc, flip_axes_3. done. Qed.

(** X12: [orient_xPS] never fails and returns three flags and data of the
    shape of the image's; flipping the returned data with the returned flags
    gives the image's data back, which is how [quickshear] brings its result
    back to the anatomical's orientation. *)
Theorem orient_xPS_round_trip img hemi :
  ∃ data' flips,
    orient_xPS aff2axcodes img hemi = Ok (data', flips) ∧
    shape data' = img_shape img ∧ length flips = 3%nat ∧
    flip_axes data' flips = Ok (dataobj img).
Proof.
  destruct (aff2axcodes (affine img)) as [[a0 a1] a2] eqn:Hc.
  rewrite (orient_xPS_codes _ _ _ _ _ Hc). eexists _, _. split; [done|].
  split; [done|]. split; [done|].
  rewrite flip_axes_3. simpl. rewrite flip_elems_involutive. by destruct img as [[??]??].
Qed.

(** X13: [orient_xPS] sets the flag of an axis exactly when the axis code
    at that position differs from the wanted one ([hemi], P, S), and the
    data it returns are the image's mirrored along the flagged axes: axes
    are never exchanged, and an image already oriented comes back as it
    is. *)
Theorem orient_xPS_mirrors img hemi a0 a1 a2 :
  aff2axcodes (affine img) = (a0, a1, a2) →
  wf_array (dataobj img) →
  let f0 := bool_decide (a0 ≠ hemi) in
  let f1 := bool_decide (a1 ≠ "P") in
  let f2 := bool_decide (a2 ≠ "S") in
  ∃ data',
    orient_xPS aff2axcodes img hemi = Ok (data', [f0; f1; f2]) ∧
    shape data' = img_shape img ∧
    ∀ i j k, (i < dim0 (img_shape img))%nat → (j < dim1 (img_shape img))%nat →
             (k < dim2 (img_shape img))%nat →
      get3 data' i j k =
      get3 (dataobj img) (mirror f0 (dim0 (img_shape img)) i)
           (mirror f1 (dim1 (img_shape img)) j) (mirror f2 (dim2 (img_shape img)) k).
Proof.
  intros Hc Hwf f0 f1 f2. rewrite (orient_xPS_codes _ _ _ _ _ Hc). fold f0 f1 f2.
  eexists. split; [done|]. split; [done|]. intros i j k Hi Hj Hk.
  rewrite (get3_flip_elems (img_shape img) _ (img_shape img)) by done.
  unfold img_shape. by destruct (dataobj img).
Qed.

Lemma reverse_flip_elems {A} (b0 b1 b2 : bool) (e : list (list (list A))) :
  reverse (flip_elems b0 b1 b2 e) = flip_elems (negb b0) b1 b2 e.
Proof.
  unfold flip_elems.
  destruct b0, b1, b2; simpl; rewrite <-?fmap_reverse, ?reverse_involutive; done.
Qed.

(** X14: the data that [orient_xPS] returns for the hemispheres R and L
    are mirror images along the first axis when the first axis code is R or
    L, and equal otherwise; their edge masks are the same. *)
Theorem orient_xPS_hemisphere img a0 a1 a2 :
  aff2axcodes (affine img) = (a0, a1, a2) →
  ∃ dR fR dL fL,
    orient_xPS aff2axcodes img "R" = Ok (dR, fR) ∧
    orient_xPS aff2axcodes img "L" = Ok (dL, fL) ∧
    (a0 = "R" ∨ a0 = "L" → flip_axis dR 0 = Ok dL) ∧
    (a0 ≠ "R" → a0 ≠ "L" → dL = dR) ∧
    (wf_array (dataobj img) → edge_mask dL = edge_mask dR).
Proof.
  intros Hc. rewrite !(orient_xPS_codes _ _ _ _ _ Hc). eexists _, _, _, _.
  split; [done|]. split; [done|].
  assert (a0 = "R" ∨ a0 = "L" →
          bool_decide (a0 ≠ "L") = negb (bool_decide (a0 ≠ "R"))) as Hneg.
  { intros [->| ->]; by vm_compute. }
  split_and!.
  - intros H. simpl. by rewrite reverse_flip_elems, (Hneg H).
  - intros HR HL.
    by rewrite (bool_decide_eq_true_2 (a0 ≠ "L")), (bool_decide_eq_true_2 (a0 ≠ "R")).
  - intros Hwf. destruct (decide (a0 = "R" ∨ a0 = "L")) as [H|H].
    + rewrite (Hneg H), <-reverse_flip_elems.
      by rewrite edge_mask_reverse by by apply shaped_flip.
    + rewrite (bool_decide_eq_true_2 (a0 ≠ "L")), (bool_decide_eq_true_2 (a0 ≠ "R"));
        [done|naive_solver..].
Qed.

(** X4: [quickshear] reads the mask only through which voxels are
    non-zero: two mask images with one affine, one shape and the same
    non-zero voxels give the same result, so a masked image does as well as
    its binary mask. *)
Theorem masked_image_as_mask anat_img mask_img mask_img' buff :
  affine mask_img' = affine mask_img →
  img_shape mask_img' = img_shape mask_img →
  nonzero_pattern (elems (dataobj mask_img')) = nonzero_pattern (elems (dataobj mask_img)) →
  quickshear aff2axcodes anat_img mask_img' buff =
  quickshear aff2axcodes anat_img mask_img buff.
Proof.
  intros Haff Hshape Hpat.
  destruct (quickshear_unfold aff2axcodes anat_img mask_img' buff)
    as (a0' & a1' & a2' & m0' & m1' & m2' & Ha' & Hm' & ->).
  destruct (quickshear_unfold aff2axcodes anat_img mask_img buff)
    as (a0 & a1 & a2 & m0 & m1 & m2 & Ha & Hm & ->).
  rewrite Ha in Ha'. injection Ha' as _ <- <- <-.
  destruct (aff2axcodes (affine mask_img)) as [[c0 c1] c2] eqn:Hc.
  rewrite (orient_xPS_codes _ _ _ _ _ Hc) in Hm. injection Hm as _ <- <- <-.
  rewrite (orient_xPS_codes mask_img' _ c0 c1 c2) in Hm' by by rewrite Haff.
  injection Hm' as _ <- <- <-.
  rewrite Hshape.
  set (m0 := bool_decide (c0 ≠ "R")). set (m1 := bool_decide (c1 ≠ "P")).
  set (m2 := bool_decide (c2 ≠ "S")).
  rewrite (defaced_mask_pattern
             (NdArray (img_shape mask_img) (flip_elems m0 m1 m2 (elems (dataobj mask_img))))
             (NdArray (img_shape mask_img) (flip_elems m0 m1 m2 (elems (dataobj mask_img')))));
    [done|done|].
  cbn [elems]. by rewrite !nonzero_pattern_flip, Hpat.
Qed.

(** X5: a mask without a non-zero voxel, and a mask whose profile has a
    non-zero voxel in every column, have an edge map without a point:
    [quickshear] raises [ValueError], whatever the anatomical image and the
    buffer. *)
Theorem constant_profile_raises anat_img mask_img buff :
  wf_array (dataobj mask_img) →
  (∀ i j k v, get3 (dataobj mask_img) i j k = Some v → v = 0) ∨
  (∀ j k, (j < dim1 (img_shape mask_img))%nat → (k < dim2 (img_shape mask_img))%nat →
          ∃ i v, get3 (dataobj mask_img) i j k = Some v ∧ v ≠ 0) →
  quickshear aff2axcodes anat_img mask_img buff = Raise ValueError.
Proof.
  intros Hwf Hconst.
  destruct (quickshear_unfold aff2axcodes anat_img mask_img buff)
    as (a0 & a1 & a2 & m0 & m1 & m2 & _ & _ & ->).
  set (mask := NdArray (img_shape mask_img) (flip_elems m0 m1 m2 (elems (dataobj mask_img)))).
  assert (∃ c : bool, ∀ j k,
            (j < dim1 (img_shape mask_img))%nat → (k < dim2 (img_shape mask_img))%nat →
            c = true ↔ ∃ i v, get3 (dataobj mask_img) i j k = Some v ∧ v ≠ 0) as [c Hc].
  { destruct Hconst as [Hzero|Hfull].
    - exists false. intros j k _ _. split; [done|].
      intros (i & v & Hv & Hnz). by apply Hzero in Hv.
    - exists true. intros j k Hj Hk. split; [intros _; by apply Hfull|done]. }
  rewrite (defaced_mask_empty_hull mask); [done|].
  apply (constant_profile_empty_hull mask c), constant_profile.
  { by apply shaped_flip. }
  intros j k Hj Hk. simpl in Hj, Hk.
  rewrite (Hc (mirror m1 (dim1 (img_shape mask_img)) j)
              (mirror m2 (dim2 (img_shape mask_img)) k)) by by apply mirror_lt.
  symmetry. unfold mask.
  rewrite (flipped_profile (fun v => v ≠ 0) (img_shape mask_img)) by done.
  unfold img_shape. by destruct (dataobj mask_img).
Qed.

(** X19: when the line is nowhere positive, as under a large buffer,
    nothing is zeroed and [quickshear] returns the anatomical image as it
    was. *)
Theorem line_nowhere_positive anat_img mask_img buff mask mask_flip slope yint :
  orient_xPS aff2axcodes mask_img "R" = Ok (mask, mask_flip) →
  shear_line (convex_hull (edge_mask mask)) buff = Ok (slope, yint) →
  (∀ x, (x < dim2 (shape mask))%nat → f64_gt0 (line_at slope yint x) = false) →
  wf_array (dataobj anat_img) →
  img_shape mask_img = img_shape anat_img →
  quickshear aff2axcodes anat_img mask_img buff = Ok anat_img.
Proof.
  intros Hmask Hline Hneg Hwf Hshape.
  destruct (quickshear_unfold aff2axcodes anat_img mask_img buff)
    as (a0 & a1 & a2 & m0 & m1 & m2 & _ & Hm & ->).
  rewrite Hmask in Hm. injection Hm as <- _.
  rewrite (defaced_mask_line _ _ _ _ Hline).
  rewrite rasterize_no_positive.
  2:{ apply Forall_lookup. intros x y Hy. rewrite lookup_line_values in Hy.
      case_decide; [|done]. injection Hy as <-. by apply Hneg. }
  simpl.
  assert (shape mask = img_shape anat_img) as Hs.
  { destruct (orient_xPS_ok aff2axcodes mask_img "R") as (? & ? & ? & Ho).
    rewrite Hmask in Ho. by injection Ho as -> _. }
  rewrite Hs, np_mul_same_shape; [|apply wf_np_ones|by apply shaped_flip|done].
  simpl. rewrite flip_axes_3. simpl.
  rewrite zip3d_ones by by apply shaped_flip.
  rewrite flip_elems_involutive.
  by destruct anat_img as [[??]??].
Qed.

(** X21: defacing the result once more with the same mask and buffer
    changes nothing. *)
Theorem quickshear_idempotent anat_img mask_img buff out :
  wf_array (dataobj anat_img) →
  img_shape mask_img = img_shape anat_img →
  quickshear aff2axcodes anat_img mask_img buff = Ok out →
  quickshear aff2axcodes out mask_img buff = Ok out.
Proof.
  intros Hwf Hshape Hq.
  destruct (quickshear_inv aff2axcodes _ _ _ _ Hwf Hshape Hq)
    as (anat & mask & mask_flip & a0 & a1 & a2 & km & Ha & Hm & Hkm & Hwfkm & Hskm & ->).
  destruct (aff2axcodes (affine anat_img)) as [[c0 c1] c2] eqn:Hc.
  rewrite (orient_xPS_codes _ _ _ _ _ Hc) in Ha. injection Ha as _ <- <- <-.
  set (a0 := bool_decide (c0 ≠ "R")). set (a1 := bool_decide (c1 ≠ "P")).
  set (a2 := bool_decide (c2 ≠ "S")).
  set (K := flip_elems a0 a1 a2 (elems km)).
  assert (shaped (img_shape anat_img) K) as HK.
  { apply shaped_flip. by rewrite <-Hskm. }
  assert (shaped (img_shape anat_img) (zip3d mask_mul K (elems (dataobj anat_img)))) as Hout
    by by apply shaped_zip3d.
  unfold quickshear.
  rewrite (orient_xPS_codes (Image _ (affine anat_img) (header anat_img)) "R" c0 c1 c2 Hc).
  fold a0 a1 a2.
  rewrite Hm. simpl. rewrite Hkm. simpl.
  rewrite np_mul_same_shape; [|done|by apply shaped_flip|done].
  simpl. rewrite flip_axes_3. simpl.
  rewrite (flip_zip3d _ (img_shape anat_img)); [| by rewrite <-Hskm|by apply shaped_flip].
  rewrite flip_elems_involutive. fold K.
  by rewrite zip3d_mask_mul_idem.
Qed.

End ImageExtras.

Section FileExtras.

Context {affine_t header_t : Type}.
Variable aff2axcodes : affine_t → string * string * string.
Variable file_names : image affine_t header_t → string → option (list string).

Implicit Types w : world affine_t header_t.

Lemma deface_frame anat_filename mask_filename defaced_filename buff w r w' :
  deface aff2axcodes file_names anat_filename mask_filename defaced_filename buff w
    = (r, w') →
  (∃ l, logged w' = logged w ++ l) ∧
  (∀ e, r = Raise e → files w' = files w) ∧
  (∀ f, (∀ img names, file_names img defaced_filename = Some names → f ∉ names) →
        files w' !! f = files w !! f).
Proof.
  unfold deface, to_filename. intros H.
  destruct (nb_load anat_filename w) as [anat_img|e1].
  2:{ injection H as <- <-. split_and!; [by exists []; rewrite app_nil_r|done..]. }
  destruct (nb_load mask_filename w) as [mask_img|e2].
  2:{ injection H as <- <-. split_and!; [by exists []; rewrite app_nil_r|done..]. }
  case_decide.
  { injection H as <- <-. split_and!; [by eexists|done..]. }
  destruct (quickshear aff2axcodes anat_img mask_img buff) as [new_anat|e3].
  2:{ injection H as <- <-. split_and!; [by exists []; rewrite app_nil_r|done..]. }
  destruct (file_names new_anat defaced_filename) as [names|] eqn:Hn.
  2:{ injection H as <- <-. split_and!; [by exists []; rewrite app_nil_r|done..]. }
  injection H as <- <-. split_and!; [by eexists|done|].
  intros f Hf. cbn [log files]. rewrite lookup_write_files.
  rewrite decide_False; [done|]. by apply (Hf new_anat).
Qed.

(** X22: run by the script, [deface] writes only the files that nibabel
    derives from the output name for the defaced image.  Whatever its
    outcome, the log has only grown; when it raises, no file has changed at
    all; when it returns, both inputs were there with one shape,
    [quickshear] returned for them, the output name suits the result, every
    file it stands for holds the result, every other file is as it was, and
    the output has been announced. *)
Theorem deface_writes_named_files anat_filename mask_filename defaced_filename buff
    w r w' :
  deface aff2axcodes file_names anat_filename mask_filename defaced_filename buff w
    = (r, w') →
  (∃ l, logged w' = logged w ++ l) ∧
  (∀ e, r = Raise e → files w' = files w) ∧
  (r = Ok () →
   ∃ anat_img mask_img out names,
     files w !! anat_filename = Some anat_img ∧
     files w !! mask_filename = Some mask_img ∧
     img_shape anat_img = img_shape mask_img ∧
     quickshear aff2axcodes anat_img mask_img buff = Ok out ∧
     file_names out defaced_filename = Some names ∧
     logged w' = logged w ++ [(INFO, "Defaced file: " +:+ defaced_filename)] ∧
     ∀ f, files w' !! f = if decide (f ∈ names) then Some out else files w !! f).
Proof.
  intros H. destruct (deface_frame _ _ _ _ _ _ _ H) as (Hlog & Hraise & _).
  split_and!; [done..|]. intros ->. revert H. unfold deface, nb_load, to_filename.
  destruct (files w !! anat_filename) as [anat_img|]; [|done].
  destruct (files w !! mask_filename) as [mask_img|]; [|done].
  case_decide as Hsh; [done|].
  destruct (quickshear aff2axcodes anat_img mask_img buff) as [out|] eqn:Hq; [|done].
  destruct (file_names out defaced_filename) as [names|] eqn:Hn; [|done].
  intros [= <-]. exists anat_img, mask_img, out, names.
  split_and!; [done|done| |done|done|done|].
  - by destruct (decide (img_shape anat_img = img_shape mask_img)).
  - intros f. cbn [log files]. apply lookup_write_files.
Qed.

End FileExtras.

Section MainExtras.

Context {affine_t header_t : Type}.
Variable aff2axcodes : affine_t → string * string * string.
Variable py_int : string → option Z.
Variable file_names : image affine_t header_t → string → option (list string).

Implicit Types w : world affine_t header_t.

(** X23: when the anatomical or the mask file does not exist, [deface]
    raises the loader's [FileNotFoundError] with nothing written or logged,
    and [main] ends with status 1, whatever the buffer. *)
Theorem missing_input_file argv w :
  (4 ≤ length argv)%nat →
  files w !! arg argv 1 = None ∨ files w !! arg argv 2 = None →
  (∀ buff, deface aff2axcodes file_names (arg argv 1) (arg argv 2) (arg argv 3) buff w =
           (Raise FileNotFoundError, w)) ∧
  (length argv = 4%nat ∨ is_Some (py_int (arg argv 4)) →
   main aff2axcodes py_int file_names argv w = (Raise FileNotFoundError, w) ∧
   exit_status (main aff2axcodes py_int file_names argv w).1 = 1).
Proof.
  intros Hlen Hmiss.
  assert (∀ buff, deface aff2axcodes file_names (arg argv 1) (arg argv 2) (arg argv 3)
                    buff w =
                  (Raise FileNotFoundError, w)) as Hd.
  { intros buff. unfold deface, nb_load.
    destruct (files w !! arg argv 1) as [anat_img|]; [|done].
    destruct Hmiss as [Hm| ->]; done. }
  split; [done|]. intros Hbuff. unfold main. rewrite decide_False by lia.
  case_decide as H5.
  - destruct Hbuff as [|[buff ->]]; [lia|]. by rewrite Hd.
  - by rewrite Hd.
Qed.

(** X24: with fewer than three file arguments [main] logs the usage line
    and exits with status -1 (255); with a fifth argument that is not an
    integer it raises [ValueError] before any file is read: nothing is
    written or logged and the status is 1. *)
Theorem main_argument_errors argv w :
  ((length argv < 4)%nat →
   main aff2axcodes py_int file_names argv w =
     (Raise (SystemExit (-1)),
      log DEBUG "Usage: quickshear.py anat_file strip_file defaced_file [buffer]" w) ∧
   exit_status (main aff2axcodes py_int file_names argv w).1 = 255) ∧
  ((5 ≤ length argv)%nat → py_int (arg argv 4) = None →
   main aff2axcodes py_int file_names argv w = (Raise ValueError, w) ∧
   exit_status (main aff2axcodes py_int file_names argv w).1 = 1).
Proof.
  unfold main. split.
  - intros Hlen. by rewrite decide_True.
  - intros Hlen Hint. rewrite decide_False, decide_True, Hint by lia. done.
Qed.

(** X25: whatever its arguments and outcome, [main] only appends to the
    log and leaves as it was every file that is not among those nibabel
    derives from the output name [sys.argv[3]]. *)
Theorem main_writes_named_files argv w :
  (∃ l, logged (main aff2axcodes py_int file_names argv w).2 = logged w ++ l) ∧
  (∀ f, (∀ img names, file_names img (arg argv 3) = Some names → f ∉ names) →
        files (main aff2axcodes py_int file_names argv w).2 !! f = files w !! f).
Proof.
  unfold main. case_decide.
  { split; [by eexists|done]. }
  case_decide.
  2:{ destruct (deface _ _ _ _ _ _ w) as [r w'] eqn:Hd.
      apply deface_frame in Hd as (Hl & _ & Hf). done. }
  destruct (py_int (arg argv 4)) as [buff|].
  2:{ split; [by exists []; rewrite app_nil_r|done]. }
  destruct (deface _ _ _ _ _ buff w) as [r1 w1] eqn:Hd1.
  apply deface_frame in Hd1 as ([l1 Hl1] & _ & Hf1).
  destruct r1 as [[]|e]; [|split; [by eexists|done]].
  destruct (deface _ _ _ _ _ default_buff w1) as [r2 w2] eqn:Hd2.
  apply deface_frame in Hd2 as ([l2 Hl2] & _ & Hf2). cbn [snd]. split.
  - exists (l1 ++ l2). by rewrite Hl2, Hl1, app_assoc.
  - intros f Hf. by rewrite Hf2, Hf1.
Qed.

(** X26: [main] reads at most five entries of the argument vector; what
    follows the buffer is ignored. *)
Theorem main_ignores_further_arguments argv w :
  (5 ≤ length argv)%nat →
  main aff2axcodes py_int file_names (take 5 argv) w =
  main aff2axcodes py_int file_names argv w.
Proof.
  intros Hlen. unfold main, arg.
  rewrite length_take, Nat.min_l by done.
  rewrite !lookup_take_lt by lia.
  repeat case_decide; (lia || done).
Qed.

End MainExtras.

(** * The claims on the sample volumes *)

Lemma wf_sample_anat : wf_array sample_anat.
Proof. split; [reflexivity|]. repeat constructor. Defined.

Lemma wf_slice_anat : wf_array slice_anat.
Proof. split; [reflexivity|]. repeat constructor. Defined.

Lemma wf_slice_mask : wf_array slice_mask.
Proof. split; [reflexivity|]. repeat constructor. Defined.


(** On the sample mask with buffer 0 the line is [y = 4 - 2 * x]. *)
Lemma shear_plane_rasterization_witness :
  ∃ km,
    defaced_mask sample_mask 0 = Ok km ∧ shape km = shape sample_mask ∧
    ∀ i j k, (i < 1)%nat → (j < 4)%nat → (j < 6)%nat → (k < 6)%nat →
      get3 km i j k =
      Some (negb (f64_gt0 (line_at (f64_of_int (-2)) (f64_of_int 4) j)
                  && bool_decide
                       (Z.of_nat k
                        < astype_int (line_at (f64_of_int (-2)) (f64_of_int 4) j)))).
Proof.
  apply (shear_plane_rasterization sample_mask 0 (f64_of_int (-2)) (f64_of_int 4) 2).
  - vm_compute. reflexivity.
  - vm_compute. reflexivity.
  - vm_compute. lia.
  - vm_compute. discriminate.
Defined.

(** The voxel [(0, 0, 2)] is zeroed by the code: the line is 4 at the
    second-axis index 0.  The claim as worded keeps it: the line is 0 at
    position 2. *)
Lemma shear_plane_rasterization_counterexample :
  ¬ (∀ (mask : ndarray Z) (buff : Z) (slope yint : float64) (km : ndarray bool),
       shear_line (convex_hull (edge_mask mask)) buff = Ok (slope, yint) →
       defaced_mask mask buff = Ok km →
       ∀ i j k,
         (i < dim0 (shape mask))%nat → (j < dim1 (shape mask))%nat →
         (k < dim2 (shape mask))%nat →
         get3 km i j k = Some (negb (spec_zeroed slope yint j k))).
Proof.
  intros H.
  specialize (H sample_mask 0 _ _ _ eq_refl eq_refl 0%nat 0%nat 2%nat).
  vm_compute in H.
  specialize (H ltac:(lia) ltac:(lia) ltac:(lia)). discriminate H.
Qed.

(** On the hull of the sample mask, [(0, 4)], [(1, 2)], ..., with buffer 10
    the code's intercept is [4 - 0 - 10], the claim's [2 - 0 - 10]. *)
Lemma shear_line_intercept_counterexample :
  ¬ (∀ (p0 p1 : point) (rest : list point) (buff : Z),
       shear_line (np_array_T (p0 :: p1 :: rest)) buff =
       Ok (segment_slope p0 p1, spec_intercept p0 p1 buff)).
Proof.
  intros H. specialize (H (0, 4) (1, 2) [(2, 1); (3, 2); (3, 4)] 10).
  vm_compute in H. discriminate H.
Qed.

(** A single coronal slice stored as LPI: the hull of its edge map is
    [(0, 0)], [(0, 3)], a vertical segment; [quickshear] returns the
    anatomical image and [deface] writes it to [out.nii]. *)
Lemma degenerate_geometry_witness :
  quickshear sample_aff2axcodes anat_img1 mask_img1 10 = Ok anat_img1 ∧
  (deface sample_aff2axcodes sample_file_names "anat.nii" "mask.nii" "out.nii" 10
     world1).1 = Ok () ∧
  files (deface sample_aff2axcodes sample_file_names "anat.nii" "mask.nii" "out.nii" 10
           world1).2 !! "out.nii" = Some anat_img1 ∧
  files (deface sample_aff2axcodes sample_file_names "anat.nii" "mask.nii" "out.nii" 10
           world1).2 !! "mask.nii" = Some mask_img1.
Proof.
  assert (H := degenerate_geometry sample_aff2axcodes sample_file_names
                 "anat.nii" "mask.nii" "out.nii" 10 world1 anat_img1 mask_img1
                 (NdArray (1, 1, 4)%nat [[[0; 1; 1; 0]]]) [true; false; true]
                 eq_refl eq_refl wf_slice_anat wf_slice_mask eq_refl eq_refl).
  destruct (H eq_refl) as (Hq & Hr & _ & Hf).
  split; [exact Hq|]. split; [exact Hr|].
  split; [exact (Hf "out.nii")|exact (Hf "mask.nii")].
Defined.

(** The same slice through [main]: the run ends with status 0. *)
Lemma degenerate_geometry_counterexample :
  ¬ (∀ (w : world axcodes unit) (anat_img mask_img : image axcodes unit)
       (mask : ndarray Z) (mask_flip : list bool),
       files w !! "anat.nii" = Some anat_img →
       files w !! "mask.nii" = Some mask_img →
       orient_xPS sample_aff2axcodes mask_img "R" = Ok (mask, mask_flip) →
       degenerate (lower_hull (nonzero_points (edge_mask mask))) →
       exit_status (main sample_aff2axcodes sample_py_int sample_file_names argv4 w).1 ≠ 0).
Proof.
  intros H.
  apply (H world1 anat_img1 mask_img1 (NdArray (1, 1, 4)%nat [[[0; 1; 1; 0]]])
           [true; false; true]).
  - vm_compute. reflexivity.
  - vm_compute. reflexivity.
  - vm_compute. reflexivity.
  - right. exists (0, 0), (0, 3), []. split; [vm_compute; reflexivity|reflexivity].
  - vm_compute. reflexivity.
Qed.

(** [quickshear.py anat.nii mask.nii out.nii 0] *)
Lemma main_defaces_twice_witness :
  ∃ out2,
    quickshear sample_aff2axcodes anat_img0 mask_img0 10 = Ok out2 ∧
    files (main sample_aff2axcodes sample_py_int sample_file_names argv5 world0).2
      !! "out.nii" = Some out2 ∧
    files (main sample_aff2axcodes sample_py_int sample_file_names argv5 world0).2
      !! "anat.nii" = Some anat_img0.
Proof.
  eexists. split; [vm_compute; reflexivity|].
  refine (let H := proj2 (proj2 (proj2 (proj2
            (main_defaces_twice sample_aff2axcodes sample_py_int sample_file_names
               argv5 world0 0 anat_img0 mask_img0 _ _ ["out.nii"] ["out.nii"]
               _ _ _ _ _ _ _ _ _ _ _)))) eq_refl in
          conj (H "out.nii") (H "anat.nii")).
  - vm_compute. lia.
  - reflexivity.
  - vm_compute. reflexivity.
  - vm_compute. reflexivity.
  - reflexivity.
  - vm_compute. reflexivity.
  - vm_compute. reflexivity.
  - reflexivity.
  - reflexivity.
  - intros Hin. apply list_elem_of_singleton in Hin. discriminate Hin.
  - intros Hin. apply list_elem_of_singleton in Hin. discriminate Hin.
Defined.

(** [quickshear.py anat.nii mask.nii anat.nii 0]: the first run writes the
    result for buffer 0 over the anatomical file and the second run
    defaces that result, which buffer 10 leaves as it is.  The file as
    finally written is the result for the supplied buffer, not the result
    of defacing the anatomical image with buffer 10. *)
Lemma main_defaces_twice_counterexample :
  ¬ (∀ (argv : list string) (w : world axcodes unit) (buff : Z)
       (anat_img mask_img out2 : image axcodes unit),
       (5 ≤ length argv)%nat →
       sample_py_int (arg argv 4) = Some buff →
       files w !! arg argv 1 = Some anat_img →
       files w !! arg argv 2 = Some mask_img →
       quickshear sample_aff2axcodes anat_img mask_img default_buff = Ok out2 →
       (main sample_aff2axcodes sample_py_int sample_file_names argv w).1 = Ok () →
       files (main sample_aff2axcodes sample_py_int sample_file_names argv w).2
         !! arg argv 3 = Some out2).
Proof.
  intros H.
  specialize (H argv_inplace world0 0 anat_img0 mask_img0 anat_img0).
  vm_compute in H.
  specialize (H ltac:(lia) eq_refl eq_refl eq_refl eq_refl eq_refl).
  discriminate H.
Qed.

(** [quickshear.py anat.nii mask.nii out.nii] with a mask on another grid. *)
Lemma shape_mismatch_exits_witness :
  exit_status (main sample_aff2axcodes sample_py_int sample_file_names argv4 world2).1 ≠ 0 ∧
  files (main sample_aff2axcodes sample_py_int sample_file_names argv4 world2).2
  = files world2.
Proof.
  refine (let H := shape_mismatch_exits sample_aff2axcodes sample_py_int
                     sample_file_names argv4 world2 anat_img0 mask_img2 _ _ _ _ in
          conj (proj1 (proj2 H)) (proj1 (proj2 (proj2 H)))).
  - vm_compute. lia.
  - vm_compute. reflexivity.
  - vm_compute. reflexivity.
  - discriminate.
Defined.



(** Buffers 0 and 1 on the sample mask: the lines are [4 - 2 x] and
    [3 - 2 x]. *)
Lemma buffer_lowers_zeroed_count_witness :
  ∃ km km',
    defaced_mask sample_mask 0 = Ok km ∧ defaced_mask sample_mask 1 = Ok km' ∧
    (count_zeroed km' ≤ count_zeroed km)%nat.
Proof.
  apply (buffer_lowers_zeroed_count sample_mask 0 1
           (f64_of_int (-2)) (f64_of_int 4) (f64_of_int (-2)) (f64_of_int 3) 2 2).
  - lia.
  - vm_compute. reflexivity.
  - vm_compute. reflexivity.
  - vm_compute. reflexivity.
  - vm_compute. reflexivity.
  - vm_compute. lia.
  - vm_compute. discriminate.
  - intros [|[|p]] Hp; [vm_compute; discriminate..|exfalso; lia].
Defined.

(** Buffers 0 and 10 on the sample mask: six voxels zeroed, then none. *)
Lemma buffer_monotonicity_counterexample :
  ¬ (∀ (mask : ndarray Z) (b b' : Z) (km km' : ndarray bool),
       b ≤ b' →
       defaced_mask mask b = Ok km → defaced_mask mask b' = Ok km' →
       (count_zeroed km ≤ count_zeroed km')%nat).
Proof.
  intros H.
  specialize (H sample_mask 0 10 _ _ ltac:(lia) eq_refl eq_refl).
  vm_compute in H. lia.
Qed.

(** Why the line values under the smaller buffer have to stay inside
    int64: under buffer [- 2 ^ 70] every line value of [wide_mask] is cast
    to [INT64_MIN] and nothing is zeroed, under buffer 0 three voxels are. *)
Lemma cast_overflow_zeroes_nothing :
  ∃ km km',
    defaced_mask wide_mask (- 2 ^ 70) = Ok km ∧ defaced_mask wide_mask 0 = Ok km' ∧
    count_zeroed km = 0%nat ∧ count_zeroed km' = 3%nat.
Proof. eexists _, _. split_and!; [reflexivity..|by vm_compute|by vm_compute]. Qed.

Lemma edge_extraction_witness :
  rect 4 4 (edges sample_brain) ∧
  get2 (edges sample_brain) 0 1 = Some true ∧
  get2 (edges sample_brain) 0 0 = Some false.
Proof.
  assert (rect 4 4 sample_brain) as Hr by (split; [reflexivity|repeat constructor]).
  pose proof (edge_extraction 4 4 sample_brain Hr) as (H1 & H2 & _).
  split_and!; [exact H1|apply (H2 0%nat 1%nat); lia|apply (H2 0%nat 0%nat); lia].
Defined.

(** * The further properties on the sample volumes *)

Lemma wf_sample_mask : wf_array sample_mask.
Proof. split; [reflexivity|]. repeat constructor. Defined.

Lemma wf_zero_mask : wf_array zero_mask.
Proof. split; [reflexivity|]. repeat constructor. Defined.

Lemma wf_two_plane_mask : wf_array two_plane_mask.
Proof. split; [reflexivity|]. repeat constructor. Defined.

Lemma sagittal_profile_witness :
  ∃ b, get2 (any_axis0 two_plane_mask) 2 3 = Some b ∧
       (b = true ↔ ∃ i v, get3 two_plane_mask i 2%nat 3%nat = Some v ∧ v ≠ 0).
Proof.
  apply (proj2 (sagittal_profile two_plane_mask wf_two_plane_mask) 2%nat 3%nat);
    vm_compute; lia.
Defined.

Lemma edge_mask_boundary_witness :
  get2 (edge_mask sample_mask) 1 5 =
  Some (Z.b2z (differs_from_neighbour 4 6 (any_axis0 sample_mask) 1 5)).
Proof.
  apply (proj2 (edge_mask_boundary sample_mask wf_sample_mask) 1%nat 5%nat);
    vm_compute; lia.
Defined.

Lemma edge_mask_flip_first_axis_witness :
  edge_mask (NdArray (2, 4, 6)%nat (reverse (elems two_plane_mask))) =
  edge_mask two_plane_mask.
Proof.
  apply (edge_mask_flip_first_axis two_plane_mask _ wf_two_plane_mask). reflexivity.
Defined.

Lemma masked_image_as_mask_witness :
  quickshear sample_aff2axcodes anat_img0 intensity_img0 0 =
  quickshear sample_aff2axcodes anat_img0 mask_img0 0.
Proof.
  apply (masked_image_as_mask sample_aff2axcodes anat_img0 mask_img0 intensity_img0 0);
    reflexivity.
Defined.

Lemma constant_profile_raises_witness :
  quickshear sample_aff2axcodes anat_img0 zero_img0 10 = Raise ValueError.
Proof.
  apply (constant_profile_raises sample_aff2axcodes anat_img0 zero_img0 10 wf_zero_mask).
  left. intros [|[|i]] [|[|[|[|[|j]]]]] [|[|[|[|[|[|[|k]]]]]]] v; vm_compute; congruence.
Defined.

Lemma hull_of_edge_mask_witness :
  length (lower_hull (nonzero_points (edge_mask sample_mask))) ≠ 1%nat.
Proof. exact (proj2 (hull_of_edge_mask sample_mask wf_sample_mask)). Defined.

Lemma leading_edge_vertical_witness :
  (0, 4).1 = (1, 2).1 ↔ ∀ q, q ∈ nonzero_points (edge_mask sample_mask) → q.1 = (0, 4).1.
Proof.
  apply (leading_edge_vertical (edge_mask sample_mask) (0, 4) (1, 2) [(2, 1); (3, 2); (3, 4)]).
  vm_compute. reflexivity.
Defined.

Lemma flip_axes_pointwise_witness :
  ∃ d', flip_axes sample_anat [false; true; true] = Ok d' ∧
        get3 d' 0 0 1 = get3 sample_anat 0 3 4.
Proof.
  destruct (flip_axes_pointwise sample_anat false true true wf_sample_anat)
    as (d' & Hd & _ & _ & Hget).
  exists d'. split; [exact Hd|]. apply (Hget 0%nat 0%nat 1%nat); vm_compute; lia.
Defined.

Lemma flip_axes_no_flag_witness :
  flip_axes sample_anat [false; false; false; false] = Ok sample_anat.
Proof. apply flip_axes_no_flag. repeat constructor. Defined.

Lemma orient_xPS_mirrors_witness :
  ∃ data',
    orient_xPS sample_aff2axcodes anat_img1 "R" = Ok (data', [true; false; true]) ∧
    get3 data' 0 0 0 = get3 slice_anat 0 0 3.
Proof.
  destruct (orient_xPS_mirrors sample_aff2axcodes anat_img1 "R" "L" "P" "I" eq_refl
              wf_slice_anat) as (d' & Hd & _ & Hget).
  exists d'. split; [exact Hd|]. apply (Hget 0%nat 0%nat 0%nat); vm_compute; lia.
Defined.

Lemma orient_xPS_hemisphere_witness :
  ∃ dR fR dL fL,
    orient_xPS sample_aff2axcodes anat_img_lps "R" = Ok (dR, fR) ∧
    orient_xPS sample_aff2axcodes anat_img_lps "L" = Ok (dL, fL) ∧
    flip_axis dR 0 = Ok dL.
Proof.
  destruct (orient_xPS_hemisphere sample_aff2axcodes anat_img_lps "L" "P" "S" eq_refl)
    as (dR & fR & dL & fL & HR & HL & Hflip & _).
  exists dR, fR, dL, fL. split; [exact HR|]. split; [exact HL|]. apply Hflip. by right.
Defined.

Lemma keep_mask_same_in_every_plane_witness :
  ∃ km, defaced_mask two_plane_mask 0 = Ok km ∧ get3 km 0 1 1 = get3 km 1 1 1.
Proof.
  eexists. split; [vm_compute; reflexivity|].
  apply (keep_mask_same_in_every_plane two_plane_mask 0 _ eq_refl); vm_compute; lia.
Defined.

Lemma zeroed_from_below_witness :
  ∃ km, defaced_mask sample_mask 0 = Ok km ∧ get3 km 0 0 1 = Some false.
Proof.
  eexists. split; [vm_compute; reflexivity|].
  apply (zeroed_from_below sample_mask 0 _ 0 0 3 1 eq_refl); [reflexivity|lia].
Defined.

(** On [corner_mask] with buffer 0 the line is positive at 1, 2 and 3 and
    truncates to 0, 0, 0, 1: the last position, the third positive one, is
    cut at the height read from position 2. *)
Lemma columns_cut_by_rank_witness :
  ∃ km slope yint,
    defaced_mask corner_mask 0 = Ok km ∧
    shear_line (convex_hull (edge_mask corner_mask)) 0 = Ok (slope, yint) ∧
    astype_int (line_at slope yint 3) = 1 ∧
    get3 km 0 3 0 =
    Some (negb (bool_decide (0 < py_slice_stop 4 (astype_int (line_at slope yint 2)))%nat)).
Proof.
  eexists _, _, _. split; [vm_compute; reflexivity|]. split; [vm_compute; reflexivity|].
  split; [vm_compute; reflexivity|].
  refine (proj2 (proj1 (proj2 (columns_cut_by_rank corner_mask 0 _ _ _ eq_refl eq_refl)
                          0%nat 0%nat _ _) 2%nat 3%nat _)).
  - vm_compute. lia.
  - vm_compute. lia.
  - vm_compute. reflexivity.
Defined.

Lemma positive_beyond_second_axis_witness :
  defaced_mask sample_mask (-10) = Raise IndexError.
Proof.
  refine (proj1 (positive_beyond_second_axis sample_mask (-10) _ _ eq_refl) _).
  exists 4%nat. split; vm_compute; [lia|reflexivity].
Defined.

Lemma line_nowhere_positive_witness :
  quickshear sample_aff2axcodes anat_img0 mask_img0 10 = Ok anat_img0.
Proof.
  refine (line_nowhere_positive sample_aff2axcodes anat_img0 mask_img0 10
            sample_mask [false; false; false] _ _ eq_refl eq_refl _ wf_sample_anat eq_refl).
  intros [|[|[|[|[|[|x]]]]]] Hx; try (vm_compute; reflexivity).
  exfalso. vm_compute in Hx. lia.
Defined.

Lemma line_lowered_by_buffer_witness :
  f64_gt0 (line_at (f64_of_int (-2)) (f64_of_int 4) 1) = true.
Proof.
  refine (proj1 (proj2 (line_lowered_by_buffer (convex_hull (edge_mask sample_mask)) 0 1
                          (f64_of_int (-2)) (f64_of_int 4) (f64_of_int (-2)) (f64_of_int 3)
                          1 _ _ _)) _).
  - lia.
  - vm_compute. reflexivity.
  - vm_compute. reflexivity.
  - vm_compute. reflexivity.
Defined.

Lemma quickshear_idempotent_witness :
  ∃ out,
    quickshear sample_aff2axcodes anat_img0 mask_img0 0 = Ok out ∧
    quickshear sample_aff2axcodes out mask_img0 0 = Ok out.
Proof.
  eexists. split; [vm_compute; reflexivity|].
  apply (quickshear_idempotent sample_aff2axcodes anat_img0 mask_img0 0 _ wf_sample_anat);
    [reflexivity|vm_compute; reflexivity].
Defined.

Lemma missing_input_file_witness :
  main sample_aff2axcodes sample_py_int sample_file_names argv5 world_no_mask =
  (Raise FileNotFoundError, world_no_mask).
Proof.
  refine (proj1 (proj2 (missing_input_file sample_aff2axcodes sample_py_int
                          sample_file_names argv5 world_no_mask _ _) _)).
  - vm_compute. lia.
  - right. vm_compute. reflexivity.
  - right. vm_compute. eauto.
Defined.

(** The samples as a header and image pair: the output name [out.img]
    stands for [out.hdr] and [out.img]. *)
Lemma deface_writes_named_files_witness :
  ∃ out,
    quickshear sample_aff2axcodes anat_img0 mask_img0 0 = Ok out ∧
    files (deface sample_aff2axcodes pair_file_names "anat.nii" "mask.nii" "out.img" 0
             world0).2 !! "out.hdr" = Some out ∧
    files (deface sample_aff2axcodes pair_file_names "anat.nii" "mask.nii" "out.img" 0
             world0).2 !! "out.img" = Some out ∧
    files (deface sample_aff2axcodes pair_file_names "anat.nii" "mask.nii" "out.img" 0
             world0).2 !! "anat.nii" = Some anat_img0.
Proof.
  destruct (deface_writes_named_files sample_aff2axcodes pair_file_names
              "anat.nii" "mask.nii" "out.img" 0 world0 _ _ (surjective_pairing _))
    as (_ & _ & H).
  destruct (H eq_refl)
    as (anat_img & mask_img & out & names & Ha & Hm & _ & Hq & Hn & _ & Hf).
  vm_compute in Ha. injection Ha as <-.
  vm_compute in Hm. injection Hm as <-.
  vm_compute in Hn. injection Hn as <-.
  exists out. split; [exact Hq|].
  split; [exact (Hf "out.hdr")|]. split; [exact (Hf "out.img")|exact (Hf "anat.nii")].
Defined.

(** [quickshear.py anat.nii mask.nii out.img] on the samples as pairs. *)
Lemma main_writes_named_files_witness :
  files (main sample_aff2axcodes sample_py_int pair_file_names argv_pair world0).2
    !! "mask.nii" = files world0 !! "mask.nii".
Proof.
  refine (proj2 (main_writes_named_files sample_aff2axcodes sample_py_int pair_file_names
                   argv_pair world0) "mask.nii" _).
  intros img names Hn. vm_compute in Hn. injection Hn as <-.
  intros Hin. apply elem_of_cons in Hin as [Hin|Hin]; [discriminate Hin|].
  apply list_elem_of_singleton in Hin. discriminate Hin.
Defined.

Lemma main_argument_errors_witness :
  exit_status (main sample_aff2axcodes sample_py_int sample_file_names argv2 world0).1 = 255 ∧
  main sample_aff2axcodes sample_py_int sample_file_names argv5_bad world0 = (Raise ValueError, world0).
Proof.
  pose proof (main_argument_errors sample_aff2axcodes sample_py_int sample_file_names
                argv2 world0) as [H1 _].
  pose proof (main_argument_errors sample_aff2axcodes sample_py_int sample_file_names
                argv5_bad world0) as [_ H2].
  split.
  - apply H1. vm_compute. lia.
  - apply H2; [vm_compute; lia|reflexivity].
Defined.

Lemma main_ignores_further_arguments_witness :
  main sample_aff2axcodes sample_py_int sample_file_names argv5 world0 =
  main sample_aff2axcodes sample_py_int sample_file_names argv6 world0.
Proof.
  apply (main_ignores_further_arguments sample_aff2axcodes sample_py_int
           sample_file_names argv6 world0).
  vm_compute. lia.
Defined.
